(** * pre-compress: a shallow embedding of package [precompress]

    The development follows [pkg/pre-compress]: the size-capped writer
    [limitedWriter], the conditional compressor [IfSmallerBuffer], the tree
    walker [recurse], the queue consumer [worker] and the orchestrator
    [Recursive] with its pool of goroutines.

    Conventions.
    - Go's [int] and [int64] are 64-bit two's complement integers, modelled
      as [Z] with the wrap-around written out ([wrap64]).
    - A Go [error] value is an element of [error]; [nil] is [None].
    - The file system is a finite map from cleaned path names to files,
      together with the operations the environment makes fail, the file
      mode creation mask, a clock and a log of the operations performed so
      far. *)

From Stdlib Require Import ZArith Lia List Bool Ascii String.
From Stdlib.Strings Require Import Byte.
From stdpp Require Import base option gmap strings list.

Open Scope string_scope.
Open Scope Z_scope.

(** ** Machine integers *)

(** Reduction of an unbounded integer to the range of a signed 64-bit word. *)
Definition wrap64 (z : Z) : Z := (z + 2 ^ 63) mod 2 ^ 64 - 2 ^ 63.

(** ** Errors *)

(** The error values that can flow through the package: its own sentinel,
    the errors of package [os] (a failed operation on a path), an error of
    the compressor itself, and a syntax error of package [regexp]. *)
Inductive error : Type :=
  | errSizeThresholdExceeded
  | PathError (op path : string)
  | EncoderError (code : nat)
  | SyntaxError (expr : string).

#[global] Instance error_eq_dec : EqDecision error.
Proof. solve_decision. Defined.

(** [errors.Is(err, target)]: none of the errors above wraps another one, so
    the chain that [errors.Is] walks has the single element [err]. *)
Definition errors_Is (err target : error) : bool := bool_decide (err = target).

(** ** The size-capped writer *)

Module limitedWriter.

(** [buf] is the content of the [bytes.Buffer] the writer points to and
    [n] the remaining budget. *)
Record t : Type := mk { buf : list byte; n : Z }.

(** [func (l *limitedWriter) Write(p []byte) (int, error)].
    [bytes.Buffer.Write] appends all of [p] and returns [len(p), nil]. *)
Definition Write (l : t) (p : list byte) : t * (Z * option error) :=
  let nw := Z.of_nat (length p) in
  let l' := {| buf := (buf l ++ p)%list; n := wrap64 (n l - nw) |} in
  if n l' <? 0 then (l', (0, Some errSizeThresholdExceeded))
  else (l', (nw, None)).

End limitedWriter.

(** ** The gzip writer

    [compress/gzip] is outside the package.  What the package relies on is
    that a [gzip.Writer] turns the bytes written into it into a sequence of
    slices that it passes, one [Write] call each, to the writer below it,
    that it stops at the first error the writer below returns and from then
    on reports that error, and that [Close] is idempotent.  The slices
    themselves are left open: [emit_write consumed p] are those produced
    while [p] is written after [consumed], [emit_close consumed] those of
    [Close]; either may be followed by a failure of the encoder itself. *)
Record Encoder : Type := {
  emit_write : list byte -> list byte -> list (list byte) * option error;
  emit_close : list byte -> list (list byte) * option error
}.

(** The slices reach the writer below in order, until one is refused. *)
Fixpoint write_all (l : limitedWriter.t) (chunks : list (list byte))
  : limitedWriter.t * option error :=
  match chunks with
  | [] => (l, None)
  | p :: rest =>
      match limitedWriter.Write l p with
      | (l', (_, Some e)) => (l', Some e)
      | (l', (_, None)) => write_all l' rest
      end
  end.

Module gzipWriter.

Record t : Type := mk {
  w : limitedWriter.t;
  consumed : list byte;
  err : option error;
  closed : bool
}.

(** [gzip.NewWriterLevel(&w, gzip.BestCompression)]; the level is valid,
    so the constructor does not fail. *)
Definition NewWriterLevel (l : limitedWriter.t) : t :=
  {| w := l; consumed := []; err := None; closed := false |}.

Definition push (z : t) (out : list (list byte) * option error) : t * option error :=
  match write_all (w z) (fst out) with
  | (l, Some e) => ({| w := l; consumed := consumed z; err := Some e; closed := closed z |}, Some e)
  | (l, None) => ({| w := l; consumed := consumed z; err := snd out; closed := closed z |}, snd out)
  end.

Definition Write (gz : Encoder) (z : t) (p : list byte) : t * (Z * option error) :=
  match err z with
  | Some e => (z, (0, Some e))
  | None =>
      match push z (emit_write gz (consumed z) p) with
      | (z', Some e) => (z', (0, Some e))
      | (z', None) =>
          ({| w := w z'; consumed := (consumed z ++ p)%list; err := None; closed := closed z' |},
           (Z.of_nat (length p), None))
      end
  end.

Definition Close (gz : Encoder) (z : t) : t * option error :=
  match err z with
  | Some e => (z, Some e)
  | None =>
      if closed z then (z, None)
      else push {| w := w z; consumed := consumed z; err := None; closed := true |}
                (emit_close gz (consumed z))
  end.

End gzipWriter.

(** ** The file system *)

(** A [time.Time] is the instant it names, counted from January 1 of year 1,
    00:00:00 UTC, as package [time] counts it: [t.Equal(u)] compares the
    instants, and the zero [time.Time], the default of the flag [-m-time],
    is the instant [0]. *)
Definition time_IsZero (t : Z) : bool := t =? 0.

(** A regular file: its bytes, its modification time and its permission
    bits. *)
Record File : Type := { Data : list byte; ModTime : Z; Perm : Z }.

(** [s.Size()] of the [FileInfo] that [os.Stat] returns. *)
Definition Size (f : File) : Z := Z.of_nat (length (Data f)).

Inductive fsop : Type :=
  | OpStat (path : string)
  | OpChtimes (path : string) (m : Z)
  | OpOpen (path : string)
  | OpRead (path : string)
  | OpWriteFile (path : string) (data : list byte) (perm : Z)
  | OpRename (oldpath newpath : string).

(** [files] maps a path to the file it names.  [faulty op] says that the
    environment makes [op] fail at once (permissions, a missing directory,
    an I/O error); [fail_read path = Some k] that reading [path] fails after
    [k] bytes, and [fail_write path = Some k] that writing to [path] fails
    after [k] bytes (a full disk), or on closing it when [k] is not below
    the number of bytes to write.  [umask] is the file mode creation mask
    of the process.  [oplog] lists the operations attempted so far, oldest
    first, and [clock k] is the time at which the operation that follows
    [k] others takes place. *)
Record FS : Type := {
  files : gmap string File;
  faulty : fsop -> bool;
  fail_read : string -> option nat;
  fail_write : string -> option nat;
  umask : Z;
  clock : nat -> Z;
  oplog : list fsop
}.

Definition record_op (op : fsop) (fs : FS) : FS :=
  {| files := files fs; faulty := faulty fs; fail_read := fail_read fs;
     fail_write := fail_write fs; umask := umask fs;
     clock := clock fs; oplog := (oplog fs ++ [op])%list |}.

Definition set_files (m : gmap string File) (fs : FS) : FS :=
  {| files := m; faulty := faulty fs; fail_read := fail_read fs;
     fail_write := fail_write fs; umask := umask fs;
     clock := clock fs; oplog := oplog fs |}.

(** The time at which the operation about to be attempted takes place. *)
Definition current_time (fs : FS) : Z := clock fs (length (oplog fs)).

(** [os.Stat(path)] *)
Definition os_Stat (path : string) (fs : FS) : FS * (File + error) :=
  let fs := record_op (OpStat path) fs in
  if faulty fs (OpStat path) then (fs, inr (PathError "stat" path))
  else match files fs !! path with
       | Some f => (fs, inl f)
       | None => (fs, inr (PathError "stat" path))
       end.

(** [os.Chtimes(path, m, m)]: a zero [time.Time] leaves the time of the file
    as it is; any other time is taken to be kept by the file system as it
    is given. *)
Definition os_Chtimes (path : string) (m : Z) (fs : FS) : FS * option error :=
  let fs := record_op (OpChtimes path m) fs in
  if faulty fs (OpChtimes path m) then (fs, Some (PathError "chtimes" path))
  else match files fs !! path with
       | Some f =>
           let t := if time_IsZero m then ModTime f else m in
           (set_files (<[path := {| Data := Data f; ModTime := t; Perm := Perm f |}]> (files fs)) fs,
            None)
       | None => (fs, Some (PathError "chtimes" path))
       end.

(** [os.Open(path)]: the handle is the file opened. *)
Definition os_Open (path : string) (fs : FS) : FS * (File + error) :=
  let fs := record_op (OpOpen path) fs in
  if faulty fs (OpOpen path) then (fs, inr (PathError "open" path))
  else match files fs !! path with
       | Some f => (fs, inl f)
       | None => (fs, inr (PathError "open" path))
       end.

(** Reading an open file to its end: all of its bytes, or the bytes before
    the failure and the failure. *)
Definition read_all (path : string) (f : File) (fs : FS) : list byte * option error :=
  match fail_read fs path with
  | None => (Data f, None)
  | Some k => (firstn k (Data f), Some (PathError "read" path))
  end.

(** [io.CopyBuffer(z, f, buf)].  The copy writes into [z] only what a read
    returned, so nothing is written for a file that yields no byte; the
    error of a refused write comes before the error of a later read.  The
    count is that of the bytes written, which the caller reads on success
    only. *)
Definition io_CopyBuffer (gz : Encoder) (z : gzipWriter.t) (path : string) (f : File) (fs : FS)
  : FS * gzipWriter.t * (Z * option error) :=
  let fs := record_op (OpRead path) fs in
  let '(data, rerr) := read_all path f fs in
  let '(z, (nw, werr)) :=
    match data with
    | [] => (z, (0, None))
    | _ => gzipWriter.Write gz z data
    end in
  match werr with
  | Some e => (fs, z, (nw, Some e))
  | None => (fs, z, (nw, rerr))
  end.

(** [os.WriteFile(name, data, perm)] opens [name] for writing, creating or
    truncating it, writes [data] and closes the file.  A file that is
    created gets the bits of [perm] that [umask] does not clear, one that
    is truncated keeps its permissions; either way its time is that of the
    call.  When the open fails the files are as they were; when the write
    or the close fails, the file is left with the bytes written so far. *)
Definition os_WriteFile (name : string) (data : list byte) (perm : Z) (fs : FS) : FS * option error :=
  let t := current_time fs in
  let fs := record_op (OpWriteFile name data perm) fs in
  if faulty fs (OpWriteFile name data perm) then (fs, Some (PathError "open" name))
  else
    let p := match files fs !! name with
             | Some f => Perm f
             | None => Z.ldiff perm (umask fs)
             end in
    match fail_write fs name with
    | None =>
        (set_files (<[name := {| Data := data; ModTime := t; Perm := p |}]> (files fs)) fs, None)
    | Some k =>
        (set_files (<[name := {| Data := firstn k data; ModTime := t; Perm := p |}]> (files fs)) fs,
         Some (PathError (if (k <? length data)%nat then "write" else "close") name))
    end.

(** [os.Rename(oldpath, newpath)] *)
Definition os_Rename (oldpath newpath : string) (fs : FS) : FS * option error :=
  let fs := record_op (OpRename oldpath newpath) fs in
  if faulty fs (OpRename oldpath newpath) then (fs, Some (PathError "rename" oldpath))
  else match files fs !! oldpath with
       | Some f => (set_files (<[newpath := f]> (delete oldpath (files fs))) fs, None)
       | None => (fs, Some (PathError "rename" oldpath))
       end.

(** ** The conditional compressor *)

(** [func IfSmallerBuffer(path string, m time.Time, out *bytes.Buffer, buf []byte) (bool, error)].
    [out] is the content of the buffer the caller passes and the second
    component of the result its content on return; [buf] only saves an
    allocation and is left out.  The deferred [f.Close()] discards its
    result.  The deferred [z.Close()] finds the writer closed or failed on
    every path but the one where a read failed, where it is written out. *)
Definition IfSmallerBuffer (gz : Encoder) (path : string) (m : Z) (out : list byte) (fs : FS)
  : FS * list byte * (bool * option error) :=
  match os_Stat path fs with
  | (fs, inr err) => (fs, out, (false, Some err))
  | (fs, inl s) =>
  match (if ModTime s =? m then (fs, None) else os_Chtimes path m fs) with
  | (fs, Some err) => (fs, out, (false, Some err))
  | (fs, None) =>
  match os_Open path fs with
  | (fs, inr err) => (fs, out, (false, Some err))
  | (fs, inl f) =>
  let w := {| limitedWriter.buf := []; limitedWriter.n := Size s |} in
  let z := gzipWriter.NewWriterLevel w in
  match io_CopyBuffer gz z path f fs with
  | (fs, z, (n, Some err)) =>
      let out := limitedWriter.buf (gzipWriter.w (fst (gzipWriter.Close gz z))) in
      if errors_Is err errSizeThresholdExceeded then (fs, out, (false, None))
      else (fs, out, (false, Some err))
  | (fs, z, (n, None)) =>
  match gzipWriter.Close gz z with
  | (z, Some err) =>
      let out := limitedWriter.buf (gzipWriter.w z) in
      if errors_Is err errSizeThresholdExceeded then (fs, out, (false, None))
      else (fs, out, (false, Some err))
  | (z, None) =>
  let out := limitedWriter.buf (gzipWriter.w z) in
  if Z.of_nat (length out) >=? n then (fs, out, (false, None))
  else
  let tmp := path +:+ ".gz~" in
  match os_WriteFile tmp out (Perm s) fs with
  | (fs, Some err) => (fs, out, (false, Some err))
  | (fs, None) =>
  match os_Chtimes tmp m fs with
  | (fs, Some err) => (fs, out, (false, Some err))
  | (fs, None) =>
  match os_Rename tmp (path +:+ ".gz") fs with
  | (fs, Some err) => (fs, out, (false, Some err))
  | (fs, None) => (fs, out, (true, None))
  end end end end end end end end.

(** [func IfSmaller(path string, m time.Time) (bool, error)] *)
Definition IfSmaller (gz : Encoder) (path : string) (m : Z) (fs : FS) : FS * (bool * option error) :=
  let '(fs, _, r) := IfSmallerBuffer gz path m [] fs in (fs, r).

(** ** Strings and paths *)

(** [strings.HasSuffix(s, suffix)] *)
Definition strings_HasSuffix (s suffix : string) : bool :=
  (String.length suffix <=? String.length s)%nat
  && (substring (String.length s - String.length suffix) (String.length suffix) s =? suffix)%string.

(** [strings.Join(elems, sep)] *)
Definition strings_Join (elems : list string) (sep : string) : string :=
  String.concat sep elems.

(** The elements of a path, that is the pieces between its separators. *)
Fixpoint split_slash (s : string) : list string :=
  match s with
  | EmptyString => [EmptyString]
  | String c s' =>
      if Ascii.eqb c "/" then EmptyString :: split_slash s'
      else match split_slash s' with
           | x :: xs => String c x :: xs
           | [] => [String c EmptyString]
           end
  end.

(** One element read by [filepath.Clean]; [kept] holds the elements kept so
    far, the last one first.  An empty element and [.] are dropped; [..]
    removes the element before it, is dropped at the root, and is kept at
    the start of a path that is not rooted. *)
Definition clean_step (rooted : bool) (kept : list string) (c : string) : list string :=
  if (c =? "")%string || (c =? ".")%string then kept
  else if (c =? "..")%string then
    match kept with
    | top :: below => if (top =? "..")%string then c :: kept else below
    | [] => if rooted then [] else [c]
    end
  else c :: kept.

(** [filepath.Clean(path)] with [/] as the separator. *)
Definition filepath_Clean (path : string) : string :=
  if (path =? "")%string then "."
  else
    let rooted := String.prefix "/" path in
    let body := String.concat "/" (rev (fold_left (clean_step rooted) (split_slash path) [])) in
    if rooted then "/" +:+ body
    else if (body =? "")%string then "." else body.

(** [filepath.Join(elem...)]: leading empty elements are ignored, the rest
    is joined by the separator and cleaned; no element gives the empty
    string. *)
Fixpoint filepath_Join (elem : list string) : string :=
  match elem with
  | [] => ""
  | e :: rest =>
      if (e =? "")%string then filepath_Join rest
      else filepath_Clean (strings_Join elem "/")
  end.

Arguments filepath_Join : simpl never.
Arguments filepath_Clean : simpl never.

(** ** Regular expressions

    Package [regexp] is used through [regexp.Compile] and
    the method [MatchString] of the
    compiled expression only. *)
Record RegexpEngine : Type := {
  Regexp : Type;
  Compile : string -> Regexp + error;
  MatchString : Regexp -> string -> bool
}.

(** ** The directory tree

    What [os.ReadDir] and the entries' [Type()] show of the tree below the
    root: a directory with its entries in the order [os.ReadDir] returns
    them, a directory that cannot be listed, a regular file, or another
    kind of entry (symbolic link, device, socket, ...). *)
#[warnings="-register-all"]
Inductive Tree : Type :=
  | Directory (listing : list (string * Tree))
  | Unreadable (err : error)
  | Regular
  | Irregular.

(** [d.Type().IsDir()] and [d.Type().IsRegular()] *)
Definition IsDir (d : Tree) : bool :=
  match d with Directory _ | Unreadable _ => true | _ => false end.

Definition IsRegular (d : Tree) : bool :=
  match d with Regular => true | _ => false end.

(** The scan for the sibling [needle] among the names that follow:
    [for j := i + 1; j < len(dirs); j++ ...]. *)
Fixpoint find_sibling (needle : string) (later : list string) : bool :=
  match later with
  | [] => false
  | name :: rest =>
      if (name =? needle)%string then true
      else if (needle <? name)%string then false
      else find_sibling needle rest
  end.

Section Package.

Context (gz : Encoder) (re : RegexpEngine).

(** The loop [for i := 0; i < len(dirs); i++] of [recurse] from the entry
    [entries] starts with; [rec] stands for the recursive call.  The result
    lists the paths sent on [work], in order, and the error returned. *)
Fixpoint walk_entries (rec : Tree -> string -> list string * option error)
    (prefix : string) (ignore : Regexp re) (entries : list (string * Tree))
  : list string * option error :=
  match entries with
  | [] => ([], None)
  | (name, d) :: later =>
      let path := filepath_Join [prefix; name] in
      let '(sent, err) :=
        match d with
        | Directory _ | Unreadable _ =>
            if MatchString re ignore path then ([], None)
            else rec d path
        | Regular =>
            if strings_HasSuffix name ".gz" then ([], None)
            else if find_sibling (name +:+ ".gz") (map fst later) then ([], None)
            else ([path], None)
        | Irregular => ([], None)
        end in
      match err with
      | Some e => (sent, Some e)
      | None =>
          let '(more, err') := walk_entries rec prefix ignore later in
          ((sent ++ more)%list, err')
      end
  end.

(** [func recurse(root string, prefix string, work chan<- string, ignore *regexp.Regexp) error].
    [t] is the tree at [filepath.Join(root, prefix)], which [os.ReadDir]
    lists or fails to list.  The function is called on the root and on
    entries whose type is a directory; a root on which [os.ReadDir] fails,
    as it does on one that is no directory, is an [Unreadable] tree with
    the error of [os.ReadDir]. *)
Fixpoint recurse (t : Tree) (prefix : string) (ignore : Regexp re) {struct t}
  : list string * option error :=
  match t with
  | Directory dirs => walk_entries (fun d path => recurse d path ignore) prefix ignore dirs
  | Unreadable e => ([], Some e)
  | Regular | Irregular => ([], Some (PathError "readdirent" prefix))
  end.

(** One turn of the loop of [worker] on the path [s] received from
    [work]: the loop goes on with a count, or the function returns. *)
Inductive flow : Type :=
  | Continue (n : Z)
  | Return (n : Z) (err : error).

Definition worker_body (root : string) (m : Z) (ignoreRegex : Regexp re)
    (s : string) (n : Z) (out : list byte) (fs : FS) : FS * list byte * flow :=
  if MatchString re ignoreRegex s then (fs, out, Continue n)
  else
    let path := filepath_Join [root; s] in
    match IfSmallerBuffer gz path m out fs with
    | (fs, out, (_, Some err)) => (fs, out, Return n err)
    | (fs, out, (changed, None)) =>
        (fs, out, Continue (if changed then wrap64 (n + 1) else n))
    end.

(** [func worker(root string, work <-chan string, m time.Time, ignoreRegex *regexp.Regexp) (int64, error)]
    on the paths it receives until [work] is closed and empty. *)
Fixpoint worker_loop (root : string) (m : Z) (ignoreRegex : Regexp re)
    (received : list string) (n : Z) (out : list byte) (fs : FS)
  : FS * (Z * option error) :=
  match received with
  | [] => (fs, (n, None))
  | s :: rest =>
      match worker_body root m ignoreRegex s n out fs with
      | (fs, out, Continue n) => worker_loop root m ignoreRegex rest n out fs
      | (fs, _, Return n err) => (fs, (n, Some err))
      end
  end.

Definition worker (root : string) (received : list string) (m : Z) (ignoreRegex : Regexp re)
    (fs : FS) : FS * (Z * option error) :=
  worker_loop root m ignoreRegex received 0 [] fs.

End Package.

(** ** A fragment of package [regexp]

    The expressions written with literal ASCII characters, [^], [$], [|],
    parentheses and the repetitions [*], [+], [?] of a literal or of a group
    (each possibly followed by [?] for the non-greedy variant), read as [regexp.Compile] reads them
    (Perl syntax, no flags): alternation binds weakest, then concatenation,
    then repetition; [^] and [$] match at the beginning and at the end of
    the text.  On this fragment a match never starts or ends inside a
    multi-byte character, so the text is matched byte by byte. *)
Module syntax.

Inductive Re : Type :=
  | OpEmptyMatch
  | OpLiteral (c : ascii)
  | OpBeginText
  | OpEndText
  | OpCapture (r : Re)
  | OpStar (r : Re)
  | OpPlus (r : Re)
  | OpQuest (r : Re)
  | OpConcat (r1 r2 : Re)
  | OpAlternate (r1 r2 : Re).

(** What parsing a prefix of the input gives: an expression and the input
    left, a syntax error, or an input outside the fragment. *)
Inductive parsed : Type :=
  | Parsed (r : Re) (rest : list ascii)
  | Invalid
  | Outside.

(** Characters with a meaning of their own that the fragment leaves out, and
    bytes that are not ASCII. *)
Definition unmodelled (c : ascii) : bool :=
  (Ascii.eqb c "." || Ascii.eqb c "[" || Ascii.eqb c "]" || Ascii.eqb c "{"
   || Ascii.eqb c "}" || Ascii.eqb c "\" || (127 <? N_of_ascii c)%N)%bool.

Definition is_repeat (c : ascii) : bool :=
  (Ascii.eqb c "*" || Ascii.eqb c "+" || Ascii.eqb c "?")%bool.

Definition repeat_of (c : ascii) (r : Re) : Re :=
  if Ascii.eqb c "*" then OpStar r
  else if Ascii.eqb c "+" then OpPlus r
  else OpQuest r.

(** The repetition operators after an operand: at most one, with an optional
    [?] after it; a second one is "invalid nested repetition operator". *)
Definition parse_repeat (r : Re) (s : list ascii) : parsed :=
  match s with
  | c :: s1 =>
      if is_repeat c then
        let s2 := match s1 with
                  | q :: s2 => if Ascii.eqb q "?" then s2 else s1
                  | [] => s1
                  end in
        match s2 with
        | c2 :: _ => if is_repeat c2 then Invalid else Parsed (repeat_of c r) s2
        | [] => Parsed (repeat_of c r) s2
        end
      else Parsed r s
  | [] => Parsed r s
  end.

(** Alternations, concatenations and operands by recursive descent.  The
    fuel bounds the depth of the descent; [Parse] gives enough of it. *)
Fixpoint parse_alternate (fuel : nat) (s : list ascii) : parsed :=
  match fuel with
  | O => Outside
  | S fuel =>
      match parse_concat fuel s with
      | Parsed r ("|"%char :: rest) =>
          match parse_alternate fuel rest with
          | Parsed r' rest' => Parsed (OpAlternate r r') rest'
          | other => other
          end
      | other => other
      end
  end
with parse_concat (fuel : nat) (s : list ascii) : parsed :=
  match fuel with
  | O => Outside
  | S fuel =>
      match s with
      | [] => Parsed OpEmptyMatch s
      | c :: _ =>
          if (Ascii.eqb c "|" || Ascii.eqb c ")")%bool then Parsed OpEmptyMatch s
          else
            match parse_operand fuel s with
            | Parsed r rest =>
                match rest with
                | [] => Parsed r rest
                | c' :: _ =>
                    if (Ascii.eqb c' "|" || Ascii.eqb c' ")")%bool then Parsed r rest
                    else
                      match parse_concat fuel rest with
                      | Parsed r' rest' => Parsed (OpConcat r r') rest'
                      | other => other
                      end
                end
            | other => other
            end
      end
  end
with parse_operand (fuel : nat) (s : list ascii) : parsed :=
  match fuel with
  | O => Outside
  | S fuel =>
      match s with
      | [] => Invalid
      | c :: rest =>
          if unmodelled c then Outside
          else if is_repeat c then Invalid
          else if Ascii.eqb c "(" then
            match rest with
            | "?"%char :: _ => Outside
            | _ =>
                match parse_alternate fuel rest with
                | Parsed r (")"%char :: rest') => parse_repeat (OpCapture r) rest'
                | Parsed _ _ => Invalid
                | other => other
                end
            end
          else if (Ascii.eqb c "^" || Ascii.eqb c "$")%bool then
            match rest with
            | c' :: _ =>
                if is_repeat c' then Outside
                else Parsed (if Ascii.eqb c "^" then OpBeginText else OpEndText) rest
            | [] => Parsed (if Ascii.eqb c "^" then OpBeginText else OpEndText) rest
            end
          else parse_repeat (OpLiteral c) rest
      end
  end.

(** A whole expression; a closing parenthesis left over is "unexpected )". *)
Definition Parse (expr : string) : parsed :=
  let s := list_ascii_of_string expr in
  match parse_alternate (3 * List.length s + 3) s with
  | Parsed r [] => Parsed r []
  | Parsed _ _ => Invalid
  | other => other
  end.

(** Repetition: zero or more matches of the operand, each of which consumes
    input ([fuel] is the length of the input left). *)
Fixpoint star_loop (step : (bool -> list ascii -> bool) -> bool -> list ascii -> bool)
    (k : bool -> list ascii -> bool) (fuel : nat) (at_start : bool) (s : list ascii) : bool :=
  k at_start s
  || match fuel with
     | O => false
     | S fuel =>
         step (fun b s' => (List.length s' <? List.length s)%nat && star_loop step k fuel b s')
              at_start s
     end.

(** [matches r k at_start s]: some match of [r] at the start of [s] leaves a
    rest that [k] accepts; [at_start] says that [s] is the whole text. *)
Fixpoint matches (r : Re) (k : bool -> list ascii -> bool) (at_start : bool) (s : list ascii)
  : bool :=
  match r with
  | OpEmptyMatch => k at_start s
  | OpLiteral c =>
      match s with
      | x :: s' => Ascii.eqb x c && k false s'
      | [] => false
      end
  | OpBeginText => at_start && k at_start s
  | OpEndText => match s with [] => k at_start s | _ :: _ => false end
  | OpCapture r1 => matches r1 k at_start s
  | OpStar r1 => star_loop (matches r1) k (List.length s) at_start s
  | OpPlus r1 =>
      matches r1 (fun b s' => star_loop (matches r1) k (List.length s') b s') at_start s
  | OpQuest r1 => k at_start s || matches r1 k at_start s
  | OpConcat r1 r2 => matches r1 (matches r2 k) at_start s
  | OpAlternate r1 r2 => matches r1 k at_start s || matches r2 k at_start s
  end.

(** A match starting at some position of the text. *)
Fixpoint search (r : Re) (at_start : bool) (s : list ascii) : bool :=
  matches r (fun _ _ => true) at_start s
  || match s with
     | [] => false
     | _ :: s' => search r false s'
     end.

Definition MatchString (r : Re) (s : string) : bool :=
  search r true (list_ascii_of_string s).

(** The fragment as an engine.  It is meant for expressions of the fragment;
    one outside of it is refused like an invalid one. *)
Definition Compile (expr : string) : Re + error :=
  match Parse expr with
  | Parsed r _ => inl r
  | Invalid | Outside => inr (SyntaxError expr)
  end.

Definition engine : RegexpEngine :=
  Build_RegexpEngine Re Compile MatchString.

End syntax.

(** ** The pool of goroutines

    [Recursive] starts [concurrency] goroutines that receive from the
    channel [work], runs [recurse] on its own goroutine, closes the channel
    and waits.  The interleaving is a schedule: the list of the goroutines
    that take the next step.  A call of [IfSmallerBuffer] is one step. *)

(** Where a goroutine started by [Recursive] stands.  [n] is the count of
    its call of [worker], kept after the call has returned. *)
Inductive goroutine : Type :=
  | Working (n : Z) (out : list byte)
  | Returned (n : Z) (err : option error)
  | Publishing (n : Z) (err : error)
  | Purging (n : Z)
  | Finished (n : Z).

Inductive actor : Type :=
  | Main
  | Go (i : nat).

(** What the goroutines did, oldest first: a call of [IfSmallerBuffer] for a
    path received with its result, and a [CompareAndSwap] on [firstErr]. *)
Inductive event : Type :=
  | Invoked (i : nat) (s : string) (changed : bool) (err : option error)
  | Published (i : nat) (err : error).

(** [unsent] are the paths [recurse] has still to send and [walk_err] the
    error it returns after the last of them; [closed] says that [work] is
    closed, [work] holds the paths sent and not yet received, and [cap] is
    its capacity.  [total] and [firstErr] are the atomic cells, [disk] the
    file system and [history] the events so far. *)
Record Pool : Type := {
  unsent : list string;
  walk_err : option error;
  closed : bool;
  work : list string;
  cap : Z;
  routines : list goroutine;
  total : Z;
  firstErr : option error;
  disk : FS;
  history : list event
}.

Definition returned_count (g : goroutine) : Z :=
  match g with
  | Working n _ | Returned n _ | Publishing n _ | Purging n | Finished n => n
  end.

Definition is_finished (g : goroutine) : bool :=
  match g with Finished _ => true | _ => false end.

Section Orchestrator.

Context (gz : Encoder) (re : RegexpEngine).
Context (root : string) (m : Z) (ignore : Regexp re).

(** A step of the goroutine that called [Recursive]: a send on [work] when
    the buffer has room, then [close(work)]. *)
Definition step_main (p : Pool) : option Pool :=
  match unsent p with
  | s :: rest =>
      if closed p then None
      else if Z.of_nat (length (work p)) <? cap p then
        Some {| unsent := rest; walk_err := walk_err p; closed := closed p;
                work := (work p ++ [s])%list; cap := cap p; routines := routines p;
                total := total p; firstErr := firstErr p; disk := disk p;
                history := history p |}
      else None
  | [] =>
      if closed p then None
      else
        Some {| unsent := []; walk_err := walk_err p; closed := true;
                work := work p; cap := cap p; routines := routines p;
                total := total p; firstErr := firstErr p; disk := disk p;
                history := history p |}
  end.

Definition set_routine (i : nat) (g : goroutine) (p : Pool) : Pool :=
  {| unsent := unsent p; walk_err := walk_err p; closed := closed p;
     work := work p; cap := cap p; routines := <[i := g]> (routines p);
     total := total p; firstErr := firstErr p; disk := disk p;
     history := history p |}.

(** A step of the [i]-th goroutine started by [Recursive]:
    - in [worker]: receive a path and run the body of the loop on it, or
      leave the loop when [work] is closed and empty;
    - [total.Add(n)];
    - [firstErr.CompareAndSwap(nil, &err)] when [err != nil];
    - in [for range work]: drop a path, or leave when [work] is closed and
      empty, which is followed by [wg.Done()]. *)
Definition step_go (i : nat) (p : Pool) : option Pool :=
  match routines p !! i with
  | Some (Working n out) =>
      match work p with
      | s :: rest =>
          let '(fs, out', fl) := worker_body gz re root m ignore s n out (disk p) in
          let ev :=
            if MatchString re ignore s then []
            else
              let r := snd (IfSmallerBuffer gz (filepath_Join [root; s]) m out (disk p)) in
              [Invoked i s (fst r) (snd r)] in
          Some {| unsent := unsent p; walk_err := walk_err p; closed := closed p;
                  work := rest; cap := cap p;
                  routines := <[i := match fl with
                                     | Continue n' => Working n' out'
                                     | Return n' err => Returned n' (Some err)
                                     end]> (routines p);
                  total := total p; firstErr := firstErr p; disk := fs;
                  history := (history p ++ ev)%list |}
      | [] =>
          if closed p then Some (set_routine i (Returned n None) p) else None
      end
  | Some (Returned n err) =>
      Some {| unsent := unsent p; walk_err := walk_err p; closed := closed p;
              work := work p; cap := cap p;
              routines := <[i := match err with
                                 | Some e => Publishing n e
                                 | None => Purging n
                                 end]> (routines p);
              total := wrap64 (total p + n); firstErr := firstErr p; disk := disk p;
              history := history p |}
  | Some (Publishing n err) =>
      Some {| unsent := unsent p; walk_err := walk_err p; closed := closed p;
              work := work p; cap := cap p;
              routines := <[i := Purging n]> (routines p);
              total := total p;
              firstErr := match firstErr p with None => Some err | Some e => Some e end;
              disk := disk p;
              history := (history p ++ [Published i err])%list |}
  | Some (Purging n) =>
      match work p with
      | _ :: rest =>
          Some {| unsent := unsent p; walk_err := walk_err p; closed := closed p;
                  work := rest; cap := cap p; routines := routines p;
                  total := total p; firstErr := firstErr p; disk := disk p;
                  history := history p |}
      | [] =>
          if closed p then Some (set_routine i (Finished n) p) else None
      end
  | Some (Finished _) | None => None
  end.

Definition step (a : actor) (p : Pool) : option Pool :=
  match a with
  | Main => step_main p
  | Go i => step_go i p
  end.

(** The pool under a schedule; a goroutine that is blocked or gone when its
    turn comes does nothing. *)
Fixpoint run (schedule : list actor) (p : Pool) : Pool :=
  match schedule with
  | [] => p
  | a :: later =>
      match step a p with
      | Some p' => run later p'
      | None => run later p
      end
  end.

(** What [Recursive] returns once [wg.Wait()] has returned: the total, and
    the error of [recurse] or else the one in [firstErr]. *)
Definition outcome (p : Pool) : option (Z * option error) :=
  if closed p && forallb is_finished (routines p) then
    Some (total p, match walk_err p with Some e => Some e | None => firstErr p end)
  else None.

End Orchestrator.

Section Entry.

Context (gz : Encoder) (re : RegexpEngine).

(** The pool when [make] has returned the channel, the goroutines have been
    started and [recurse] is about to run on the tree [t] at [root]. *)
Definition start (concurrency : Z) (ignore : Regexp re) (t : Tree) (fs : FS) : Pool :=
  let walk := recurse re t "" ignore in
  {| unsent := fst walk; walk_err := snd walk; closed := false;
     work := []; cap := wrap64 (concurrency * 10);
     routines := replicate (Z.to_nat concurrency) (Working 0 []);
     total := 0; firstErr := None; disk := fs; history := [] |}.

(** [func Recursive(root string, m time.Time, concurrency int, ignorePattern []string) (int64, error)]
    under a schedule, on the tree [t] at [root] and the file system [fs].
    [None] says that [Recursive] does not return: [make] panics, which it
    does for a negative capacity, or the schedule ends before [Recursive]
    returns. *)
Definition Recursive (schedule : list actor) (root : string) (m : Z) (concurrency : Z)
    (ignorePattern : list string) (t : Tree) (fs : FS) : option (FS * (Z * option error)) :=
  match Compile re ("^" +:+ strings_Join ignorePattern "|" +:+ "$") with
  | inr err => Some (fs, (0, Some err))
  | inl ignore =>
      if wrap64 (concurrency * 10) <? 0 then None
      else
        let p := run gz re root m ignore schedule (start concurrency ignore t fs) in
        match outcome p with
        | Some r => Some (disk p, r)
        | None => None
        end
  end.

End Entry.

(** * The vocabulary of the properties *)

(** ** Sizes *)

(** The number of bytes in a sequence of slices. *)
Definition total_len (chunks : list (list byte)) : Z :=
  Z.of_nat (length (concat chunks)).

(** ** Names and paths *)

(** The names of a listing in increasing order, as [os.ReadDir] returns
    them. *)
Fixpoint sorted_names (names : list string) : bool :=
  match names with
  | x :: rest =>
      match rest with
      | y :: _ => String.ltb x y && sorted_names rest
      | [] => true
      end
  | [] => true
  end.

(** The string holds a separator. *)
Fixpoint has_slash (s : string) : bool :=
  match s with
  | EmptyString => false
  | String c s' => Ascii.eqb c "/" || has_slash s'
  end.

(** A name as a directory entry can have it: not empty, not [.] or [..],
    and without a separator. *)
Definition valid_name (s : string) : bool :=
  negb (s =? "")%string && negb (s =? ".")%string && negb (s =? "..")%string
  && negb (has_slash s).

(** The relative path with the elements [comps]. *)
Definition path_of (comps : list string) : string := String.concat "/" comps.

(** A tree as the file system presents it: in every directory the names are
    names of entries, in increasing order. *)
Fixpoint well_formed (t : Tree) : bool :=
  match t with
  | Directory dirs =>
      forallb valid_name (map fst dirs) && sorted_names (map fst dirs)
      && forallb (fun e => well_formed (snd e)) dirs
  | _ => true
  end.

(** Names of entries are not empty. *)
Fixpoint nonempty_names (t : Tree) : bool :=
  match t with
  | Directory dirs =>
      forallb (fun e => negb (fst e =? "")%string && nonempty_names (snd e)) dirs
  | _ => true
  end.

(** ** The ignore pattern *)

(** The pattern of [Recursive] applied to a path, on the fragment of
    [regexp]: the fragments joined by [|] between [^] and [$]. *)
Definition ignored (ignorePattern : list string) (path : string) : bool :=
  match syntax.Compile ("^" +:+ strings_Join ignorePattern "|" +:+ "$") with
  | inl ignore => syntax.MatchString ignore path
  | inr _ => false
  end.

(** The reading of the specification: a path is ignored when one of the
    fragments, as a whole, matches the entire path. *)
Definition some_fragment_matches_whole (ignorePattern : list string) (path : string) : bool :=
  existsb (fun fragment =>
             match syntax.Compile ("^(" +:+ fragment +:+ ")$") with
             | inl r => syntax.MatchString r path
             | inr _ => false
             end) ignorePattern.

(** An engine whose expressions match nothing. *)
Definition never_engine : RegexpEngine :=
  {| Regexp := unit; Compile := fun _ => inl tt; MatchString := fun _ _ => false |}.

(** ** Operations of a call *)

(** The operations a call of [IfSmallerBuffer] on [path] may attempt: on
    the file itself, on the temporary file, and the rename to the
    artifact. *)
Definition concerns (path : string) (op : fsop) : Prop :=
  match op with
  | OpStat p | OpOpen p | OpRead p => p = path
  | OpChtimes p _ => p = path \/ p = path +:+ ".gz~"
  | OpWriteFile p _ _ => p = path +:+ ".gz~"
  | OpRename p q => p = path +:+ ".gz~" /\ q = path +:+ ".gz"
  end.

(** ** The history of a run *)

(** The number of calls by goroutine [i] that reported a change. *)
Fixpoint changed_by (i : nat) (h : list event) : nat :=
  match h with
  | [] => O
  | Invoked j _ true _ :: rest => ((if Nat.eqb i j then 1 else 0) + changed_by i rest)%nat
  | _ :: rest => changed_by i rest
  end.

(** The error of the first [CompareAndSwap]. *)
Fixpoint first_published (h : list event) : option error :=
  match h with
  | [] => None
  | Published _ e :: _ => Some e
  | _ :: rest => first_published rest
  end.

(** Goroutine [i] had a call fail. *)
Definition failed_by (i : nat) (h : list event) : bool :=
  existsb (fun ev => match ev with
                     | Invoked j _ _ (Some _) => Nat.eqb i j
                     | _ => false
                     end) h.

(** After a call of a goroutine failed, that goroutine made no further
    call. *)
Definition stops_after_failure (h : list event) : Prop :=
  forall h1 i s c e h2,
    h = (h1 ++ Invoked i s c (Some e) :: h2)%list ->
    forall s' c' e', ~ In (Invoked i s' c' e') h2.

(** The number of calls of the compressor. *)
Fixpoint count_invoked (h : list event) : nat :=
  match h with
  | [] => O
  | Invoked _ _ _ _ :: rest => S (count_invoked rest)
  | Published _ _ :: rest => count_invoked rest
  end.

(** The sum of a list of integers. *)
Definition sumZ (l : list Z) : Z := foldr Z.add 0 l.

(** The count of a goroutine once it has been added to [total]. *)
Definition added_count (g : goroutine) : Z :=
  match g with
  | Publishing n _ | Purging n | Finished n => n
  | Working _ _ | Returned _ _ => 0
  end.

(** An error that a goroutine holds or has published is the error of a call
    of its own. *)
Record errors_ok (p : Pool) : Prop := {
  eo_pending : forall i n e,
    routines p !! i = Some (Returned n (Some e)) \/ routines p !! i = Some (Publishing n e) ->
    exists s, In (Invoked i s false (Some e)) (history p);
  eo_published : forall i e,
    In (Published i e) (history p) ->
    exists s, In (Invoked i s false (Some e)) (history p)
}.




(** ** The steps of the pool *)

Section Steps.

Context (gz : Encoder) (re : RegexpEngine).
Context (root : string) (m : Z) (ignore : Regexp re).
Context (items0 : list string) (fs0 : FS).

(** What holds of the pool at every moment of a run that started with
    [items0] to send and the file system [fs0]. *)
Record pool_ok (p : Pool) : Prop := {
  ok_counts : forall i g,
    routines p !! i = Some g ->
    returned_count g = wrap64 (Z.of_nat (changed_by i (history p)));
  ok_total : total p = wrap64 (sumZ (map added_count (routines p)));
  ok_first : firstErr p = first_published (history p);
  ok_working : forall i n out,
    routines p !! i = Some (Working n out) -> failed_by i (history p) = false;
  ok_stops : stops_after_failure (history p);
  ok_queue : forall s, In s (unsent p ++ work p) -> In s items0;
  ok_invoked : forall i s c e,
    In (Invoked i s c e) (history p) ->
    In s items0 /\ MatchString re ignore s = false;
  ok_log : forall op,
    In op (oplog (disk p)) ->
    In op (oplog fs0)
    \/ exists i s c e,
         In (Invoked i s c e) (history p) /\ concerns (filepath_Join [root; s]) op;
  ok_budget :
    (count_invoked (history p) + length (work p) + length (unsent p) <= length items0)%nat;
  ok_finished : forall i n,
    routines p !! i = Some (Finished n) -> closed p = true /\ work p = []
}.

(** The outcome of the turn of the loop of [worker] in which goroutine [i]
    with count [n] receives [s]: where the goroutine stands afterwards, the
    event recorded and the file system. *)
Inductive turn (i : nat) (n : Z) (out : list byte) (s : string) (fs : FS)
  : goroutine -> list event -> FS -> Prop :=
  | turn_ignored :
      MatchString re ignore s = true ->
      turn i n out s fs (Working n out) [] fs
  | turn_unchanged fs' out' :
      MatchString re ignore s = false ->
      IfSmallerBuffer gz (filepath_Join [root; s]) m out fs = (fs', out', (false, None)) ->
      turn i n out s fs (Working n out') [Invoked i s false None] fs'
  | turn_changed fs' out' :
      MatchString re ignore s = false ->
      IfSmallerBuffer gz (filepath_Join [root; s]) m out fs = (fs', out', (true, None)) ->
      turn i n out s fs (Working (wrap64 (n + 1)) out') [Invoked i s true None] fs'
  | turn_failed fs' out' err :
      MatchString re ignore s = false ->
      IfSmallerBuffer gz (filepath_Join [root; s]) m out fs = (fs', out', (false, Some err)) ->
      turn i n out s fs (Returned n (Some err)) [Invoked i s false (Some err)] fs'.

(** The steps of the pool, one constructor for each. *)
Inductive transition (p : Pool) : Pool -> Prop :=
  | tr_send s rest :
      unsent p = s :: rest -> closed p = false ->
      Z.of_nat (length (work p)) < cap p ->
      transition p (Build_Pool rest (walk_err p) false (work p ++ [s]) (cap p)
                      (routines p) (total p) (firstErr p) (disk p) (history p))
  | tr_close :
      unsent p = [] -> closed p = false ->
      transition p (Build_Pool [] (walk_err p) true (work p) (cap p)
                      (routines p) (total p) (firstErr p) (disk p) (history p))
  | tr_receive i n out s rest g ev fs' :
      routines p !! i = Some (Working n out) -> work p = s :: rest ->
      turn i n out s (disk p) g ev fs' ->
      transition p (Build_Pool (unsent p) (walk_err p) (closed p) rest (cap p)
                      (<[i := g]> (routines p)) (total p) (firstErr p) fs'
                      (history p ++ ev))
  | tr_return i n out :
      routines p !! i = Some (Working n out) -> work p = [] -> closed p = true ->
      transition p (Build_Pool (unsent p) (walk_err p) true [] (cap p)
                      (<[i := Returned n None]> (routines p)) (total p) (firstErr p)
                      (disk p) (history p))
  | tr_add i n err :
      routines p !! i = Some (Returned n err) ->
      transition p (Build_Pool (unsent p) (walk_err p) (closed p) (work p) (cap p)
                      (<[i := match err with
                              | Some e => Publishing n e
                              | None => Purging n
                              end]> (routines p))
                      (wrap64 (total p + n)) (firstErr p) (disk p) (history p))
  | tr_publish i n err :
      routines p !! i = Some (Publishing n err) ->
      transition p (Build_Pool (unsent p) (walk_err p) (closed p) (work p) (cap p)
                      (<[i := Purging n]> (routines p)) (total p)
                      (match firstErr p with None => Some err | Some e => Some e end)
                      (disk p) (history p ++ [Published i err]))
  | tr_purge i n s rest :
      routines p !! i = Some (Purging n) -> work p = s :: rest ->
      transition p (Build_Pool (unsent p) (walk_err p) (closed p) rest (cap p)
                      (routines p) (total p) (firstErr p) (disk p) (history p))
  | tr_finish i n :
      routines p !! i = Some (Purging n) -> work p = [] -> closed p = true ->
      transition p (Build_Pool (unsent p) (walk_err p) true [] (cap p)
                      (<[i := Finished n]> (routines p)) (total p) (firstErr p)
                      (disk p) (history p)).

End Steps.

(** ** Files *)

(** The file [f] once [os.Chtimes] was called on it with [m]: it has the
    modification time [m], or keeps its own when [m] is the zero time. *)
Definition touched (m : Z) (f : File) : File :=
  {| Data := Data f; ModTime := if time_IsZero m then ModTime f else m; Perm := Perm f |}.

(** The two file systems differ in their files and logs at most. *)
Definition same_env (fs fs' : FS) : Prop :=
  faulty fs' = faulty fs /\ fail_read fs' = fail_read fs /\ fail_write fs' = fail_write fs
  /\ umask fs' = umask fs /\ clock fs' = clock fs.

(** ** What the walk reaches *)

(** In the tree [t] at the relative path [comps], the names [cs] lead
    through directories that the pattern does not match to a regular entry
    that is no artifact and has no artifact next to it. *)
Fixpoint candidate (re : RegexpEngine) (ignore : Regexp re) (t : Tree)
    (comps cs : list string) {struct cs} : Prop :=
  match cs with
  | [] => False
  | name :: rest =>
      exists dirs d,
        t = Directory dirs /\ In (name, d) dirs
        /\ match rest with
           | [] =>
               d = Regular /\ strings_HasSuffix name ".gz" = false
               /\ ~ In (name +:+ ".gz") (map fst dirs)
           | _ :: _ =>
               IsDir d = true
               /\ MatchString re ignore (path_of (comps ++ [name])) = false
               /\ candidate re ignore d (comps ++ [name]) rest
           end
  end.

(** In the tree [t] at the relative path [comps], the names [cs] lead
    through directories that the pattern does not match to a directory
    that cannot be listed, with the error [e]. *)
Fixpoint blocked (re : RegexpEngine) (ignore : Regexp re) (t : Tree)
    (comps cs : list string) (e : error) {struct cs} : Prop :=
  match cs with
  | [] => t = Unreadable e
  | name :: rest =>
      exists dirs d,
        t = Directory dirs /\ In (name, d) dirs /\ IsDir d = true
        /\ MatchString re ignore (path_of (comps ++ [name])) = false
        /\ blocked re ignore d (comps ++ [name]) rest e
  end.

(** ** The calls of a run *)

(** The paths of the calls, oldest first. *)
Fixpoint invoked_paths (h : list event) : list string :=
  match h with
  | [] => []
  | Invoked _ s _ _ :: rest => s :: invoked_paths rest
  | Published _ _ :: rest => invoked_paths rest
  end.

(** Some call has failed. *)
Definition any_failed (h : list event) : bool :=
  existsb (fun ev => match ev with
                     | Invoked _ _ _ (Some _) => true
                     | _ => false
                     end) h.

(** The paths among [items] that the pattern does not match. *)
Definition unignored (re : RegexpEngine) (ignore : Regexp re) (items : list string)
  : list string :=
  List.filter (fun s => negb (MatchString re ignore s)) items.

Section Serving.

Context (re : RegexpEngine) (ignore : Regexp re) (items0 : list string).

(** What holds of the queue at every moment of a run: as long as no call
    has failed, the calls made are those for the paths sent that the
    pattern does not match, in the order sent. *)
Record served_ok (p : Pool) : Prop := {
  so_closed : closed p = true -> unsent p = [];
  so_calm : forall i n,
    routines p !! i = Some (Returned n None) -> closed p = true /\ work p = [];
  so_failed : forall i n e,
    routines p !! i = Some (Returned n (Some e)) \/ routines p !! i = Some (Publishing n e) ->
    any_failed (history p) = true;
  so_purging : forall i n,
    routines p !! i = Some (Purging n) \/ routines p !! i = Some (Finished n) ->
    any_failed (history p) = true \/ (closed p = true /\ work p = []);
  so_served :
    any_failed (history p) = false ->
    unignored re ignore items0
    = (invoked_paths (history p) ++ unignored re ignore (work p ++ unsent p))%list;
  so_told :
    any_failed (history p) = true ->
    first_published (history p) <> None
    \/ exists i n e,
         routines p !! i = Some (Returned n (Some e))
         \/ routines p !! i = Some (Publishing n e)
}.

End Serving.

(** ** A run with a single goroutine *)

Section Single.

Context (gz : Encoder) (re : RegexpEngine).
Context (root : string) (m : Z) (ignore : Regexp re).
Context (R : FS * (Z * option error)).

(** With a single goroutine: what is left of the run leads to the result
    [R] of the loop of [worker] on all the paths. *)
Definition single_ok (p : Pool) : Prop :=
  (closed p = true -> unsent p = [])
  /\ match routines p with
     | [Working n out] =>
         worker_loop gz re root m ignore (work p ++ unsent p) n out (disk p) = R
         /\ total p = 0 /\ firstErr p = None /\ - 2 ^ 63 <= n < 2 ^ 63
     | [Returned n err] =>
         R = (disk p, (n, err)) /\ total p = 0 /\ firstErr p = None
         /\ - 2 ^ 63 <= n < 2 ^ 63
     | [Publishing n e] => R = (disk p, (n, Some e)) /\ total p = n /\ firstErr p = None
     | [Purging n] | [Finished n] => R = (disk p, (n, firstErr p)) /\ total p = n
     | _ => False
     end.

End Single.

(** ** Fragments that are names *)

(** A character that stands for itself in an expression of the fragment. *)
Definition plain (c : ascii) : bool :=
  negb (syntax.unmodelled c || syntax.is_repeat c || Ascii.eqb c "(" || Ascii.eqb c ")"
        || Ascii.eqb c "^" || Ascii.eqb c "$" || Ascii.eqb c "|").

(** A fragment that is a name written out: not empty, plain characters
    only. *)
Definition literal (f : string) : bool :=
  negb (f =? "")%string && forallb plain (list_ascii_of_string f).

(** The concatenation and the alternation of expressions, nested as the
    parser nests them. *)
Fixpoint seq_re (rs : list syntax.Re) : syntax.Re :=
  match rs with
  | [] => syntax.OpEmptyMatch
  | r :: rest =>
      match rest with
      | [] => r
      | _ :: _ => syntax.OpConcat r (seq_re rest)
      end
  end.

Fixpoint alt_re (rs : list syntax.Re) : syntax.Re :=
  match rs with
  | [] => syntax.OpEmptyMatch
  | r :: rest =>
      match rest with
      | [] => r
      | _ :: _ => syntax.OpAlternate r (alt_re rest)
      end
  end.

(** What a character that is plain, [^] or [$] is parsed to. *)
Definition atom_of (c : ascii) : syntax.Re :=
  if Ascii.eqb c "^" then syntax.OpBeginText
  else if Ascii.eqb c "$" then syntax.OpEndText
  else syntax.OpLiteral c.

Definition atom_char (c : ascii) : bool :=
  plain c || Ascii.eqb c "^" || Ascii.eqb c "$".

(** The input left when an atom has been read does not start with a
    repetition. *)
Definition no_repeat_head (s : list ascii) : Prop :=
  match s with
  | c :: _ => syntax.is_repeat c = false
  | [] => True
  end.

(** The input left when a concatenation has been read is empty or starts
    with [|]. *)
Definition terminated (s : list ascii) : Prop :=
  match s with
  | c :: _ => c = "|"%char
  | [] => True
  end.

(** The fragments, each a list of characters, joined by [|]. *)
Fixpoint join_bar (ls : list (list ascii)) : list ascii :=
  match ls with
  | [] => []
  | l :: rest =>
      match rest with
      | [] => l
      | _ :: _ => (l ++ "|"%char :: join_bar rest)%list
      end
  end.

(** * Sample data

    A toy encoder, small file systems and trees on which the definitions
    above are run. *)

(** Drops every byte that repeats the one before it. *)
Fixpoint squeeze (p : list byte) : list byte :=
  match p with
  | [] => []
  | x :: rest =>
      match rest with
      | y :: _ => if Byte.eqb x y then squeeze rest else x :: squeeze rest
      | [] => [x]
      end
  end.

(** An encoder in the manner of [gzip]: a header before the first bytes, the
    squeezed input, and a trailer on [Close]. *)
Definition toy_encoder (header trailer : list byte) : Encoder :=
  {| emit_write := fun consumed p =>
       (match consumed with [] => [header; squeeze p] | _ => [squeeze p] end, None);
     emit_close := fun consumed =>
       (match consumed with [] => [header; trailer] | _ => [trailer] end, None) |}.

Definition toy_gzip : Encoder := toy_encoder [x1f; x8b] [x00].

Definition no_fault (op : fsop) : bool := false.

Definition sample_file (data : list byte) : File :=
  {| Data := data; ModTime := 5; Perm := 420 |}.

(** The time goes on by one with every operation. *)
Definition sample_clock (k : nat) : Z := 100 + Z.of_nat k.

Definition sample_fs (content : list (string * File)) : FS :=
  {| files := list_to_map content; faulty := no_fault; fail_read := fun _ => None;
     fail_write := fun _ => None; umask := 18; clock := sample_clock; oplog := [] |}.

(** A tree with a compressible file, a file that is missing from the file
    system when it is compressed, and a directory; the schedule lets the
    first goroutine compress [a] and the second one fail on [c]. *)
Definition sample_tree : Tree :=
  Directory [("a", Regular); ("c", Regular); ("d", Directory [("e", Regular)])].

Definition sample_disk : FS :=
  sample_fs [("/r/a", sample_file [x61; x61; x61; x61; x61; x61; x61; x61]);
             ("/r/d/e", sample_file [x61; x62])].

Definition sample_schedule : list actor :=
  [Main; Main; Main; Main; Go 0; Go 1; Go 1; Go 1; Go 1; Go 1; Go 0; Go 0; Go 0; Go 0].

(** The expression [^$], which [Recursive] compiles from no fragment. *)
Definition ignore_nothing : syntax.Re := syntax.OpConcat syntax.OpBeginText syntax.OpEndText.

Definition sample_pool : Pool :=
  run toy_gzip syntax.engine "/r" 7 ignore_nothing sample_schedule
      (start syntax.engine 2 ignore_nothing sample_tree sample_disk).

(** The expression [^d$], compiled from the fragment [d], and the run of the
    same schedule with it. *)
Definition ignore_d : syntax.Re :=
  syntax.OpConcat syntax.OpBeginText (syntax.OpConcat (syntax.OpLiteral "d") syntax.OpEndText).

Definition sample_pool_ignoring : Pool :=
  run toy_gzip syntax.engine "/r" 7 ignore_d sample_schedule
      (start syntax.engine 2 ignore_d sample_tree sample_disk).

(** A file system on which renaming fails. *)
Definition rename_fails (op : fsop) : bool :=
  match op with OpRename _ _ => true | _ => false end.

Definition sample_fs_rename_fails : FS :=
  {| files := list_to_map [("/r/a", sample_file [x61; x61; x61; x61; x61; x61; x61; x61])];
     faulty := rename_fails; fail_read := fun _ => None;
     fail_write := fun _ => None; umask := 18; clock := sample_clock; oplog := [] |}.

(** A file system on which the disk is full after two bytes of the
    temporary file of [/r/a]. *)
Definition sample_fs_disk_full : FS :=
  {| files := list_to_map [("/r/a", sample_file [x61; x61; x61; x61; x61; x61; x61; x61])];
     faulty := no_fault;
     fail_read := fun _ => None;
     fail_write := fun name => if String.eqb name "/r/a.gz~" then Some 2%nat else None;
     umask := 18; clock := sample_clock; oplog := [] |}.

(** A file system in which a file is where the temporary file of [/r/a]
    goes. *)
Definition sample_disk_tmp : FS :=
  sample_fs [("/r/a", sample_file [x61; x61; x61; x61; x61; x61; x61; x61]);
             ("/r/a.gz~", {| Data := [x62]; ModTime := 3; Perm := 384 |})].

(** A file system whose file [/r/a] every user may write, with the mask
    [022] of [sample_fs]. *)
Definition sample_disk_open : FS :=
  sample_fs [("/r/a", {| Data := [x61; x61; x61; x61; x61; x61; x61; x61];
                         ModTime := 5; Perm := 438 |})].

Definition sample_schedule_single : list actor :=
  [Main; Main; Main; Main; Go 0; Go 0; Go 0; Go 0; Go 0; Go 0; Go 0].

(** A tree whose files are all in [sample_disk], and a schedule that lets
    each of two goroutines compress one of them. *)
Definition sample_tree_present : Tree :=
  Directory [("a", Regular); ("d", Directory [("e", Regular)])].

Definition sample_schedule_present : list actor :=
  [Main; Main; Main; Go 0; Go 1; Go 0; Go 0; Go 0; Go 1; Go 1; Go 1].

(** A tree with a directory that cannot be listed. *)
Definition sample_tree_locked : Tree :=
  Directory [("a", Regular); ("locked", Unreadable (PathError "open" "/r/locked"))].

(** * Properties *)

(** ** Machine integers *)

Lemma wrap64_small z : - 2 ^ 63 <= z < 2 ^ 63 -> wrap64 z = z.
Proof.
  intros H. unfold wrap64.
  rewrite Z.mod_small by lia. lia.
Qed.

Lemma wrap64_range z : - 2 ^ 63 <= wrap64 z < 2 ^ 63.
Proof.
  unfold wrap64.
  pose proof (Z.mod_pos_bound (z + 2 ^ 63) (2 ^ 64) ltac:(lia)). lia.
Qed.

Lemma wrap64_add_l a b : wrap64 (wrap64 a + b) = wrap64 (a + b).
Proof.
  unfold wrap64.
  replace ((a + 2 ^ 63) mod 2 ^ 64 - 2 ^ 63 + b + 2 ^ 63)
    with ((a + 2 ^ 63) mod 2 ^ 64 + b) by lia.
  rewrite Zplus_mod_idemp_l. f_equal. f_equal. lia.
Qed.

Lemma wrap64_add_r a b : wrap64 (a + wrap64 b) = wrap64 (a + b).
Proof. rewrite Z.add_comm, wrap64_add_l. f_equal. lia. Qed.

(** ** The size-capped writer *)

Lemma total_len_nil : total_len [] = 0.
Proof. reflexivity. Qed.

Lemma total_len_cons c chunks :
  total_len (c :: chunks) = Z.of_nat (length c) + total_len chunks.
Proof. unfold total_len. simpl. by rewrite length_app, Nat2Z.inj_add. Qed.

Lemma total_len_nonneg chunks : 0 <= total_len chunks.
Proof. unfold total_len. lia. Qed.

(** A write within the budget is accepted whole, also when it uses the
    budget up. *)
Lemma Write_within (l : limitedWriter.t) (p : list byte) :
  Z.of_nat (length p) <= limitedWriter.n l < 2 ^ 63 ->
  limitedWriter.Write l p =
    ({| limitedWriter.buf := limitedWriter.buf l ++ p;
        limitedWriter.n := limitedWriter.n l - Z.of_nat (length p) |},
     (Z.of_nat (length p), None)).
Proof.
  intros H. unfold limitedWriter.Write. cbn.
  rewrite wrap64_small by lia.
  destruct (Z.ltb_spec (limitedWriter.n l - Z.of_nat (length p)) 0); [lia | done].
Qed.

(** A write beyond the budget is refused, after its bytes went into the
    buffer. *)
Lemma Write_beyond (l : limitedWriter.t) (p : list byte) :
  0 <= limitedWriter.n l < Z.of_nat (length p) ->
  Z.of_nat (length p) <= 2 ^ 63 ->
  limitedWriter.Write l p =
    ({| limitedWriter.buf := limitedWriter.buf l ++ p;
        limitedWriter.n := limitedWriter.n l - Z.of_nat (length p) |},
     (0, Some errSizeThresholdExceeded)).
Proof.
  intros H Hp. unfold limitedWriter.Write. cbn.
  rewrite wrap64_small by lia.
  destruct (Z.ltb_spec (limitedWriter.n l - Z.of_nat (length p)) 0); [done | lia].
Qed.

(** The only error of the writer is the sentinel. *)
Lemma Write_error (l : limitedWriter.t) (p : list byte) l' k e :
  limitedWriter.Write l p = (l', (k, Some e)) -> e = errSizeThresholdExceeded.
Proof.
  unfold limitedWriter.Write.
  destruct (_ <? 0); intros H; by simplify_eq.
Qed.

Lemma write_all_error (l : limitedWriter.t) chunks l' e :
  write_all l chunks = (l', Some e) -> e = errSizeThresholdExceeded.
Proof.
  revert l. induction chunks as [|p rest IH]; intros l; simpl; [done|].
  destruct (limitedWriter.Write l p) as [l1 [k [e1|]]] eqn:Hw.
  - intros H. simplify_eq. eauto using Write_error.
  - eauto.
Qed.

Lemma write_all_within (l : limitedWriter.t) chunks :
  total_len chunks <= limitedWriter.n l < 2 ^ 63 ->
  write_all l chunks =
    ({| limitedWriter.buf := limitedWriter.buf l ++ concat chunks;
        limitedWriter.n := limitedWriter.n l - total_len chunks |}, None).
Proof.
  revert l. induction chunks as [|p rest IH]; intros l H.
  - simpl. rewrite total_len_nil, Z.sub_0_r, app_nil_r. by destruct l.
  - rewrite total_len_cons in H. pose proof (total_len_nonneg rest).
    simpl. rewrite Write_within by lia.
    rewrite IH by (cbn; lia). cbn.
    rewrite total_len_cons, <- app_assoc. do 2 f_equal. lia.
Qed.

Lemma write_all_app (l : limitedWriter.t) a b :
  write_all l (a ++ b) =
    match write_all l a with
    | (l', Some e) => (l', Some e)
    | (l', None) => write_all l' b
    end.
Proof.
  revert l. induction a as [|p rest IH]; intros l; simpl; [done|].
  destruct (limitedWriter.Write l p) as [l1 [k [e1|]]]; [done | apply IH].
Qed.

(** C3, claim as stated, refuted: a write that brings the bytes written to
    exactly the budget (here 3 bytes into a budget of 3) is accepted; it
    does not abort the compression. *)
Lemma Write_reaching_budget_is_accepted :
  limitedWriter.n {| limitedWriter.buf := []; limitedWriter.n := 3 |}
    - Z.of_nat (length [x61; x62; x63]) <= 0
  /\ limitedWriter.Write {| limitedWriter.buf := []; limitedWriter.n := 3 |} [x61; x62; x63]
     = ({| limitedWriter.buf := [x61; x62; x63]; limitedWriter.n := 0 |}, (3, None)).
Proof. split; [cbn; lia | reflexivity]. Qed.

(** C3, amended: while the slices of the encoder go into a writer with
    budget [n], all slices are accepted as long as the bytes written do not
    exceed [n] (reaching [n] is accepted); the first slice [c] that takes
    them beyond [n] is refused with [errSizeThresholdExceeded], after which
    no further slice is written. *)
Theorem write_all_aborts_beyond_budget
    (l : limitedWriter.t) (pre post : list (list byte)) (c : list byte) :
  0 <= limitedWriter.n l < 2 ^ 63 ->
  Z.of_nat (length c) <= 2 ^ 63 ->
  total_len pre <= limitedWriter.n l ->
  (limitedWriter.n l < total_len pre + Z.of_nat (length c) ->
   write_all l (pre ++ c :: post) =
     ({| limitedWriter.buf := limitedWriter.buf l ++ concat pre ++ c;
         limitedWriter.n := limitedWriter.n l - total_len pre - Z.of_nat (length c) |},
      Some errSizeThresholdExceeded))
  /\ (total_len pre + Z.of_nat (length c) <= limitedWriter.n l ->
      write_all l (pre ++ [c]) =
        ({| limitedWriter.buf := limitedWriter.buf l ++ concat pre ++ c;
            limitedWriter.n := limitedWriter.n l - total_len pre - Z.of_nat (length c) |},
         None)).
Proof.
  intros Hn Hc Hpre.
  pose proof (total_len_nonneg pre) as Hp0.
  split; intros H; rewrite write_all_app, write_all_within by lia.
  - simpl. rewrite Write_beyond by (cbn; lia). cbn.
    by rewrite <- app_assoc.
  - simpl. rewrite Write_within by (cbn; lia). cbn.
    by rewrite <- app_assoc.
Qed.

Lemma write_all_aborts_beyond_budget_witness :
  write_all {| limitedWriter.buf := []; limitedWriter.n := 3 |}
            ([[x61; x62]] ++ [x63; x64] :: [[x65]])
  = ({| limitedWriter.buf := [x61; x62; x63; x64]; limitedWriter.n := -1 |},
     Some errSizeThresholdExceeded)
  /\ write_all {| limitedWriter.buf := []; limitedWriter.n := 4 |}
               ([[x61; x62]] ++ [[x63; x64]])
     = ({| limitedWriter.buf := [x61; x62; x63; x64]; limitedWriter.n := 0 |}, None).
Proof.
  split.
  - apply (write_all_aborts_beyond_budget
             {| limitedWriter.buf := []; limitedWriter.n := 3 |}
             [[x61; x62]] [[x65]] [x63; x64]); unfold total_len; cbn; lia.
  - apply (write_all_aborts_beyond_budget
             {| limitedWriter.buf := []; limitedWriter.n := 4 |}
             [[x61; x62]] [] [x63; x64]); unfold total_len; cbn; lia.
Defined.

(** ** File operations *)

Lemma os_Stat_ok path fs fs' s :
  os_Stat path fs = (fs', inl s) ->
  fs' = record_op (OpStat path) fs /\ files fs !! path = Some s.
Proof.
  unfold os_Stat. cbn.
  destruct (faulty fs (OpStat path)); [done|].
  destruct (files fs !! path) eqn:E; intros H; by simplify_eq.
Qed.

Lemma os_Stat_log path fs fs' r :
  os_Stat path fs = (fs', r) -> fs' = record_op (OpStat path) fs.
Proof.
  unfold os_Stat. cbn.
  destruct (faulty fs (OpStat path)); [by intros; simplify_eq|].
  destruct (files fs !! path); intros; by simplify_eq.
Qed.

Lemma os_Open_ok path fs fs' f :
  os_Open path fs = (fs', inl f) ->
  fs' = record_op (OpOpen path) fs /\ files fs !! path = Some f.
Proof.
  unfold os_Open. cbn.
  destruct (faulty fs (OpOpen path)); [done|].
  destruct (files fs !! path) eqn:E; intros H; by simplify_eq.
Qed.

Lemma os_Open_log path fs fs' r :
  os_Open path fs = (fs', r) -> fs' = record_op (OpOpen path) fs.
Proof.
  unfold os_Open. cbn.
  destruct (faulty fs (OpOpen path)); [by intros; simplify_eq|].
  destruct (files fs !! path); intros; by simplify_eq.
Qed.

Lemma os_Chtimes_ok path m fs fs' :
  os_Chtimes path m fs = (fs', None) ->
  exists f, files fs !! path = Some f
    /\ fs' = set_files (<[path := {| Data := Data f;
                                     ModTime := if time_IsZero m then ModTime f else m;
                                     Perm := Perm f |}]> (files fs))
                       (record_op (OpChtimes path m) fs).
Proof.
  unfold os_Chtimes. cbn.
  destruct (faulty fs (OpChtimes path m)); [done|].
  destruct (files fs !! path) eqn:E; intros H; simplify_eq. eauto.
Qed.

Lemma os_Chtimes_failed path m fs fs' e :
  os_Chtimes path m fs = (fs', Some e) ->
  fs' = record_op (OpChtimes path m) fs /\ e = PathError "chtimes" path.
Proof.
  unfold os_Chtimes. cbn.
  destruct (faulty fs (OpChtimes path m)); [by intros; simplify_eq|].
  destruct (files fs !! path); intros; by simplify_eq.
Qed.

Lemma os_WriteFile_ok name data perm fs fs' :
  os_WriteFile name data perm fs = (fs', None) ->
  exists p,
    fs' = set_files (<[name := {| Data := data; ModTime := current_time fs; Perm := p |}]> (files fs))
                    (record_op (OpWriteFile name data perm) fs).
Proof.
  unfold os_WriteFile. cbn.
  destruct (faulty fs (OpWriteFile name data perm)); [done|].
  destruct (fail_write fs name); [done|].
  intros H. simplify_eq. eauto.
Qed.

(** A write that fails leaves the files as they were, or the file with a
    prefix of the bytes. *)
Lemma os_WriteFile_failed name data perm fs fs' e :
  os_WriteFile name data perm fs = (fs', Some e) ->
  (exists op, e = PathError op name)
  /\ (fs' = record_op (OpWriteFile name data perm) fs
      \/ exists k p,
           fs' = set_files (<[name := {| Data := take k data; ModTime := current_time fs;
                                         Perm := p |}]> (files fs))
                           (record_op (OpWriteFile name data perm) fs)).
Proof.
  unfold os_WriteFile. cbn.
  destruct (faulty fs (OpWriteFile name data perm)); [intros; simplify_eq; eauto|].
  destruct (fail_write fs name); intros; simplify_eq. eauto 10.
Qed.

Lemma os_Rename_ok oldpath newpath fs fs' :
  os_Rename oldpath newpath fs = (fs', None) ->
  exists f, files fs !! oldpath = Some f
    /\ fs' = set_files (<[newpath := f]> (delete oldpath (files fs)))
                       (record_op (OpRename oldpath newpath) fs).
Proof.
  unfold os_Rename. cbn.
  destruct (faulty fs (OpRename oldpath newpath)); [done|].
  destruct (files fs !! oldpath) eqn:E; intros H; simplify_eq. eauto.
Qed.

Lemma os_Rename_failed oldpath newpath fs fs' e :
  os_Rename oldpath newpath fs = (fs', Some e) ->
  fs' = record_op (OpRename oldpath newpath) fs /\ e = PathError "rename" oldpath.
Proof.
  unfold os_Rename. cbn.
  destruct (faulty fs (OpRename oldpath newpath)); [by intros; simplify_eq|].
  destruct (files fs !! oldpath); intros; by simplify_eq.
Qed.

Lemma io_CopyBuffer_log gz z path f fs fs' z' r :
  io_CopyBuffer gz z path f fs = (fs', z', r) -> fs' = record_op (OpRead path) fs.
Proof.
  unfold io_CopyBuffer.
  destruct (read_all _ _ _) as [data rerr].
  destruct (match data with [] => _ | _ => _ end) as [z1 [nw [e|]]];
    intros; by simplify_eq.
Qed.

(** A copy that succeeds has read the whole file, and counts its bytes. *)
Lemma io_CopyBuffer_ok gz z path f fs fs' z' n :
  io_CopyBuffer gz z path f fs = (fs', z', (n, None)) ->
  n = Z.of_nat (length (Data f)).
Proof.
  unfold io_CopyBuffer, read_all. cbn.
  destruct (fail_read fs path) as [k|].
  - destruct (firstn k (Data f)) as [|b d].
    + intros; simplify_eq.
    + destruct (gzipWriter.Write gz z (b :: d)) as [z1 [nw [e|]]];
        intros; simplify_eq.
  - destruct (Data f) as [|b d] eqn:E.
    + intros; by simplify_eq.
    + unfold gzipWriter.Write.
      destruct (gzipWriter.err z); [intros; simplify_eq|].
      destruct (gzipWriter.push z _) as [z1 [e|]]; intros; by simplify_eq.
Qed.

(** ** Paths of the artifact *)

Lemma append_length (a b : string) :
  String.length (a +:+ b) = (String.length a + String.length b)%nat.
Proof. induction a as [|c a IH]; simpl; [done | by rewrite IH]. Qed.

Lemma append_ne_self (a b : string) : b <> "" -> a +:+ b <> a.
Proof.
  intros Hb H. apply (f_equal String.length) in H.
  rewrite append_length in H. destruct b; [done | simpl in H; lia].
Qed.

Lemma append_inj_r (a b c : string) : a +:+ b = a +:+ c -> b = c.
Proof. induction a; simpl; intros H; [done | injection H; auto]. Qed.

Lemma tmp_ne_path (path : string) : path +:+ ".gz~" <> path.
Proof. by apply append_ne_self. Qed.

Lemma gz_ne_path (path : string) : path +:+ ".gz" <> path.
Proof. by apply append_ne_self. Qed.

Lemma tmp_ne_gz (path : string) : path +:+ ".gz~" <> path +:+ ".gz".
Proof. intros H. by apply append_inj_r in H. Qed.

(** ** The conditional compressor *)

Ltac split_scrutinee H :=
  match type of H with
  | context [match ?x with _ => _ end] => destruct x eqn:?; try discriminate H
  end.

Lemma touched_id m f : ModTime f = m -> touched m f = f.
Proof. intros <-. unfold touched. destruct f. cbn. by destruct (time_IsZero _). Qed.

(** The source file after the step on its modification time. *)
Lemma mtime_step_ok path m s fs1 fs2 :
  files fs1 !! path = Some s ->
  (if ModTime s =? m then (fs1, None) else os_Chtimes path m fs1) = (fs2, None) ->
  files fs2 !! path = Some (touched m s)
  /\ (forall q, q <> path -> files fs2 !! q = files fs1 !! q)
  /\ oplog fs2 = (oplog fs1 ++ (if ModTime s =? m then [] else [OpChtimes path m]))%list.
Proof.
  intros Hs H. destruct (Z.eqb_spec (ModTime s) m) as [Heq|Hne].
  - simplify_eq. rewrite app_nil_r. by rewrite touched_id.
  - apply os_Chtimes_ok in H as (f & Hf & ->). simplify_eq. cbn.
    rewrite lookup_insert_eq. split_and!; [done | | done].
    intros q Hq. by rewrite lookup_insert_ne.
Qed.

(** C1: an artifact is materialised only when the compressed buffer is
    strictly shorter than the bytes read from the source file, and then the
    artifact holds that buffer; when compression completes with a buffer at
    least as long as the bytes read, the call returns [(false, nil)], the
    files are as they were after the step on the modification time, and
    nothing but the open and the read has been attempted since. *)
Theorem IfSmallerBuffer_artifact_is_smaller gz path m out fs :
  (forall fs' out' err,
     IfSmallerBuffer gz path m out fs = (fs', out', (true, err)) ->
     err = None
     /\ exists f g, files fs !! path = Some f
          /\ (length out' < length (Data f))%nat
          /\ files fs' !! (path +:+ ".gz") = Some g /\ Data g = out')
  /\ (forall fs1 s fs2 fs3 f fs4 z n z',
        os_Stat path fs = (fs1, inl s) ->
        (if ModTime s =? m then (fs1, None) else os_Chtimes path m fs1) = (fs2, None) ->
        os_Open path fs2 = (fs3, inl f) ->
        io_CopyBuffer gz
          (gzipWriter.NewWriterLevel {| limitedWriter.buf := []; limitedWriter.n := Size s |})
          path f fs3 = (fs4, z, (n, None)) ->
        gzipWriter.Close gz z = (z', None) ->
        n <= Z.of_nat (length (limitedWriter.buf (gzipWriter.w z'))) ->
        IfSmallerBuffer gz path m out fs
          = (fs4, limitedWriter.buf (gzipWriter.w z'), (false, None))
        /\ files fs4 = files fs2
        /\ oplog fs4 = (oplog fs2 ++ [OpOpen path; OpRead path])%list).
Proof.
  split.
  - intros fs' out' err H. unfold IfSmallerBuffer in H.
    repeat split_scrutinee H. simplify_eq.
    split; [done|].
    match goal with H : os_Stat _ _ = _ |- _ => apply os_Stat_ok in H as [-> Hs] end.
    match goal with H : (if _ then _ else _) = _ |- _ =>
      apply mtime_step_ok in H as (Hp & _ & _); [|done] end.
    match goal with H : os_Open _ _ = _ |- _ => apply os_Open_ok in H as [-> Ho] end.
    match goal with H : io_CopyBuffer _ _ _ _ _ = _ |- _ =>
      pose proof (io_CopyBuffer_log _ _ _ _ _ _ _ _ H) as ->;
      apply io_CopyBuffer_ok in H as -> end.
    match goal with H : os_WriteFile _ _ _ _ = _ |- _ =>
      apply os_WriteFile_ok in H as (p & ->) end.
    match goal with H : os_Chtimes _ _ _ = _ |- _ =>
      apply os_Chtimes_ok in H as (g & Hg & ->) end.
    match goal with H : os_Rename _ _ _ = _ |- _ =>
      apply os_Rename_ok in H as (g' & Hg' & ->) end.
    cbn in *. rewrite lookup_insert_eq in Hg. simplify_eq.
    rewrite lookup_insert_eq in Hg'. simplify_eq.
    match goal with H : (_ >=? _) = false |- _ =>
      rewrite Z.geb_leb in H; apply Z.leb_gt in H end.
    eexists _, _. split_and!; [done | | apply lookup_insert_eq | done].
    cbn in *. lia.
  - intros fs1 s fs2 fs3 f fs4 z n z' Hstat Hm Hopen Hcopy Hclose Hlen.
    unfold IfSmallerBuffer. rewrite Hstat, Hm, Hopen, Hcopy, Hclose.
    apply Z.geb_le in Hlen. rewrite Hlen. split; [done|].
    apply os_Open_log in Hopen as ->. apply io_CopyBuffer_log in Hcopy as ->.
    cbn. by rewrite <- app_assoc.
Qed.

Lemma IfSmallerBuffer_artifact_is_smaller_witness :
  (exists f g,
     files (sample_fs [("/r/a", sample_file [x61; x61; x61; x61; x61; x61; x61; x61])])
       !! "/r/a" = Some f
     /\ (length [x1f; x8b; x61; x00] < length (Data f))%nat
     /\ files (fst (fst (IfSmallerBuffer toy_gzip "/r/a" 7 []
          (sample_fs [("/r/a", sample_file [x61; x61; x61; x61; x61; x61; x61; x61])]))))
          !! "/r/a.gz" = Some g
     /\ Data g = [x1f; x8b; x61; x00])
  /\ snd (IfSmallerBuffer (toy_encoder [x1f; x8b] []) "/r/b" 5 []
            (sample_fs [("/r/b", sample_file [x61; x61; x62; x62])]))
     = (false, None).
Proof.
  split.
  - refine (proj2 (proj1 (IfSmallerBuffer_artifact_is_smaller toy_gzip "/r/a" 7 []
        (sample_fs [("/r/a", sample_file [x61; x61; x61; x61; x61; x61; x61; x61])]))
        _ [x1f; x8b; x61; x00] None _)).
    vm_compute. reflexivity.
  - edestruct (proj2 (IfSmallerBuffer_artifact_is_smaller (toy_encoder [x1f; x8b] []) "/r/b" 5 []
        (sample_fs [("/r/b", sample_file [x61; x61; x62; x62])]))) as (H & _ & _);
      [first [vm_compute; reflexivity | vm_compute; discriminate] .. | idtac].
    rewrite H. reflexivity.
Defined.

Lemma os_Stat_failed path fs fs' e :
  os_Stat path fs = (fs', inr e) -> e = PathError "stat" path.
Proof.
  unfold os_Stat. cbn.
  destruct (faulty fs (OpStat path)); [by intros; simplify_eq|].
  destruct (files fs !! path); intros; by simplify_eq.
Qed.

Lemma os_Open_failed path fs fs' e :
  os_Open path fs = (fs', inr e) -> e = PathError "open" path.
Proof.
  unfold os_Open. cbn.
  destruct (faulty fs (OpOpen path)); [by intros; simplify_eq|].
  destruct (files fs !! path); intros; by simplify_eq.
Qed.

Lemma errors_Is_true e t : errors_Is e t = true <-> e = t.
Proof. unfold errors_Is. by rewrite bool_decide_eq_true. Qed.

Lemma errors_Is_false e t : errors_Is e t = false <-> e <> t.
Proof. unfold errors_Is. by rewrite bool_decide_eq_false. Qed.

(** C4: [errSizeThresholdExceeded] is never returned; when the copy into the
    encoder or the close of the encoder fails with it, the call returns
    [(false, nil)] and has attempted nothing but the open and the read since
    the step on the modification time, so that no artifact is written; the failure of any other step (stat, chtimes, open, copy,
    close of the encoder, write, chtimes and rename of the artifact) is
    returned with [false]. *)
Theorem IfSmallerBuffer_error_policy gz path m out fs :
  snd (snd (IfSmallerBuffer gz path m out fs)) <> Some errSizeThresholdExceeded
  /\ (snd (snd (IfSmallerBuffer gz path m out fs)) <> None ->
      fst (snd (IfSmallerBuffer gz path m out fs)) = false)
  /\ (forall fs1 e,
        os_Stat path fs = (fs1, inr e) ->
        snd (IfSmallerBuffer gz path m out fs) = (false, Some e))
  /\ (forall fs1 s,
      os_Stat path fs = (fs1, inl s) ->
      (forall fs2 e,
         (if ModTime s =? m then (fs1, None) else os_Chtimes path m fs1) = (fs2, Some e) ->
         snd (IfSmallerBuffer gz path m out fs) = (false, Some e))
      /\ (forall fs2,
          (if ModTime s =? m then (fs1, None) else os_Chtimes path m fs1) = (fs2, None) ->
          (forall fs3 e,
             os_Open path fs2 = (fs3, inr e) ->
             snd (IfSmallerBuffer gz path m out fs) = (false, Some e))
          /\ (forall fs3 f,
              os_Open path fs2 = (fs3, inl f) ->
              (forall fs4 z n e,
                 io_CopyBuffer gz
                   (gzipWriter.NewWriterLevel
                      {| limitedWriter.buf := []; limitedWriter.n := Size s |})
                   path f fs3 = (fs4, z, (n, Some e)) ->
                 (e = errSizeThresholdExceeded ->
                  snd (IfSmallerBuffer gz path m out fs) = (false, None)
                  /\ fst (fst (IfSmallerBuffer gz path m out fs)) = fs4
                  /\ files fs4 = files fs2
                  /\ oplog fs4 = (oplog fs2 ++ [OpOpen path; OpRead path])%list)
                 /\ (e <> errSizeThresholdExceeded ->
                     snd (IfSmallerBuffer gz path m out fs) = (false, Some e)))
              /\ (forall fs4 z n,
                  io_CopyBuffer gz
                    (gzipWriter.NewWriterLevel
                       {| limitedWriter.buf := []; limitedWriter.n := Size s |})
                    path f fs3 = (fs4, z, (n, None)) ->
                  (forall z' e,
                     gzipWriter.Close gz z = (z', Some e) ->
                     (e = errSizeThresholdExceeded ->
                      snd (IfSmallerBuffer gz path m out fs) = (false, None)
                      /\ fst (fst (IfSmallerBuffer gz path m out fs)) = fs4
                      /\ files fs4 = files fs2
                      /\ oplog fs4 = (oplog fs2 ++ [OpOpen path; OpRead path])%list)
                     /\ (e <> errSizeThresholdExceeded ->
                         snd (IfSmallerBuffer gz path m out fs) = (false, Some e)))
                  /\ (forall z',
                      gzipWriter.Close gz z = (z', None) ->
                      Z.of_nat (length (limitedWriter.buf (gzipWriter.w z'))) < n ->
                      (forall fs5 e,
                         os_WriteFile (path +:+ ".gz~") (limitedWriter.buf (gzipWriter.w z'))
                           (Perm s) fs4 = (fs5, Some e) ->
                         snd (IfSmallerBuffer gz path m out fs) = (false, Some e))
                      /\ (forall fs5,
                          os_WriteFile (path +:+ ".gz~") (limitedWriter.buf (gzipWriter.w z'))
                            (Perm s) fs4 = (fs5, None) ->
                          (forall fs6 e,
                             os_Chtimes (path +:+ ".gz~") m fs5 = (fs6, Some e) ->
                             snd (IfSmallerBuffer gz path m out fs) = (false, Some e))
                          /\ (forall fs6,
                              os_Chtimes (path +:+ ".gz~") m fs5 = (fs6, None) ->
                              forall fs7 e,
                                os_Rename (path +:+ ".gz~") (path +:+ ".gz") fs6 = (fs7, Some e) ->
                                snd (IfSmallerBuffer gz path m out fs) = (false, Some e)))))))).
Proof.
  split_and!.
  - destruct (IfSmallerBuffer gz path m out fs) as [[fs' out'] [c e]] eqn:H.
    unfold IfSmallerBuffer in H. cbn.
    repeat split_scrutinee H; simplify_eq; try done;
      repeat match goal with
      | H : os_Stat _ _ = (_, inr _) |- _ => apply os_Stat_failed in H as ->
      | H : os_Open _ _ = (_, inr _) |- _ => apply os_Open_failed in H as ->
      | H : (if ?b then _ else _) = (_, Some _) |- _ => destruct b; [discriminate H|]
      | H : os_Chtimes _ _ _ = (_, Some _) |- _ => apply os_Chtimes_failed in H as [_ ->]
      | H : os_WriteFile _ _ _ _ = (_, Some _) |- _ => apply os_WriteFile_failed in H as [[? ->] _]
      | H : os_Rename _ _ _ = (_, Some _) |- _ => apply os_Rename_failed in H as [_ ->]
      | H : errors_Is _ _ = false |- _ => apply errors_Is_false in H
      end; try done; congruence.
  - destruct (IfSmallerBuffer gz path m out fs) as [[fs' out'] [c e]] eqn:H.
    unfold IfSmallerBuffer in H. cbn.
    repeat split_scrutinee H; by simplify_eq.
  - intros fs1 e H. unfold IfSmallerBuffer. by rewrite H.
  - intros fs1 s Hstat. unfold IfSmallerBuffer. rewrite Hstat.
    split; [intros fs2 e Hm; by rewrite Hm|].
    intros fs2 Hm. rewrite Hm.
    split; [intros fs3 e Ho; by rewrite Ho|].
    intros fs3 f Ho. rewrite Ho.
    assert (Hframe : forall fs4 z r,
      io_CopyBuffer gz
        (gzipWriter.NewWriterLevel {| limitedWriter.buf := []; limitedWriter.n := Size s |})
        path f fs3 = (fs4, z, r) ->
      files fs4 = files fs2 /\ oplog fs4 = (oplog fs2 ++ [OpOpen path; OpRead path])%list).
    { intros fs4 z r Hc. apply os_Open_log in Ho as ->.
      apply io_CopyBuffer_log in Hc as ->. cbn. by rewrite <- app_assoc. }
    split.
    + intros fs4 z n e Hc. rewrite Hc. split.
      * intros ->. cbn. eauto using Hframe.
      * intros Hne. apply errors_Is_false in Hne. by rewrite Hne.
    + intros fs4 z n Hc. rewrite Hc. split.
      * intros z' e Hz. rewrite Hz. split.
        -- intros ->. cbn. eauto using Hframe.
        -- intros Hne. apply errors_Is_false in Hne. by rewrite Hne.
      * intros z' Hz Hlt. rewrite Hz.
        destruct (Z.geb_spec (Z.of_nat (length (limitedWriter.buf (gzipWriter.w z')))) n);
          [lia|].
        split; [intros fs5 e Hw; by rewrite Hw|].
        intros fs5 Hw. rewrite Hw.
        split; [intros fs6 e Ht; by rewrite Ht|].
        intros fs6 Ht fs7 e Hr. by rewrite Ht, Hr.
Qed.

Lemma IfSmallerBuffer_error_policy_witness :
  snd (IfSmallerBuffer toy_gzip "/r/c" 5 []
         (sample_fs [("/r/c", sample_file [x61; x62; x63])])) = (false, None)
  /\ snd (IfSmallerBuffer toy_gzip "/r/e" 5 []
            (sample_fs [("/r/e", sample_file [])])) = (false, None)
  /\ snd (IfSmallerBuffer toy_gzip "/r/none" 5 [] (sample_fs []))
     = (false, Some (PathError "stat" "/r/none")).
Proof.
  split_and!.
  - destruct (IfSmallerBuffer_error_policy toy_gzip "/r/c" 5 []
                (sample_fs [("/r/c", sample_file [x61; x62; x63])])) as (_ & _ & _ & H).
    edestruct H as [_ H2]; [vm_compute; reflexivity|].
    edestruct H2 as [_ H3]; [vm_compute; reflexivity|].
    edestruct H3 as [H4 _]; [vm_compute; reflexivity|].
    edestruct H4 as [H5 _]; [vm_compute; reflexivity|].
    apply H5. reflexivity.
  - destruct (IfSmallerBuffer_error_policy toy_gzip "/r/e" 5 []
                (sample_fs [("/r/e", sample_file [])])) as (_ & _ & _ & H).
    edestruct H as [_ H2]; [vm_compute; reflexivity|].
    edestruct H2 as [_ H3]; [vm_compute; reflexivity|].
    edestruct H3 as [_ H4]; [vm_compute; reflexivity|].
    edestruct H4 as [H5 _]; [vm_compute; reflexivity|].
    edestruct H5 as [H6 _]; [vm_compute; reflexivity|].
    apply H6. reflexivity.
  - destruct (IfSmallerBuffer_error_policy toy_gzip "/r/none" 5 [] (sample_fs []))
      as (_ & _ & H & _).
    eapply H. vm_compute. reflexivity.
Defined.





(** ** The order on names *)

Lemma ascii_compare_refl c : Ascii.compare c c = Eq.
Proof. unfold Ascii.compare. apply N.compare_refl. Qed.

Lemma string_ltb_irrefl s : String.ltb s s = false.
Proof.
  unfold String.ltb. induction s as [|c s IH]; simpl; [done|].
  by rewrite ascii_compare_refl.
Qed.

Lemma string_compare_lt_trans a b c :
  String.compare a b = Lt -> String.compare b c = Lt -> String.compare a c = Lt.
Proof.
  revert b c. induction a as [|x a IH]; intros [|y b] [|z c]; simpl; try done.
  unfold Ascii.compare.
  destruct (N.compare_spec (N_of_ascii x) (N_of_ascii y)) as [Hxy|Hxy|Hxy]; try done;
    destruct (N.compare_spec (N_of_ascii y) (N_of_ascii z)) as [Hyz|Hyz|Hyz]; try done;
    intros H1 H2.
  - rewrite Hxy, Hyz, N.compare_refl. eauto.
  - rewrite Hxy. by apply N.compare_lt_iff in Hyz as ->.
  - rewrite <- Hyz. by apply N.compare_lt_iff in Hxy as ->.
  - assert (N_of_ascii x < N_of_ascii z)%N as Hxz by lia.
    by apply N.compare_lt_iff in Hxz as ->.
Qed.

Lemma string_ltb_trans a b c :
  String.ltb a b = true -> String.ltb b c = true -> String.ltb a c = true.
Proof.
  unfold String.ltb. intros H1 H2.
  destruct (String.compare a b) eqn:E1; try done.
  destruct (String.compare b c) eqn:E2; try done.
  by rewrite (string_compare_lt_trans a b c).
Qed.

(** A name comes before every proper extension of it. *)
Lemma string_ltb_append s t : t <> "" -> String.ltb s (s +:+ t) = true.
Proof.
  intros Ht. unfold String.ltb. induction s as [|c s IH]; simpl.
  - by destruct t.
  - by rewrite ascii_compare_refl.
Qed.

Lemma sorted_names_tail x rest : sorted_names (x :: rest) = true -> sorted_names rest = true.
Proof. simpl. destruct rest; [done|]. by intros [_ H]%andb_prop. Qed.

Lemma sorted_names_head x rest y :
  sorted_names (x :: rest) = true -> In y rest -> String.ltb x y = true.
Proof.
  revert x. induction rest as [|z rest IH]; intros x Hs Hy; [done|].
  simpl in Hs. apply andb_prop in Hs as [Hxz Hs].
  destruct Hy as [->|Hy]; [done|].
  eapply string_ltb_trans; [exact Hxz|]. by apply IH.
Qed.

(** The scan stops at the first greater name without missing the sibling. *)
Lemma find_sibling_sorted needle later :
  sorted_names later = true ->
  find_sibling needle later = true <-> In needle later.
Proof.
  induction later as [|name rest IH]; intros Hs; simpl; [done|].
  destruct (String.eqb_spec name needle) as [->|Hne]; [by split; auto|].
  destruct (String.ltb needle name) eqn:Hlt.
  - split; [done|]. intros [?|Hin]; [done|].
    pose proof (sorted_names_head _ _ _ Hs Hin) as H.
    pose proof (string_ltb_trans _ _ _ Hlt H) as H'.
    by rewrite string_ltb_irrefl in H'.
  - rewrite IH by eauto using sorted_names_tail. split; [auto|].
    by intros [?|?].
Qed.

Lemma find_sibling_In needle later : find_sibling needle later = true -> In needle later.
Proof.
  induction later as [|name rest IH]; simpl; [done|].
  destruct (String.eqb_spec name needle) as [->|Hne]; [auto|].
  destruct (String.ltb needle name); [done | auto].
Qed.

(** ** Paths made of names *)

Lemma valid_name_inv s :
  valid_name s = true -> s <> "" /\ s <> "." /\ s <> ".." /\ has_slash s = false.
Proof.
  unfold valid_name. rewrite !andb_true_iff, !negb_true_iff.
  intros [[[H1 H2] H3] H4].
  by rewrite ?String.eqb_neq in *.
Qed.

Lemma split_slash_nonempty s : split_slash s <> [].
Proof.
  destruct s as [|c s]; simpl; [done|].
  destruct (Ascii.eqb c "/"); [done|]. by destruct (split_slash s).
Qed.

Lemma split_slash_name s : has_slash s = false -> split_slash s = [s].
Proof.
  induction s as [|c s IH]; simpl; [done|].
  destruct (Ascii.eqb c "/"); [done|]. simpl. intros H. by rewrite IH.
Qed.

Lemma split_slash_app a b :
  split_slash (a +:+ String "/" b) = (split_slash a ++ split_slash b)%list.
Proof.
  induction a as [|c a IH]; simpl; [done|].
  destruct (Ascii.eqb c "/"); [by rewrite IH|].
  rewrite IH. pose proof (split_slash_nonempty a).
  by destruct (split_slash a).
Qed.

Lemma path_of_cons x xs :
  xs <> [] -> path_of (x :: xs) = x +:+ String "/" (path_of xs).
Proof. unfold path_of. simpl. by destruct xs. Qed.

Lemma path_of_split s : path_of (split_slash s) = s.
Proof.
  induction s as [|c s IH]; simpl; [done|].
  pose proof (split_slash_nonempty s) as Hne.
  destruct (Ascii.eqb_spec c "/") as [->|Hc].
  - rewrite path_of_cons by done. by rewrite IH.
  - destruct (split_slash s) as [|x xs]; [done|].
    destruct xs as [|y ys]; [unfold path_of in *; simpl in *; by rewrite IH|].
    rewrite path_of_cons in IH by done. rewrite path_of_cons by done.
    by rewrite <- IH.
Qed.

Lemma split_path_of comps :
  comps <> [] -> Forall (fun c => has_slash c = false) comps ->
  split_slash (path_of comps) = comps.
Proof.
  induction comps as [|x xs IH]; intros Hne Hall; [done|].
  apply Forall_cons in Hall as [Hx Hxs].
  destruct xs as [|y ys].
  - unfold path_of. simpl. by apply split_slash_name.
  - rewrite path_of_cons by done. rewrite split_slash_app, IH by done.
    by rewrite split_slash_name.
Qed.

Lemma Forall_valid_no_slash comps :
  Forall (fun c => valid_name c = true) comps -> Forall (fun c => has_slash c = false) comps.
Proof.
  intros H. eapply Forall_impl; [exact H|].
  intros c Hc. by apply valid_name_inv in Hc as (_ & _ & _ & ?).
Qed.

Lemma path_of_inj a b :
  a <> [] -> b <> [] ->
  Forall (fun c => valid_name c = true) a -> Forall (fun c => valid_name c = true) b ->
  path_of a = path_of b -> a = b.
Proof.
  intros Ha Hb Hva Hvb H.
  rewrite <- (split_path_of a), <- (split_path_of b) by auto using Forall_valid_no_slash.
  by rewrite H.
Qed.

Lemma path_of_snoc comps name :
  comps <> [] -> path_of (comps ++ [name]) = path_of comps +:+ String "/" name.
Proof.
  induction comps as [|x xs IH]; intros Hne; [done|].
  destruct xs as [|y ys]; [done|].
  change ((x :: y :: ys) ++ [name])%list with (x :: ((y :: ys) ++ [name]))%list.
  rewrite !path_of_cons by done. rewrite IH by done.
  generalize (path_of (y :: ys)). intros p. clear.
  induction x as [|c x IHx]; [done|].
  change (String c (x +:+ String "/" (p +:+ String "/" name))
          = String c ((x +:+ String "/" p) +:+ String "/" name)).
  by rewrite IHx.
Qed.

Lemma path_of_nonempty comps :
  comps <> [] -> Forall (fun c => valid_name c = true) comps -> path_of comps <> "".
Proof.
  intros Hne Hall. destruct comps as [|x xs]; [done|].
  apply Forall_cons in Hall as [Hx _]. apply valid_name_inv in Hx as (Hx & _).
  destruct xs; [done|]. rewrite path_of_cons by done. by destruct x.
Qed.

Lemma path_of_not_rooted comps :
  comps <> [] -> Forall (fun c => valid_name c = true) comps ->
  String.prefix "/" (path_of comps) = false.
Proof.
  intros Hne Hall. destruct comps as [|x xs]; [done|].
  apply Forall_cons in Hall as [Hx _]. apply valid_name_inv in Hx as (Hx & _ & _ & Hs).
  destruct x as [|c x]; [done|].
  assert (exists r, path_of (String c x :: xs) = String c r) as [r ->].
  { destruct xs; [by eexists|]. rewrite path_of_cons by done. by eexists. }
  change (String.prefix "/" (String c r))
    with (if ascii_dec "/" c then String.prefix "" r else false).
  destruct (ascii_dec "/" c) as [<-|]; [|done]. simpl in Hs. done.
Qed.

Lemma clean_step_valid rooted kept c :
  valid_name c = true -> clean_step rooted kept c = c :: kept.
Proof.
  intros (H1 & H2 & H3 & _)%valid_name_inv. unfold clean_step.
  apply String.eqb_neq in H1, H2, H3. by rewrite H1, H2, H3.
Qed.

Lemma fold_clean_step_valid rooted comps kept :
  Forall (fun c => valid_name c = true) comps ->
  fold_left (clean_step rooted) comps kept = (rev comps ++ kept)%list.
Proof.
  revert kept. induction comps as [|c comps IH]; intros kept Hall; [done|].
  apply Forall_cons in Hall as [Hc Hall]. simpl.
  rewrite clean_step_valid, IH by done. by rewrite <- app_assoc.
Qed.

(** A path made of names is clean. *)
Lemma filepath_Clean_path_of comps :
  comps <> [] -> Forall (fun c => valid_name c = true) comps ->
  filepath_Clean (path_of comps) = path_of comps.
Proof.
  intros Hne Hall. unfold filepath_Clean.
  pose proof (path_of_nonempty comps Hne Hall) as Hp.
  apply String.eqb_neq in Hp as Hp'. rewrite Hp'.
  rewrite path_of_not_rooted, split_path_of by auto using Forall_valid_no_slash.
  rewrite fold_clean_step_valid, app_nil_r, rev_involutive by done.
  fold (path_of comps). by rewrite Hp'.
Qed.

(** Joining a name to a path made of names appends the name. *)
Lemma filepath_Join_path_of comps name :
  Forall (fun c => valid_name c = true) comps -> valid_name name = true ->
  filepath_Join [path_of comps; name] = path_of (comps ++ [name]).
Proof.
  intros Hall Hname.
  assert (Forall (fun c => valid_name c = true) (comps ++ [name])) as Hall'.
  { apply Forall_app. split; [done | by constructor]. }
  destruct (decide (comps = [])) as [->|Hne].
  - apply valid_name_inv in Hname as Hn. destruct Hn as (Hn & _).
    apply String.eqb_neq in Hn. unfold filepath_Join. cbn [path_of String.concat].
    rewrite String.eqb_refl, Hn.
    by apply (filepath_Clean_path_of [name]).
  - pose proof (path_of_nonempty comps Hne Hall) as Hp.
    apply String.eqb_neq in Hp. unfold filepath_Join. rewrite Hp.
    unfold strings_Join.
    change (String.concat "/" [path_of comps; name])
      with (path_of comps +:+ String "/" name).
    rewrite <- path_of_snoc by done.
    apply filepath_Clean_path_of; [|done]. by destruct comps.
Qed.

(** ** The tree walker *)

Lemma Tree_ind_nested (P : Tree -> Prop) :
  (forall dirs, Forall (fun e => P (snd e)) dirs -> P (Directory dirs)) ->
  (forall e, P (Unreadable e)) -> P Regular -> P Irregular ->
  forall t, P t.
Proof.
  intros Hdir Hun Hreg Hirr. fix IH 1. intros t.
  destruct t as [dirs|e| |]; [|apply Hun | apply Hreg | apply Hirr].
  apply Hdir. induction dirs as [|[name d] rest IHrest]; constructor;
    [apply IH | exact IHrest].
Qed.

Lemma sorted_names_split a x b :
  sorted_names (a ++ x :: b) = true ->
  sorted_names (x :: b) = true /\ forall y, In y a -> String.ltb y x = true.
Proof.
  induction a as [|z a IH]; intros Hs; [by split|].
  change ((z :: a) ++ x :: b)%list with (z :: (a ++ x :: b))%list in Hs.
  pose proof (sorted_names_tail _ _ Hs) as Ht. destruct (IH Ht) as [H1 H2].
  split; [done|]. intros y [->|Hy]; [|auto].
  apply (sorted_names_head _ _ _ Hs). apply in_or_app. right. by left.
Qed.

(** Where a path sent by the loop comes from: a regular entry that is no
    artifact and has no artifact after it, or the recursive call on a
    directory that the pattern does not match. *)
Lemma walk_entries_In re rec prefix ignore entries s :
  In s (fst (walk_entries re rec prefix ignore entries)) ->
  exists before name d later,
    entries = (before ++ (name, d) :: later)%list
    /\ ((d = Regular /\ s = filepath_Join [prefix; name]
         /\ strings_HasSuffix name ".gz" = false
         /\ find_sibling (name +:+ ".gz") (map fst later) = false)
        \/ (IsDir d = true
            /\ MatchString re ignore (filepath_Join [prefix; name]) = false
            /\ In s (fst (rec d (filepath_Join [prefix; name]))))).
Proof.
  induction entries as [|[name d] later IH]; [done|].
  cbn [walk_entries]. set (path := filepath_Join [prefix; name]).
  assert (In s (fst (walk_entries re rec prefix ignore later)) ->
          exists before name0 d0 later0,
            ((name, d) :: later = before ++ (name0, d0) :: later0)%list
            /\ ((d0 = Regular /\ s = filepath_Join [prefix; name0]
                 /\ strings_HasSuffix name0 ".gz" = false
                 /\ find_sibling (name0 +:+ ".gz") (map fst later0) = false)
                \/ (IsDir d0 = true
                    /\ MatchString re ignore (filepath_Join [prefix; name0]) = false
                    /\ In s (fst (rec d0 (filepath_Join [prefix; name0])))))) as Hlater.
  { intros (before & n0 & d0 & l0 & -> & H)%IH.
    by exists ((name, d) :: before), n0, d0, l0. }
  assert (forall sent err,
    In s (fst (match err with
               | Some e => (sent, Some e)
               | None => let '(more, err') := walk_entries re rec prefix ignore later in
                         ((sent ++ more)%list, err')
               end)) ->
    In s sent \/ In s (fst (walk_entries re rec prefix ignore later))) as Hsplit.
  { intros sent [e|]; [by left|].
    destruct (walk_entries re rec prefix ignore later) as [more err'].
    simpl. apply in_app_or. }
  destruct d as [dirs|e| |].
  - destruct (MatchString re ignore path) eqn:Hm.
    + intros H. apply (Hsplit [] None) in H as [[]|H]. auto.
    + destruct (rec (Directory dirs) path) as [sent err] eqn:Hrec.
      intros H. apply (Hsplit sent err) in H as [H|H]; [|auto].
      exists [], name, (Directory dirs), later. split; [done|]. right.
      subst path. by rewrite Hrec.
  - destruct (MatchString re ignore path) eqn:Hm.
    + intros H. apply (Hsplit [] None) in H as [[]|H]. auto.
    + destruct (rec (Unreadable e) path) as [sent err] eqn:Hrec.
      intros H. apply (Hsplit sent err) in H as [H|H]; [|auto].
      exists [], name, (Unreadable e), later. split; [done|]. right.
      subst path. by rewrite Hrec.
  - destruct (strings_HasSuffix name ".gz") eqn:Hsuf.
    { intros H. apply (Hsplit [] None) in H as [[]|H]. auto. }
    destruct (find_sibling (name +:+ ".gz") (map fst later)) eqn:Hsib.
    { intros H. apply (Hsplit [] None) in H as [[]|H]. auto. }
    intros H. apply (Hsplit [path] None) in H as [[<-|[]]|H]; [|auto].
    exists [], name, Regular, later. split; [done|]. by left.
  - intros H. apply (Hsplit [] None) in H as [[]|H]. auto.
Qed.

Lemma well_formed_dir dirs :
  well_formed (Directory dirs) = true ->
  Forall (fun e => valid_name (fst e) = true) dirs
  /\ sorted_names (map fst dirs) = true
  /\ Forall (fun e => well_formed (snd e) = true) dirs.
Proof.
  simpl. rewrite !andb_true_iff, !forallb_forall.
  intros [[Hv Hs] Hw]. split_and!; [|done|].
  - apply List.Forall_forall. intros e He. apply Hv, in_map, He.
  - apply List.Forall_forall. intros e He. by apply Hw.
Qed.

Section Walker.

Context (re : RegexpEngine) (ignore : Regexp re).

(** Every path sent by the walk of a tree at the relative path [comps]
    continues [comps] by names, and the pattern matches none of the
    directories passed on the way. *)
Lemma recurse_items t :
  forall comps s,
    well_formed t = true ->
    Forall (fun c => valid_name c = true) comps ->
    In s (fst (recurse re t (path_of comps) ignore)) ->
    exists cs,
      cs <> [] /\ Forall (fun c => valid_name c = true) cs
      /\ s = path_of (comps ++ cs)
      /\ forall j, (0 < j < length cs)%nat ->
           MatchString re ignore (path_of (comps ++ take j cs)) = false.
Proof.
  induction t as [dirs IH|e| |] using Tree_ind_nested; intros comps s Hwf Hcomps Hin;
    try done.
  apply well_formed_dir in Hwf as (Hvalid & _ & Hwfs).
  cbn [recurse] in Hin.
  apply walk_entries_In in Hin as (before & name & d & later & -> & Hcase).
  apply Forall_app in Hvalid as [_ Hvalid]. apply Forall_cons in Hvalid as [Hname _].
  apply Forall_app in Hwfs as [_ Hwfs]. apply Forall_cons in Hwfs as [Hwfd _].
  apply Forall_app in IH as [_ IH]. apply Forall_cons in IH as [IHd _].
  cbn [fst snd] in *.
  rewrite filepath_Join_path_of in Hcase by done.
  destruct Hcase as [(-> & -> & _ & _)|(_ & Hm & Hin)].
  - exists [name]. split_and!; [done | by constructor | done |].
    intros j Hj. simpl in Hj. lia.
  - apply IHd in Hin as (cs & Hne & Hcs & -> & Hrest);
      [|done | apply Forall_app; split; [done | by constructor]].
    exists (name :: cs). split_and!; [done | by constructor | by rewrite <- app_assoc |].
    intros j Hj. destruct j as [|[|j]]; [lia | simpl; by rewrite take_0 | ].
    specialize (Hrest (S j)). rewrite <- app_assoc in Hrest. apply Hrest.
    simpl in Hj. lia.
Qed.

(** What sending the path of an entry [name] of the directory at [comps]
    says about the listing [dirs]: [name] is a regular entry that is no
    artifact, and the scan of the entries after it finds no artifact. *)
Lemma recurse_sends_entry dirs comps name :
  well_formed (Directory dirs) = true ->
  Forall (fun c => valid_name c = true) comps ->
  valid_name name = true ->
  In (filepath_Join [path_of comps; name])
     (fst (recurse re (Directory dirs) (path_of comps) ignore)) ->
  exists before later,
    dirs = (before ++ (name, Regular) :: later)%list
    /\ strings_HasSuffix name ".gz" = false
    /\ find_sibling (name +:+ ".gz") (map fst later) = false.
Proof.
  intros Hwf Hcomps Hname Hin.
  apply well_formed_dir in Hwf as (Hvalid & _ & Hwfs).
  cbn [recurse] in Hin.
  apply walk_entries_In in Hin as (before & name' & d & later & -> & Hcase).
  apply Forall_app in Hvalid as [_ Hvalid]. apply Forall_cons in Hvalid as [Hname' _].
  apply Forall_app in Hwfs as [_ Hwfs]. apply Forall_cons in Hwfs as [Hwfd _].
  cbn [fst snd] in *.
  rewrite !filepath_Join_path_of in Hcase by done.
  assert (forall a, valid_name a = true ->
            Forall (fun c => valid_name c = true) (comps ++ [a])) as Hsnoc.
  { intros a Ha. apply Forall_app. split; [done | by constructor]. }
  destruct Hcase as [(-> & Heq & Hsuf & Hsib)|(_ & _ & Hin)].
  - apply path_of_inj in Heq; [|by destruct comps | by destruct comps | auto ..].
    apply app_inv_head in Heq. simplify_eq. eauto.
  - apply recurse_items in Hin as (cs & Hne & Hcs & Heq & _); [|done | auto].
    apply path_of_inj in Heq;
      [|by destruct comps | by destruct comps | auto
       | apply Forall_app; split; auto].
    apply (f_equal length) in Heq. rewrite !length_app in Heq. simpl in Heq.
    destruct cs; [done | simpl in Heq; lia].
Qed.

End Walker.

(** C5: in a tree as the file system presents it, (1) the scan for the
    sibling over the sorted names that follow finds it exactly when it is
    there, although it stops at the first greater name; (2) a regular file
    whose directory lists [name.gz], or whose own name ends in [.gz], is not
    among the paths the walk of that directory sends. *)
Theorem recurse_skips_compressed (re : RegexpEngine) (ignore : Regexp re) :
  (forall needle later,
     sorted_names later = true ->
     find_sibling needle later = true <-> In needle later)
  /\ (forall dirs comps name,
        well_formed (Directory dirs) = true ->
        Forall (fun c => valid_name c = true) comps ->
        In (name, Regular) dirs ->
        In (name +:+ ".gz") (map fst dirs) \/ strings_HasSuffix name ".gz" = true ->
        ~ In (filepath_Join [path_of comps; name])
             (fst (recurse re (Directory dirs) (path_of comps) ignore))).
Proof.
  split; [apply find_sibling_sorted|].
  intros dirs comps name Hwf Hcomps Hentry Hskip Hin.
  pose proof (well_formed_dir _ Hwf) as (Hvalid & Hsorted & _).
  assert (valid_name name = true) as Hname.
  { rewrite List.Forall_forall in Hvalid. apply (Hvalid _ Hentry). }
  apply recurse_sends_entry in Hin as (before & later & -> & Hsuf & Hsib); [|done ..].
  destruct Hskip as [Hgz|Hgz]; [|congruence].
  rewrite map_app in Hsorted, Hgz. simpl in Hsorted, Hgz.
  apply sorted_names_split in Hsorted as [Hs Hbefore].
  pose proof (string_ltb_append name ".gz" ltac:(done)) as Hlt.
  apply in_app_or in Hgz as [Hgz|[Hgz|Hgz]].
  - apply Hbefore in Hgz.
    pose proof (string_ltb_trans _ _ _ Hlt Hgz) as H.
    by rewrite string_ltb_irrefl in H.
  - symmetry in Hgz. by apply append_ne_self in Hgz.
  - apply find_sibling_sorted in Hgz; [congruence|].
    by apply sorted_names_tail in Hs.
Qed.

Lemma recurse_skips_compressed_witness :
  (find_sibling "a.gz" ["a-b"; "a.gz"; "b"] = true <-> In "a.gz" ["a-b"; "a.gz"; "b"])
  /\ ~ In (filepath_Join [path_of ["sub"]; "a"])
          (fst (recurse syntax.engine
                  (Directory [("a", Regular); ("a-b", Regular); ("a.gz", Regular); ("b", Regular)])
                  (path_of ["sub"]) (syntax.OpConcat syntax.OpBeginText syntax.OpEndText)))
  /\ ~ In (filepath_Join [path_of []; "c.gz"])
          (fst (recurse syntax.engine
                  (Directory [("b", Regular); ("c.gz", Regular)])
                  (path_of []) (syntax.OpConcat syntax.OpBeginText syntax.OpEndText))).
Proof.
  split_and!.
  - apply (proj1 (recurse_skips_compressed syntax.engine
                    (syntax.OpConcat syntax.OpBeginText syntax.OpEndText))).
    reflexivity.
  - apply (proj2 (recurse_skips_compressed syntax.engine
                    (syntax.OpConcat syntax.OpBeginText syntax.OpEndText)));
      [reflexivity | by repeat constructor | simpl; auto | left; simpl; auto].
  - apply (proj2 (recurse_skips_compressed syntax.engine
                    (syntax.OpConcat syntax.OpBeginText syntax.OpEndText)));
      [reflexivity | by repeat constructor | simpl; auto | right; reflexivity].
Defined.

(** A walk that completes has sent every regular entry that is no artifact
    and has no artifact after it. *)
Lemma walk_entries_sends re rec prefix ignore before name later :
  strings_HasSuffix name ".gz" = false ->
  find_sibling (name +:+ ".gz") (map fst later) = false ->
  snd (walk_entries re rec prefix ignore (before ++ (name, Regular) :: later)) = None ->
  In (filepath_Join [prefix; name])
     (fst (walk_entries re rec prefix ignore (before ++ (name, Regular) :: later))).
Proof.
  intros Hsuf Hsib. induction before as [|[name' d] before IH].
  - cbn [app walk_entries]. rewrite Hsuf, Hsib.
    destruct (walk_entries re rec prefix ignore later) as [more err].
    intros _. by left.
  - change (((name', d) :: before) ++ (name, Regular) :: later)%list
      with ((name', d) :: (before ++ (name, Regular) :: later))%list.
    cbn [walk_entries].
    match goal with |- context [let '(s, e) := ?v in _] => destruct v as [sent [e|]] end;
      [done|].
    destruct (walk_entries re rec prefix ignore (before ++ (name, Regular) :: later))
      as [more err].
    simpl in *. intros H. apply in_or_app. right. by apply IH.
Qed.

(** C10: the walker consults the pattern for directories only.  A regular
    file that is no artifact and has no artifact after it is sent on [work]
    by a walk that completes even though the pattern matches its path, the
    turn of the loop of [worker] that receives it calls nothing and changes
    nothing, and the walk of a directory that has no directory among its
    entries does not depend on the pattern at all. *)
Theorem ignored_file_is_sent_then_skipped
    (gz : Encoder) (re : RegexpEngine) (ignore : Regexp re)
    (prefix : string) (before later : list (string * Tree)) (name : string) :
  (strings_HasSuffix name ".gz" = false ->
   find_sibling (name +:+ ".gz") (map fst later) = false ->
   MatchString re ignore (filepath_Join [prefix; name]) = true ->
   snd (recurse re (Directory (before ++ (name, Regular) :: later)) prefix ignore) = None ->
   In (filepath_Join [prefix; name])
      (fst (recurse re (Directory (before ++ (name, Regular) :: later)) prefix ignore))
   /\ forall root m n out fs,
        worker_body gz re root m ignore (filepath_Join [prefix; name]) n out fs
        = (fs, out, Continue n))
  /\ (forall dirs ignore',
        Forall (fun e => IsDir (snd e) = false) dirs ->
        recurse re (Directory dirs) prefix ignore = recurse re (Directory dirs) prefix ignore').
Proof.
  split.
  - intros Hsuf Hsib Hm Hok. split.
    + cbn [recurse] in *. by apply walk_entries_sends.
    + intros root m n out fs. unfold worker_body. by rewrite Hm.
  - intros dirs ignore' Hflat. cbn [recurse].
    induction Hflat as [|[name' d] dirs Hd Hflat IH]; [done|].
    cbn [walk_entries]. rewrite IH. by destruct d.
Qed.

Lemma ignored_file_is_sent_then_skipped_witness :
  In (filepath_Join [""; "x"])
     (fst (recurse syntax.engine (Directory ([("a", Regular)] ++ ("x", Regular) :: [("y", Regular)]))
             ""
             (syntax.OpConcat syntax.OpBeginText
                (syntax.OpConcat (syntax.OpLiteral "x") syntax.OpEndText))))
  /\ worker_body toy_gzip syntax.engine "/r" 7
       (syntax.OpConcat syntax.OpBeginText
          (syntax.OpConcat (syntax.OpLiteral "x") syntax.OpEndText))
       (filepath_Join [""; "x"]) 0 [] (sample_fs [])
     = (sample_fs [], [], Continue 0).
Proof.
  destruct (proj1 (ignored_file_is_sent_then_skipped toy_gzip syntax.engine
              (syntax.OpConcat syntax.OpBeginText
                 (syntax.OpConcat (syntax.OpLiteral "x") syntax.OpEndText))
              "" [("a", Regular)] [("y", Regular)] "x")) as [H1 H2];
    [reflexivity ..|].
  split; [exact H1 | apply H2].
Defined.

(** ** The ignore pattern *)

(** C2, on the code: with the fragments [a] and [b] the expression compiled
    is [^a|b$], in which [^] belongs to the first and [$] to the last
    alternative, so the path [ax] is ignored although no fragment matches
    the whole of it; with a single fragment the two readings agree on the
    same path.  Fragments that do not form a valid expression make
    [Recursive] return the error of [Compile] with count 0, whatever the
    engine and the schedule, and leave the file system as it was. *)
Theorem Recursive_pattern_anchors_outer_fragments_only :
  ignored ["a"; "b"] "ax" = true
  /\ some_fragment_matches_whole ["a"; "b"] "ax" = false
  /\ ignored ["a"; "b"] "xb" = true
  /\ some_fragment_matches_whole ["a"; "b"] "xb" = false
  /\ ignored ["a|b"] "ax" = true
  /\ ignored ["ax"] "ax" = some_fragment_matches_whole ["ax"] "ax"
  /\ (forall gz re schedule root m concurrency ignorePattern t fs err,
        Compile re ("^" +:+ strings_Join ignorePattern "|" +:+ "$") = inr err ->
        Recursive gz re schedule root m concurrency ignorePattern t fs
        = Some (fs, (0, Some err)))
  /\ forall gz schedule root m concurrency t fs,
       Recursive gz syntax.engine schedule root m concurrency ["("; "a"] t fs
       = Some (fs, (0, Some (SyntaxError "^(|a$"))).
Proof.
  split_and!; try reflexivity.
  intros gz re schedule root m concurrency ignorePattern t fs err Herr.
  unfold Recursive. by rewrite Herr.
Qed.

Lemma search_empty_anchored_not_at_start (s : list ascii) :
  syntax.search (syntax.OpConcat syntax.OpBeginText syntax.OpEndText) false s = false.
Proof. induction s as [|c s IH]; simpl; [done | exact IH]. Qed.

(** The expression [^$] matches the empty text only. *)
Lemma MatchString_empty_anchored (s : string) :
  syntax.MatchString (syntax.OpConcat syntax.OpBeginText syntax.OpEndText) s = true <-> s = "".
Proof.
  unfold syntax.MatchString. destruct s as [|c s]; [done|].
  cbn [list_ascii_of_string syntax.search syntax.matches andb orb].
  rewrite search_empty_anchored_not_at_start. done.
Qed.

Lemma filepath_Clean_nonempty (path : string) : filepath_Clean path <> "".
Proof.
  unfold filepath_Clean.
  destruct (path =? "")%string; [done|].
  destruct (String.prefix "/" path); [done|].
  by destruct (String.eqb_spec (String.concat "/"
       (rev (fold_left (clean_step false) (split_slash path) []))) "").
Qed.

(** The path of an entry is not empty. *)
Lemma filepath_Join_nonempty (prefix name : string) :
  name <> "" -> filepath_Join [prefix; name] <> "".
Proof.
  intros Hname. unfold filepath_Join.
  destruct (prefix =? "")%string; [|apply filepath_Clean_nonempty].
  apply String.eqb_neq in Hname. rewrite Hname. apply filepath_Clean_nonempty.
Qed.

(** ** What a call of the compressor touches *)

Lemma IfSmallerBuffer_failure_is_false gz path m out fs :
  snd (snd (IfSmallerBuffer gz path m out fs)) <> None ->
  fst (snd (IfSmallerBuffer gz path m out fs)) = false.
Proof.
  destruct (IfSmallerBuffer gz path m out fs) as [[fs' out'] [c e]] eqn:H.
  unfold IfSmallerBuffer in H. cbn.
  repeat split_scrutinee H; by simplify_eq.
Qed.

Lemma IfSmallerBuffer_oplog gz path m out fs :
  exists ops,
    oplog (fst (fst (IfSmallerBuffer gz path m out fs))) = (oplog fs ++ ops)%list
    /\ Forall (concerns path) ops.
Proof.
  destruct (IfSmallerBuffer gz path m out fs) as [[fs' out'] [c e]] eqn:H.
  unfold IfSmallerBuffer in H. cbn [fst].
  repeat split_scrutinee H; cbv zeta in H; simplify_eq;
    repeat match goal with
    | H : os_Stat _ _ = _ |- _ => apply os_Stat_log in H as ->
    | H : os_Open _ _ = _ |- _ => apply os_Open_log in H as ->
    | H : io_CopyBuffer _ _ _ _ _ = _ |- _ => apply io_CopyBuffer_log in H as ->
    | H : (if ?b then _ else _) = _ |- _ => destruct b; simplify_eq
    | H : os_WriteFile _ _ _ _ = (_, None) |- _ => apply os_WriteFile_ok in H as (? & ->)
    | H : os_WriteFile _ _ _ _ = (_, Some _) |- _ =>
        apply os_WriteFile_failed in H as [_ [->|(? & ? & ->)]]
    | H : os_Chtimes _ _ _ = (_, None) |- _ => apply os_Chtimes_ok in H as (? & ? & ->)
    | H : os_Chtimes _ _ _ = (_, Some _) |- _ => apply os_Chtimes_failed in H as [-> _]
    | H : os_Rename _ _ _ = (_, None) |- _ => apply os_Rename_ok in H as (? & ? & ->)
    | H : os_Rename _ _ _ = (_, Some _) |- _ => apply os_Rename_failed in H as [-> _]
    end;
    cbn; rewrite <- ?app_assoc; eexists; (split; [reflexivity|]);
    repeat first [apply List.Forall_nil | apply List.Forall_cons]; cbn; auto.
Qed.

(** ** The pool of goroutines *)

Lemma sumZ_insert (l : list Z) i x y :
  l !! i = Some x -> sumZ (<[i := y]> l) = sumZ l - x + y.
Proof.
  revert i. induction l as [|z l IH]; intros [|i] H; simplify_eq/=; [lia|].
  rewrite (IH i) by done. lia.
Qed.

Lemma changed_by_app i h1 h2 :
  changed_by i (h1 ++ h2) = (changed_by i h1 + changed_by i h2)%nat.
Proof.
  induction h1 as [|[j s [|] e|j e] h1 IH]; simpl; try done. rewrite IH. lia.
Qed.

Lemma first_published_app h1 h2 :
  first_published (h1 ++ h2) =
    match first_published h1 with Some e => Some e | None => first_published h2 end.
Proof. induction h1 as [|[j s c e|j e] h1 IH]; simpl; done. Qed.

Lemma failed_by_app i h1 h2 :
  failed_by i (h1 ++ h2) = failed_by i h1 || failed_by i h2.
Proof. unfold failed_by. apply existsb_app. Qed.

Lemma count_invoked_app h1 h2 :
  count_invoked (h1 ++ h2) = (count_invoked h1 + count_invoked h2)%nat.
Proof. induction h1 as [|[j s c e|j e] h1 IH]; simpl; [done | by rewrite IH | done]. Qed.

Lemma failed_by_false i h s c e :
  failed_by i h = false -> ~ In (Invoked i s c (Some e)) h.
Proof.
  unfold failed_by. intros H Hin.
  assert (existsb (fun ev => match ev with
                             | Invoked j _ _ (Some _) => Nat.eqb i j
                             | _ => false
                             end) h = true) as H'; [|congruence].
  apply existsb_exists. eexists. split; [exact Hin|]. apply Nat.eqb_refl.
Qed.

Lemma stops_after_failure_snoc h ev :
  stops_after_failure h ->
  (forall i s c e, ev = Invoked i s c e -> failed_by i h = false) ->
  stops_after_failure (h ++ [ev]).
Proof.
  intros Hh Hev h1 i s c e h2 Heq s' c' e' Hin.
  destruct h2 as [|ev' h2 _] using rev_ind; [done|].
  rewrite app_comm_cons, app_assoc in Heq.
  apply app_inj_tail in Heq as [Hh' Hev']. subst.
  apply in_app_or in Hin as [Hin|[Hin|[]]].
  - by eapply Hh.
  - eapply failed_by_false; [by eapply Hev|].
    apply in_or_app. right. by left.
Qed.

Section Invariants.

Context (gz : Encoder) (re : RegexpEngine).
Context (root : string) (m : Z) (ignore : Regexp re).

Local Abbreviation turn := (turn gz re root m ignore).
Local Abbreviation transition := (transition gz re root m ignore).

(** What a turn of the loop of [worker] does. *)
Lemma worker_body_cases s n out fs fs' out' fl :
  worker_body gz re root m ignore s n out fs = (fs', out', fl) ->
  (MatchString re ignore s = true /\ fs' = fs /\ out' = out /\ fl = Continue n)
  \/ (MatchString re ignore s = false
      /\ fs' = fst (fst (IfSmallerBuffer gz (filepath_Join [root; s]) m out fs))
      /\ out' = snd (fst (IfSmallerBuffer gz (filepath_Join [root; s]) m out fs))
      /\ match snd (snd (IfSmallerBuffer gz (filepath_Join [root; s]) m out fs)) with
         | Some err =>
             fl = Return n err
             /\ fst (snd (IfSmallerBuffer gz (filepath_Join [root; s]) m out fs)) = false
         | None =>
             fl = Continue
                    (if fst (snd (IfSmallerBuffer gz (filepath_Join [root; s]) m out fs))
                     then wrap64 (n + 1) else n)
         end).
Proof.
  unfold worker_body. destruct (MatchString re ignore s); [intros; simplify_eq; auto|].
  pose proof (IfSmallerBuffer_failure_is_false gz (filepath_Join [root; s]) m out fs) as Hf.
  destruct (IfSmallerBuffer gz (filepath_Join [root; s]) m out fs) as [[fs1 out1] [c [e|]]];
    intros; simplify_eq; right; cbn in *; split_and!; auto.
Qed.

Ltac step_cases H :=
  match type of H with
  | step _ _ _ _ _ ?a _ = Some _ =>
      destruct a as [|?i]; cbn [step] in H;
      [unfold step_main in H | unfold step_go, set_routine in H];
      repeat match type of H with
             | context [match ?x with _ => _ end] => destruct x eqn:?; try discriminate H
             end;
      cbv zeta in H; simplify_eq
  end.

Lemma step_shape a p p' :
  step gz re root m ignore a p = Some p' ->
  length (routines p') = length (routines p) /\ cap p' = cap p
  /\ walk_err p' = walk_err p.
Proof.
  intros H. step_cases H; cbn; by rewrite ?length_insert.
Qed.

Context (items0 : list string) (fs0 : FS).

Local Abbreviation pool_ok := (pool_ok re root ignore items0 fs0).

Lemma step_transition a p p' :
  step gz re root m ignore a p = Some p' -> transition p p'.
Proof.
  destruct a as [|i]; cbn [step].
  - unfold step_main.
    destruct (unsent p) as [|s rest] eqn:Hu; destruct (closed p) eqn:Hc; try done.
    + intros [= <-]. by apply tr_close.
    + destruct (Z.ltb_spec (Z.of_nat (length (work p))) (cap p)); [|done].
      intros [= <-]. by apply tr_send.
  - unfold step_go, set_routine.
    destruct (routines p !! i) as [[n out|n err|n err|n|n]|] eqn:Hi; try done.
    + destruct (work p) as [|s rest] eqn:Hw.
      * destruct (closed p) eqn:Hc; [|done]. intros [= <-]. by eapply tr_return.
      * destruct (worker_body gz re root m ignore s n out (disk p)) as [[fs' out'] fl] eqn:Hb.
        intros [= <-]. eapply tr_receive; [done | done |].
        apply worker_body_cases in Hb as [(Hm & -> & -> & ->)|(Hm & -> & -> & Hfl)].
        { rewrite Hm. by apply turn_ignored. }
        rewrite Hm.
        destruct (IfSmallerBuffer gz (filepath_Join [root; s]) m out (disk p))
          as [[fs1 out1] [c [e|]]] eqn:Hcall; cbn [fst snd] in *.
        { destruct Hfl as [-> ->]. by eapply turn_failed. }
        subst fl. destruct c; [by eapply turn_changed | by eapply turn_unchanged].
    + intros [= <-]. apply (tr_add gz re root m ignore p i n err Hi).
    + intros [= <-]. by apply tr_publish.
    + destruct (work p) as [|s rest] eqn:Hw.
      * destruct (closed p) eqn:Hc; [|done]. intros [= <-]. by eapply tr_finish.
      * intros [= <-]. by eapply tr_purge.
Qed.

Lemma turn_count i n out s fs g ev fs' h :
  turn i n out s fs g ev fs' ->
  n = wrap64 (Z.of_nat (changed_by i h)) ->
  returned_count g = wrap64 (Z.of_nat (changed_by i (h ++ ev))).
Proof.
  intros Ht Hn. rewrite changed_by_app.
  destruct Ht; cbn [returned_count changed_by]; rewrite ?Nat.eqb_refl, ?Nat.add_0_r; try done.
  by rewrite Hn, wrap64_add_l, Nat2Z.inj_add.
Qed.

Lemma turn_other i n out s fs g ev fs' h j :
  turn i n out s fs g ev fs' -> i <> j ->
  changed_by j (h ++ ev) = changed_by j h /\ failed_by j (h ++ ev) = failed_by j h.
Proof.
  intros Ht Hij. rewrite changed_by_app, failed_by_app.
  apply Nat.eqb_neq in Hij. rewrite Nat.eqb_sym in Hij.
  destruct Ht; cbn; rewrite ?Hij, ?orb_false_r; split; lia || done.
Qed.

Lemma turn_quiet i n out s fs g ev fs' h :
  turn i n out s fs g ev fs' ->
  added_count g = 0
  /\ first_published (h ++ ev) = first_published h
  /\ (count_invoked ev <= 1)%nat
  /\ (forall k, g <> Finished k)
  /\ (forall n' out', g = Working n' out' -> failed_by i (h ++ ev) = failed_by i h)
  /\ (forall ev0, In ev0 ev ->
        exists c e, ev0 = Invoked i s c e /\ MatchString re ignore s = false)
  /\ exists ops,
       oplog fs' = (oplog fs ++ ops)%list
       /\ Forall (concerns (filepath_Join [root; s])) ops
       /\ (ev = [] -> ops = []).
Proof.
  intros Ht. rewrite first_published_app, failed_by_app.
  assert (forall fs1 out1 r,
            IfSmallerBuffer gz (filepath_Join [root; s]) m out fs = (fs1, out1, r) ->
            exists ops, oplog fs1 = (oplog fs ++ ops)%list
                        /\ Forall (concerns (filepath_Join [root; s])) ops) as Hlog.
  { intros fs1 out1 r Hcall.
    destruct (IfSmallerBuffer_oplog gz (filepath_Join [root; s]) m out fs) as (ops & H1 & H2).
    rewrite Hcall in H1. eauto. }
  destruct Ht as [Hm|fs1 out1 Hm Hcall|fs1 out1 Hm Hcall|fs1 out1 err Hm Hcall];
    cbn; rewrite ?orb_false_r; (split_and!; [done | by destruct (first_published h) | lia
      | done | done | | ]).
  - intros ev0 [].
  - exists []. by rewrite app_nil_r.
  - intros ev0 [<-|[]]. eauto.
  - apply Hlog in Hcall as (ops & ? & ?). exists ops. by split_and!.
  - intros ev0 [<-|[]]. eauto.
  - apply Hlog in Hcall as (ops & ? & ?). exists ops. by split_and!.
  - intros ev0 [<-|[]]. eauto.
  - apply Hlog in Hcall as (ops & ? & ?). exists ops. by split_and!.
Qed.

Ltac insert_cases H :=
  apply list_lookup_insert_Some in H as [(<- & ? & ?)|(? & H)]; simplify_eq.

Lemma total_insert (l : list goroutine) i g g' :
  l !! i = Some g ->
  sumZ (map added_count (<[i := g']> l))
  = sumZ (map added_count l) - added_count g + added_count g'.
Proof.
  intros H. change (map added_count (<[i := g']> l)) with (added_count <$> <[i := g']> l).
  rewrite list_fmap_insert. apply sumZ_insert.
  by rewrite list_lookup_fmap, H.
Qed.

Lemma changed_by_published j h i err :
  changed_by j (h ++ [Published i err]) = changed_by j h.
Proof. rewrite changed_by_app. simpl. lia. Qed.

Lemma failed_by_published j h i err :
  failed_by j (h ++ [Published i err]) = failed_by j h.
Proof. rewrite failed_by_app. simpl. by rewrite orb_false_r. Qed.

Lemma transition_ok p p' : pool_ok p -> transition p p' -> pool_ok p'.
Proof.
  intros [Hc Ht Hf Hw Hs Hq Hi Hl Hb Hfin] Htr.
  destruct Htr as [s rest Hu Hcl Hcap|Hu Hcl|i n out s rest g ev fs' Hr Hwk Hturn
                  |i n out Hr Hwk Hcl|i n err Hr|i n err Hr|i n s rest Hr Hwk|i n Hr Hwk Hcl];
    constructor; cbn [unsent walk_err closed work cap routines total firstErr disk history];
    try done.
  - (* send *)
    intros s' Hs'. apply Hq. rewrite Hu.
    apply in_app_or in Hs' as [?|[?|[<-|[]]]%in_app_or];
      [right | | left; done]; apply in_or_app; auto.
  - rewrite Hu in Hb. rewrite length_app. simpl in *. lia.
  - intros j k Hj. apply Hfin in Hj as [? _]. congruence.
  - (* close *)
    intros s' Hs'. apply Hq. by rewrite Hu.
  - by rewrite Hu in Hb.
  - intros j k Hj. by apply Hfin in Hj as [_ ?].
  - (* receive *)
    intros j x Hj. insert_cases Hj.
    + eapply turn_count; [done|]. apply (Hc _ _ Hr).
    + destruct (turn_other _ _ _ _ _ _ _ _ (history p) j Hturn) as [-> _]; [done|].
      by apply Hc.
  - destruct (turn_quiet _ _ _ _ _ _ _ _ (history p) Hturn) as (Ha & _).
    rewrite (total_insert _ _ _ _ Hr), Ha. cbn. by rewrite Z.sub_0_r, Z.add_0_r.
  - destruct (turn_quiet _ _ _ _ _ _ _ _ (history p) Hturn) as (_ & -> & _). done.
  - intros j n0 out0 Hj. insert_cases Hj.
    + destruct (turn_quiet _ _ _ _ _ _ _ _ (history p) Hturn) as (_ & _ & _ & _ & Hk & _).
      rewrite (Hk _ _ eq_refl). by eapply Hw.
    + destruct (turn_other _ _ _ _ _ _ _ _ (history p) j Hturn) as [_ ->]; [done|].
      by eapply Hw.
  - destruct (turn_quiet _ _ _ _ _ _ _ _ (history p) Hturn) as (_ & _ & _ & _ & _ & Hev & _).
    destruct ev as [|ev0 [|ev1 ev]].
    + by rewrite app_nil_r.
    + apply stops_after_failure_snoc; [done|].
      intros i' s' c' e' ->. destruct (Hev _ (or_introl eq_refl)) as (c & e & [= -> -> -> ->] & _).
      by eapply Hw.
    + inversion Hturn.
  - intros s' Hs'. apply Hq. rewrite Hwk.
    apply in_app_or in Hs' as [?|?]; apply in_or_app; [by left | right; by right].
  - destruct (turn_quiet _ _ _ _ _ _ _ _ (history p) Hturn) as (_ & _ & _ & _ & _ & Hev & _).
    intros j s' c e [Hin|Hin]%in_app_or; [by eapply Hi|].
    destruct (Hev _ Hin) as (c' & e' & [= -> -> -> ->] & Hm). split; [|done].
    apply Hq. rewrite Hwk. apply in_or_app. right. by left.
  - destruct (turn_quiet _ _ _ _ _ _ _ _ (history p) Hturn)
      as (_ & _ & _ & _ & _ & Hev & ops & -> & Hops & Hnil).
    intros op [Hin|Hin]%in_app_or.
    + destruct (Hl _ Hin) as [?|(j & s' & c & e & ? & ?)]; [by left|].
      right. exists j, s', c, e. split; [|done]. apply in_or_app. by left.
    + right. destruct ev as [|ev0 ev]; [by rewrite Hnil in Hin|].
      destruct (Hev _ (or_introl eq_refl)) as (c & e & -> & _).
      exists i, s, c, e. split; [apply in_or_app; right; by left|].
      rewrite List.Forall_forall in Hops. by apply Hops.
  - destruct (turn_quiet _ _ _ _ _ _ _ _ (history p) Hturn) as (_ & _ & Hle & _).
    rewrite count_invoked_app. rewrite Hwk in Hb. simpl in Hb. lia.
  - destruct (turn_quiet _ _ _ _ _ _ _ _ (history p) Hturn) as (_ & _ & _ & Hnf & _).
    intros j k Hj. insert_cases Hj; [by destruct (Hnf k)|].
    apply Hfin in Hj as [_ ?]. congruence.
  - (* return *)
    intros j x Hj. insert_cases Hj; [apply (Hc _ _ Hr) | by apply Hc].
  - by rewrite (total_insert _ _ _ _ Hr), Z.sub_0_r, Z.add_0_r.
  - intros j n0 out0 Hj. insert_cases Hj. by eapply Hw.
  - intros s' Hs'. apply Hq. by rewrite Hwk.
  - by rewrite Hwk in Hb.
  - (* add *)
    intros j x Hj. insert_cases Hj; [|by apply Hc].
    rewrite <- (Hc _ _ Hr). by destruct err.
  - rewrite (total_insert _ _ _ _ Hr), Ht, wrap64_add_l.
    f_equal. destruct err; cbn; lia.
  - intros j n0 out0 Hj. insert_cases Hj; [by destruct err | by eapply Hw].
  - intros j k Hj. insert_cases Hj; [by destruct err | by eapply Hfin].
  - (* publish *)
    intros j x Hj. rewrite changed_by_published.
    insert_cases Hj; [apply (Hc _ _ Hr) | by apply Hc].
  - by rewrite (total_insert _ _ _ _ Hr), Z.sub_add.
  - rewrite first_published_app, <- Hf. by destruct (firstErr p).
  - intros j n0 out0 Hj. rewrite failed_by_published.
    insert_cases Hj. by eapply Hw.
  - apply stops_after_failure_snoc; [done|]. intros; discriminate.
  - intros j s' c e [Hin|[?|[]]]%in_app_or; [by eapply Hi | discriminate].
  - intros op Hop. destruct (Hl _ Hop) as [?|(j & s' & c & e & ? & ?)]; [by left|].
    right. exists j, s', c, e. split; [|done]. apply in_or_app. by left.
  - rewrite count_invoked_app. simpl. lia.
  - intros j k Hj. insert_cases Hj. by eapply Hfin.
  - (* purge *)
    intros s' Hs'. apply Hq. rewrite Hwk.
    apply in_app_or in Hs' as [?|?]; apply in_or_app; [by left | right; by right].
  - rewrite Hwk in Hb. simpl in Hb. lia.
  - intros j k Hj. apply Hfin in Hj as [_ ?]. congruence.
  - (* finish *)
    intros j x Hj. insert_cases Hj; [apply (Hc _ _ Hr) | by apply Hc].
  - by rewrite (total_insert _ _ _ _ Hr), Z.sub_add.
  - intros j n0 out0 Hj. insert_cases Hj. by eapply Hw.
  - intros s' Hs'. apply Hq. by rewrite Hwk.
  - by rewrite Hwk in Hb.
Qed.

Lemma run_ok schedule p :
  pool_ok p -> pool_ok (run gz re root m ignore schedule p).
Proof.
  revert p. induction schedule as [|a schedule IH]; intros p Hok; [done|].
  simpl. destruct (step gz re root m ignore a p) as [p'|] eqn:Hstep; [|by apply IH].
  apply IH. eapply transition_ok; [done|]. by eapply step_transition.
Qed.

Lemma run_shape schedule p :
  length (routines (run gz re root m ignore schedule p)) = length (routines p)
  /\ cap (run gz re root m ignore schedule p) = cap p
  /\ walk_err (run gz re root m ignore schedule p) = walk_err p.
Proof.
  revert p. induction schedule as [|a schedule IH]; intros p; [done|].
  simpl. destruct (step gz re root m ignore a p) as [p'|] eqn:Hstep; [|by apply IH].
  destruct (step_shape _ _ _ Hstep) as (<- & <- & <-). apply IH.
Qed.

End Invariants.

Lemma sumZ_replicate_0 (f : goroutine -> Z) n g :
  f g = 0 -> sumZ (map f (replicate n g)) = 0.
Proof. intros H. induction n as [|n IH]; simpl; [done | lia]. Qed.

Lemma start_ok re root concurrency (ignore : Regexp re) t fs :
  pool_ok re root ignore (fst (recurse re t "" ignore)) fs
          (start re concurrency ignore t fs).
Proof.
  unfold start. constructor; cbn; try done.
  - intros i g [-> _]%lookup_replicate. by rewrite wrap64_small.
  - fold (sumZ (map added_count (replicate (Z.to_nat concurrency) (Working 0 [])))).
    by rewrite sumZ_replicate_0.
  - intros h1 i s c e h2 H. by destruct h1.
  - intros s Hs. by apply in_app_or in Hs as [?|[]].
  - intros op Hop. by left.
  - intros i n [? _]%lookup_replicate. done.
Qed.

(** ** Published errors *)

Section Errors.

Context (gz : Encoder) (re : RegexpEngine).
Context (root : string) (m : Z) (ignore : Regexp re).

Lemma transition_errors_ok p p' :
  errors_ok p -> transition gz re root m ignore p p' -> errors_ok p'.
Proof.
  intros [Hp Hq] Htr.
  assert (forall ev i e, (exists s, In (Invoked i s false (Some e)) (history p)) ->
                         exists s, In (Invoked i s false (Some e)) (history p ++ ev)) as Hmono.
  { intros ev i e [s Hs]. exists s. apply in_or_app. by left. }
  assert (forall (g : goroutine) i,
            (forall n e, g <> Returned n (Some e)) -> (forall n e, g <> Publishing n e) ->
            forall j n e,
              <[i := g]> (routines p) !! j = Some (Returned n (Some e)) \/
              <[i := g]> (routines p) !! j = Some (Publishing n e) ->
              exists s, In (Invoked j s false (Some e)) (history p)) as Hquiet.
  { intros g i Hg1 Hg2 j n e [Hj|Hj];
      apply list_lookup_insert_Some in Hj as [(_ & Hg & _)|(_ & Hj)];
      first [by subst; edestruct Hg1 | by subst; edestruct Hg2 | eapply Hp; eauto]. }
  destruct Htr as [s rest Hu Hcl Hcap|Hu Hcl|i n out s rest g ev fs' Hr Hwk Hturn
                  |i n out Hr Hwk Hcl|i n err Hr|i n err Hr|i n s rest Hr Hwk|i n Hr Hwk Hcl];
    constructor; cbn [unsent walk_err closed work cap routines total firstErr disk history];
    try done; try (by apply Hquiet).
  - destruct Hturn as [Hm|fs1 out1 Hm Hcall|fs1 out1 Hm Hcall|fs1 out1 err Hm Hcall].
    1-3: intros j k e Hj; apply Hmono; revert j k e Hj; by apply Hquiet.
    intros j k e [Hj|Hj]; apply list_lookup_insert_Some in Hj as [(<- & Hg & _)|(_ & Hj)];
      simplify_eq; first [by apply Hmono; eapply Hp; eauto | idtac].
    exists s. apply in_or_app. right. by left.
  - intros j e [Hin|Hin]%in_app_or; [by apply Hmono, Hq|].
    destruct Hturn; simpl in Hin; repeat destruct Hin as [Hin|Hin]; done.
  - destruct err as [e0|]; [|by apply Hquiet].
    intros j k e [Hj|Hj]; apply list_lookup_insert_Some in Hj as [(<- & Hg & _)|(_ & Hj)];
      simplify_eq; eapply Hp; eauto.
  - intros j k e Hj; apply Hmono; revert j k e Hj; by apply Hquiet.
  - intros j e [Hin|[Hin|[]]]%in_app_or; [by apply Hmono, Hq|].
    simplify_eq. apply Hmono. eapply Hp; eauto.
Qed.

Lemma run_errors_ok schedule p :
  errors_ok p -> errors_ok (run gz re root m ignore schedule p).
Proof.
  revert p. induction schedule as [|a schedule IH]; intros p Hok; [done|].
  simpl. destruct (step gz re root m ignore a p) as [p'|] eqn:Hstep; [|by apply IH].
  apply IH. eapply transition_errors_ok; [done|]. by eapply step_transition.
Qed.

End Errors.

Lemma start_errors_ok re concurrency (ignore : Regexp re) t fs :
  errors_ok (start re concurrency ignore t fs).
Proof.
  unfold start. constructor; cbn; [|done].
  intros i n e [[? _]%lookup_replicate|[? _]%lookup_replicate]; done.
Qed.

Lemma first_published_In h e :
  first_published h = Some e -> exists i, In (Published i e) h.
Proof.
  induction h as [|[j s c e'|j e'] h IH]; simpl; [done | |].
  - intros [i Hi]%IH. exists i. by right.
  - intros [= ->]. exists j. by left.
Qed.

(** ** The result of [Recursive] *)

Lemma changed_by_le i h : (changed_by i h <= count_invoked h)%nat.
Proof.
  induction h as [|[j s [|] e|j e] h IH]; simpl; try lia.
  destruct (Nat.eqb i j); lia.
Qed.

Lemma sumZ_map_add {A} (f g : A -> Z) l :
  sumZ (map (fun x => f x + g x) l) = sumZ (map f l) + sumZ (map g l).
Proof. induction l as [|x l IH]; simpl; [done|]. fold (sumZ (map f l)) (sumZ (map g l)) (sumZ (map (fun x => f x + g x) l)). lia. Qed.

Lemma sumZ_indicator j a n :
  sumZ (map (fun i => if Nat.eqb i j then 1 else 0) (seq a n))
  = if decide (a <= j < a + n)%nat then 1 else 0.
Proof.
  revert a. induction n as [|n IH]; intros a; simpl.
  - case_decide; [lia | done].
  - fold (sumZ (map (fun i => if Nat.eqb i j then 1 else 0) (seq (S a) n))).
    rewrite IH. destruct (Nat.eqb_spec a j); repeat case_decide; lia.
Qed.

(** The counts of the goroutines add up to at most the number of calls. *)
Lemma sum_changed_le h a n :
  sumZ (map (fun i => Z.of_nat (changed_by i h)) (seq a n)) <= Z.of_nat (count_invoked h).
Proof.
  induction h as [|[j s [|] e|j e] h IH]; simpl.
  - induction (seq a n) as [|x l IHl]; simpl; [done|].
    fold (sumZ (map (fun _ : nat => 0) l)). lia.
  - rewrite (map_ext _ (fun i => (if Nat.eqb i j then 1 else 0) + Z.of_nat (changed_by i h))).
    2: { intros i. destruct (Nat.eqb i j); lia. }
    rewrite sumZ_map_add, sumZ_indicator. case_decide; lia.
  - lia.
  - done.
Qed.

Lemma sumZ_nonneg l : Forall (fun x => 0 <= x) l -> 0 <= sumZ l.
Proof. induction 1; simpl; [done|]. fold (sumZ l). lia. Qed.

(** C7: when [Recursive] returns, the count is the sum of the counts that
    the calls of [worker] returned, each of which is the number of calls of
    the compressor by that goroutine that reported a change; the error is
    that of [recurse] if it has one, and otherwise the error of the first
    [CompareAndSwap], which is the error of a failed call; and a goroutine
    made no call after a call of its own failed.  (The number of paths sent
    is within the range of [int64].) *)
Theorem Recursive_result
    (gz : Encoder) (re : RegexpEngine) (schedule : list actor) (root : string) (m : Z)
    (concurrency : Z) (ignorePattern : list string) (t : Tree) (fs : FS)
    (ignore : Regexp re) (fs' : FS) (tot : Z) (err : option error) :
  Compile re ("^" +:+ strings_Join ignorePattern "|" +:+ "$") = inl ignore ->
  Z.of_nat (length (fst (recurse re t "" ignore))) < 2 ^ 63 ->
  Recursive gz re schedule root m concurrency ignorePattern t fs = Some (fs', (tot, err)) ->
  let p := run gz re root m ignore schedule (start re concurrency ignore t fs) in
  tot = sumZ (map returned_count (routines p))
  /\ length (routines p) = Z.to_nat concurrency
  /\ (forall i g,
        routines p !! i = Some g ->
        returned_count g = Z.of_nat (changed_by i (history p)))
  /\ err = match snd (recurse re t "" ignore) with
           | Some e => Some e
           | None => first_published (history p)
           end
  /\ (forall e,
        first_published (history p) = Some e ->
        exists i s, In (Invoked i s false (Some e)) (history p))
  /\ stops_after_failure (history p)
  /\ fs' = disk p.
Proof.
  intros Hcompile Hsmall Hrec p. unfold Recursive in Hrec. rewrite Hcompile in Hrec.
  destruct (wrap64 (concurrency * 10) <? 0); [done|].
  fold p in Hrec. destruct (outcome p) as [[tot' err']|] eqn:Hout; [|done].
  simplify_eq. unfold outcome in Hout.
  destruct (closed p && forallb is_finished (routines p)) eqn:Hdone; [|done].
  apply andb_prop in Hdone as [_ Hfin]. simplify_eq.
  pose proof (run_ok gz re root m ignore _ fs schedule _
                (start_ok re root concurrency ignore t fs)) as Hok.
  fold p in Hok. destruct Hok as [Hc Ht Hf _ Hs _ _ _ Hb _].
  destruct (run_shape gz re root m ignore schedule (start re concurrency ignore t fs))
    as (Hlen & _ & Hwalk).
  fold p in Hlen, Hwalk. cbn in Hlen, Hwalk. rewrite length_replicate in Hlen.
  assert (forall i, Z.of_nat (changed_by i (history p)) < 2 ^ 63) as Hbound.
  { intros i. pose proof (changed_by_le i (history p)). lia. }
  assert (forall i g, routines p !! i = Some g ->
                      returned_count g = Z.of_nat (changed_by i (history p))) as Hcount.
  { intros i g Hg. rewrite (Hc _ _ Hg). apply wrap64_small.
    specialize (Hbound i). lia. }
  assert (map returned_count (routines p)
          = map (fun i => Z.of_nat (changed_by i (history p))) (seq 0 (length (routines p))))
    as Hmap.
  { apply list_eq. intros i.
    change (map returned_count (routines p)) with (returned_count <$> routines p).
    change (map (fun i => Z.of_nat (changed_by i (history p))) (seq 0 (length (routines p))))
      with ((fun i => Z.of_nat (changed_by i (history p))) <$> seq 0 (length (routines p))).
    rewrite !list_lookup_fmap.
    destruct (routines p !! i) as [g|] eqn:Hg.
    - rewrite (proj2 (lookup_seq 0 _ i i)); [|by split; [|eapply lookup_lt_Some]].
      cbn. f_equal. by apply Hcount.
    - apply lookup_ge_None in Hg.
      destruct (seq 0 (length (routines p)) !! i) as [x|] eqn:Hx; [|done].
      apply lookup_seq in Hx as [_ ?]. lia. }
  assert (map added_count (routines p) = map returned_count (routines p)) as Hadded.
  { apply map_ext_in. intros g Hg. rewrite forallb_forall in Hfin.
    specialize (Hfin g Hg). by destruct g. }
  split_and!; [|done | done | by rewrite Hwalk, Hf | | done | done].
  2: { intros e [i Hi]%first_published_In.
       pose proof (run_errors_ok gz re root m ignore schedule _
                     (start_errors_ok re concurrency ignore t fs)) as [_ He].
       fold p in He. destruct (He _ _ Hi) as [s0 Hs0]. eauto. }
  rewrite Ht, Hadded. apply wrap64_small. rewrite Hmap.
  pose proof (sum_changed_le (history p) 0 (length (routines p))).
  assert (0 <= sumZ (map (fun i => Z.of_nat (changed_by i (history p)))
                         (seq 0 (length (routines p))))).
  { apply sumZ_nonneg. apply List.Forall_forall. intros x [i [<- _]]%in_map_iff. lia. }
  lia.
Qed.

Lemma Recursive_result_witness :
  1 = sumZ (map returned_count (routines sample_pool))
  /\ length (routines sample_pool) = Z.to_nat 2
  /\ (forall i g,
        routines sample_pool !! i = Some g ->
        returned_count g = Z.of_nat (changed_by i (history sample_pool)))
  /\ Some (PathError "stat" "/r/c")
      = match snd (recurse syntax.engine sample_tree "" ignore_nothing) with
        | Some e => Some e
        | None => first_published (history sample_pool)
        end
  /\ (forall e,
        first_published (history sample_pool) = Some e ->
        exists i s, In (Invoked i s false (Some e)) (history sample_pool))
  /\ stops_after_failure (history sample_pool)
  /\ disk sample_pool = disk sample_pool.
Proof.
  apply (Recursive_result toy_gzip syntax.engine sample_schedule "/r" 7 2 []
           sample_tree sample_disk ignore_nothing (disk sample_pool) 1
           (Some (PathError "stat" "/r/c"))).
  - reflexivity.
  - vm_compute. reflexivity.
  - vm_compute. reflexivity.
Defined.

(** ** Ignored directories *)

(** No directory above a path that the walk sends is matched by the
    pattern. *)
Lemma recurse_ancestors re (ignore : Regexp re) t s d rest :
  well_formed t = true ->
  In s (fst (recurse re t "" ignore)) ->
  s = d +:+ String "/" rest ->
  MatchString re ignore d = false.
Proof.
  intros Hwf Hin Hs.
  apply (recurse_items re ignore t [] s Hwf) in Hin as (cs & Hne & Hcs & Hpath & Hj);
    [|done].
  simpl in Hpath.
  assert (split_slash s = cs) as Hsplit.
  { rewrite Hpath. apply split_path_of; auto using Forall_valid_no_slash. }
  rewrite Hs, split_slash_app in Hsplit.
  pose proof (split_slash_nonempty d) as Hd.
  pose proof (split_slash_nonempty rest) as Hrest.
  specialize (Hj (length (split_slash d))). simpl in Hj.
  rewrite <- Hsplit, take_app_length, path_of_split in Hj. apply Hj.
  rewrite length_app.
  destruct (split_slash d), (split_slash rest); simpl; try done; lia.
Qed.

(** C6: in every state that a run reaches on a tree as the file system
    presents it, each call of the compressor was made for a path that the
    pattern does not match and that lies below no directory the pattern
    matches; every operation on the file system since the start belongs to
    such a call, so that no artifact is created for any other path; and the
    walker sends no path below a matching directory in the first place. *)
Theorem ignored_paths_are_never_compressed
    (gz : Encoder) (re : RegexpEngine) (schedule : list actor) (root : string) (m : Z)
    (concurrency : Z) (ignore : Regexp re) (t : Tree) (fs : FS) :
  well_formed t = true ->
  let p := run gz re root m ignore schedule (start re concurrency ignore t fs) in
  (forall i s c e,
     In (Invoked i s c e) (history p) ->
     MatchString re ignore s = false
     /\ forall d rest, s = d +:+ String "/" rest -> MatchString re ignore d = false)
  /\ (forall op,
        In op (oplog (disk p)) ->
        In op (oplog fs)
        \/ exists i s c e,
             In (Invoked i s c e) (history p) /\ concerns (filepath_Join [root; s]) op)
  /\ (forall s d rest,
        In s (fst (recurse re t "" ignore)) ->
        s = d +:+ String "/" rest ->
        MatchString re ignore d = false).
Proof.
  intros Hwf p.
  pose proof (run_ok gz re root m ignore _ fs schedule _
                (start_ok re root concurrency ignore t fs)) as Hok.
  fold p in Hok. destruct Hok as [_ _ _ _ _ _ Hi Hl _ _].
  split_and!.
  - intros i s c e Hin. destruct (Hi _ _ _ _ Hin) as [Hitem Hm]. split; [done|].
    intros d rest Hs. by eapply recurse_ancestors.
  - done.
  - intros s d rest Hin Hs. by eapply recurse_ancestors.
Qed.

Lemma ignored_paths_are_never_compressed_witness :
  (forall i s c e,
     In (Invoked i s c e) (history sample_pool_ignoring) ->
     syntax.MatchString ignore_d s = false
     /\ forall d rest, s = d +:+ String "/" rest -> syntax.MatchString ignore_d d = false)
  /\ (forall op,
        In op (oplog (disk sample_pool_ignoring)) ->
        In op (oplog sample_disk)
        \/ exists i s c e,
             In (Invoked i s c e) (history sample_pool_ignoring)
             /\ concerns (filepath_Join ["/r"; s]) op)
  /\ (forall s d rest,
        In s (fst (recurse syntax.engine sample_tree "" ignore_d)) ->
        s = d +:+ String "/" rest ->
        syntax.MatchString ignore_d d = false).
Proof.
  apply (ignored_paths_are_never_compressed toy_gzip syntax.engine sample_schedule
           "/r" 7 2 ignore_d sample_tree sample_disk).
  reflexivity.
Defined.

(** ** A run without fragments *)

Section Agreement.

Context (gz : Encoder) (re1 re2 : RegexpEngine).
Context (ignore1 : Regexp re1) (ignore2 : Regexp re2).
Context (root : string) (m : Z).

Hypothesis agree :
  forall s, s <> "" -> MatchString re1 ignore1 s = MatchString re2 ignore2 s.

Lemma walk_entries_agree rec1 rec2 prefix entries :
  Forall (fun e => fst e <> "" /\ forall path, rec1 (snd e) path = rec2 (snd e) path) entries ->
  walk_entries re1 rec1 prefix ignore1 entries = walk_entries re2 rec2 prefix ignore2 entries.
Proof.
  induction 1 as [|[name d] entries [Hname Hrec] _ IH]; [done|].
  cbn [walk_entries]. cbn [fst snd] in *.
  rewrite IH, (agree (filepath_Join [prefix; name])), Hrec
    by by apply filepath_Join_nonempty.
  done.
Qed.

Lemma recurse_agree t :
  nonempty_names t = true ->
  forall prefix, recurse re1 t prefix ignore1 = recurse re2 t prefix ignore2.
Proof.
  induction t as [dirs IH|e| |] using Tree_ind_nested; intros Hwf prefix; try done.
  cbn [recurse]. apply walk_entries_agree.
  simpl in Hwf. rewrite forallb_forall in Hwf.
  apply List.Forall_forall. intros [name d] Hin.
  specialize (Hwf _ Hin). apply andb_prop in Hwf as [Hname Hd].
  rewrite List.Forall_forall in IH. specialize (IH _ Hin).
  cbn [fst snd] in *. split.
  - apply negb_true_iff in Hname. by apply String.eqb_neq.
  - intros path. by apply IH.
Qed.

Lemma recurse_sends_nonempty t :
  nonempty_names t = true ->
  forall prefix s, In s (fst (recurse re1 t prefix ignore1)) -> s <> "".
Proof.
  induction t as [dirs IH|e| |] using Tree_ind_nested; intros Hwf prefix s Hin; try done.
  cbn [recurse] in Hin.
  apply walk_entries_In in Hin as (before & name & d & later & -> & Hcase).
  simpl in Hwf. rewrite forallb_forall in Hwf.
  specialize (Hwf (name, d) ltac:(apply in_or_app; right; by left)).
  apply andb_prop in Hwf as [Hname Hd]. cbn [fst snd] in *.
  apply Forall_app in IH as [_ IH]. apply Forall_cons in IH as [IHd _].
  destruct Hcase as [(_ & -> & _)|(_ & _ & Hin)].
  - apply filepath_Join_nonempty. apply negb_true_iff in Hname. by apply String.eqb_neq.
  - by eapply IHd.
Qed.

Lemma step_agree a p :
  Forall (fun s => s <> "") (work p) ->
  step gz re1 root m ignore1 a p = step gz re2 root m ignore2 a p.
Proof.
  intros Hwork. destruct a as [|i]; [done|]. cbn [step]. unfold step_go.
  destruct (routines p !! i) as [[n out| | | |]|]; try done.
  destruct (work p) as [|s rest]; [done|].
  apply Forall_cons in Hwork as [Hs _].
  unfold worker_body. by rewrite (agree s Hs).
Qed.

Lemma run_agree items0 fs0 schedule p :
  pool_ok re1 root ignore1 items0 fs0 p ->
  Forall (fun s => s <> "") items0 ->
  run gz re1 root m ignore1 schedule p = run gz re2 root m ignore2 schedule p.
Proof.
  intros Hok Hitems. revert p Hok.
  induction schedule as [|a schedule IH]; intros p Hok; [done|].
  simpl. rewrite <- step_agree.
  2: { apply List.Forall_forall. intros s Hs. rewrite List.Forall_forall in Hitems.
       apply Hitems, (ok_queue _ _ _ _ _ _ Hok). apply in_or_app. by right. }
  destruct (step gz re1 root m ignore1 a p) as [p'|] eqn:Hstep; [|by apply IH].
  apply IH. eapply transition_ok; [done|]. by eapply step_transition.
Qed.

End Agreement.

(** C9: without fragments [Recursive] compiles [^$], which matches the empty
    text only; the path of an entry with a name is never empty; hence, on a
    tree whose entries have names, the walk and the whole run are those of a
    pattern that matches nothing. *)
Theorem no_fragment_ignores_nothing :
  Compile syntax.engine ("^" +:+ strings_Join [] "|" +:+ "$") = inl ignore_nothing
  /\ (forall s, syntax.MatchString ignore_nothing s = true <-> s = "")
  /\ (forall prefix name, name <> "" -> filepath_Join [prefix; name] <> "")
  /\ (forall t prefix,
        nonempty_names t = true ->
        recurse syntax.engine t prefix ignore_nothing = recurse never_engine t prefix tt)
  /\ (forall gz schedule root m concurrency t fs,
        nonempty_names t = true ->
        Recursive gz syntax.engine schedule root m concurrency [] t fs
        = Recursive gz never_engine schedule root m concurrency [] t fs).
Proof.
  assert (forall s, s <> "" ->
            MatchString syntax.engine ignore_nothing s = MatchString never_engine tt s)
    as Hagree.
  { intros s Hs. cbn. apply not_true_is_false. by rewrite MatchString_empty_anchored. }
  split_and!.
  - reflexivity.
  - apply MatchString_empty_anchored.
  - apply filepath_Join_nonempty.
  - intros t prefix Hnames. by apply recurse_agree.
  - intros gz schedule root m concurrency t fs Hnames.
    unfold Recursive.
    change (Compile syntax.engine ("^" +:+ strings_Join [] "|" +:+ "$"))
      with (@inl syntax.Re error ignore_nothing).
    cbn [Compile never_engine].
    destruct (wrap64 (concurrency * 10) <? 0); [done|].
    assert (start syntax.engine concurrency ignore_nothing t fs
            = start never_engine concurrency tt t fs) as Hstart.
    { unfold start. by rewrite (recurse_agree syntax.engine never_engine _ tt Hagree). }
    rewrite <- Hstart.
    rewrite (run_agree gz syntax.engine never_engine ignore_nothing tt root m Hagree
               (fst (recurse syntax.engine t "" ignore_nothing)) fs schedule).
    + done.
    + apply start_ok.
    + apply List.Forall_forall. intros s Hs.
      by eapply (recurse_sends_nonempty syntax.engine ignore_nothing t Hnames "").
Qed.

Lemma no_fragment_ignores_nothing_witness :
  recurse syntax.engine sample_tree "" ignore_nothing = recurse never_engine sample_tree "" tt
  /\ Recursive toy_gzip syntax.engine sample_schedule "/r" 7 2 [] sample_tree sample_disk
     = Recursive toy_gzip never_engine sample_schedule "/r" 7 2 [] sample_tree sample_disk.
Proof.
  destruct no_fragment_ignores_nothing as (_ & _ & _ & H1 & H2).
  split; [apply H1 | apply H2]; reflexivity.
Defined.

(** ** [Recursive] returns *)



Section Termination.

Context (gz : Encoder) (re : RegexpEngine).
Context (root : string) (m : Z) (ignore : Regexp re).





End Termination.



(** * Further properties *)

(** ** The files of a call *)

Ltac not_in_ops :=
  let Hin := fresh "Hin" in
  rewrite ?in_app_iff; cbn;
  intros Hin;
  repeat match goal with
  | H : _ \/ _ |- _ => destruct H
  | H : False |- _ => destruct H
  end;
  try done; simplify_eq;
  match goal with
  | H : ?p = ?p +:+ _ |- _ => symmetry in H; by apply tmp_ne_path in H
  | H : ?p +:+ _ = ?p |- _ => by apply tmp_ne_path in H
  end.

Ltac fs_steps :=
  repeat match goal with
  | H : os_Open _ _ = _ |- _ => apply os_Open_log in H as ->
  | H : io_CopyBuffer _ _ _ _ _ = _ |- _ => apply io_CopyBuffer_log in H as ->
  | H : os_WriteFile _ _ _ _ = (_, None) |- _ => apply os_WriteFile_ok in H as (? & ->)
  | H : os_WriteFile _ _ _ _ = (_, Some _) |- _ =>
        apply os_WriteFile_failed in H as [_ [->|(? & ? & ->)]]
  | H : os_Chtimes _ _ _ = (_, None) |- _ => apply os_Chtimes_ok in H as (? & ? & ->)
  | H : os_Chtimes _ _ _ = (_, Some _) |- _ => apply os_Chtimes_failed in H as [-> _]
  | H : os_Rename _ _ _ = (_, None) |- _ => apply os_Rename_ok in H as (? & ? & ->)
  | H : os_Rename _ _ _ = (_, Some _) |- _ => apply os_Rename_failed in H as [-> _]
  end.

(** The files after a call, by the step at which the call ended; [ops] are
    the operations the call attempted. *)
Lemma IfSmallerBuffer_outcome gz path m out fs fs' out' changed err :
  IfSmallerBuffer gz path m out fs = (fs', out', (changed, err)) ->
  same_env fs fs'
  /\ exists ops,
       oplog fs' = (oplog fs ++ ops)%list
       /\ ((files fs' = files fs /\ changed = false /\ err <> None
            /\ ~ In (OpOpen path) ops /\ ~ In (OpChtimes (path +:+ ".gz~") m) ops)
           \/ exists s,
                files fs !! path = Some s
                /\ ((files fs' = <[path := touched m s]> (files fs) /\ changed = false
                     /\ ~ In (OpChtimes (path +:+ ".gz~") m) ops)
                    \/ (exists d p mt,
                          files fs' = <[path +:+ ".gz~" := {| Data := d; ModTime := mt; Perm := p |}]>
                                        (<[path := touched m s]> (files fs))
                          /\ changed = false /\ err <> None
                          /\ In (OpWriteFile (path +:+ ".gz~") out' (Perm s)) ops
                          /\ ((In (OpChtimes (path +:+ ".gz~") m) ops /\ d = out')
                              \/ (~ In (OpChtimes (path +:+ ".gz~") m) ops
                                  /\ exists k, d = take k out')))
                    \/ (exists p mt,
                          files fs' = <[path +:+ ".gz" := {| Data := out'; ModTime := mt; Perm := p |}]>
                                        (delete (path +:+ ".gz~") (<[path := touched m s]> (files fs)))
                          /\ changed = true /\ err = None))).
Proof.
  intros H. unfold IfSmallerBuffer in H. unfold same_env.
  destruct (os_Stat path fs) as [fs1 [s|e]] eqn:Hstat.
  2: { apply os_Stat_log in Hstat as ->. simplify_eq. cbn. split_and!; try done.
       eexists. split; [done|]. left. split_and!; try done.
       all: not_in_ops. }
  apply os_Stat_ok in Hstat as [-> Hs].
  destruct (if ModTime s =? m then _ else _) as [fs2 [e|]] eqn:Hm.
  { simplify_eq. destruct (ModTime s =? m); [done|].
    apply os_Chtimes_failed in Hm as [-> ->]. cbn. split_and!; try done.
    rewrite <- app_assoc. eexists. split; [done|]. left. split_and!; try done.
    all: not_in_ops. }
  assert (faulty fs2 = faulty fs /\ fail_read fs2 = fail_read fs
          /\ fail_write fs2 = fail_write fs /\ umask fs2 = umask fs /\ clock fs2 = clock fs
          /\ files fs2 = <[path := touched m s]> (files fs)
          /\ exists ops2, oplog fs2 = (oplog fs ++ ops2)%list
               /\ ~ In (OpChtimes (path +:+ ".gz~") m) ops2)
    as (Hf2 & Hr2 & Hw2 & Hu2 & Hc2 & Hfiles2 & ops2 & Hlog2 & Hno2).
  { destruct (Z.eqb_spec (ModTime s) m) as [Heq|Hne].
    - simplify_eq. cbn. split_and!; try done.
      + rewrite touched_id by done. by rewrite insert_id.
      + eexists. split; [done|]. not_in_ops.
    - apply os_Chtimes_ok in Hm as (f & Hf & ->). cbn in *. simplify_eq.
      split_and!; try done. rewrite <- app_assoc. eexists. split; [done|].
      not_in_ops. }
  clear Hm.
  cbv zeta in H; repeat split_scrutinee H; simplify_eq; fs_steps; cbn in *;
    rewrite ?Hf2, ?Hr2, ?Hw2, ?Hu2, ?Hc2, ?Hfiles2, ?Hlog2, <- ?app_assoc; (split_and!; try done);
    eexists; (split; [reflexivity|]); right; exists s; (split; [done|]).
  all: try (left; split_and!; [done | done |]; not_in_ops).
  - right. left. eexists _, _, _. split_and!; [done | done | done | |].
    + rewrite !in_app_iff. cbn. auto 10.
    + right. split; [not_in_ops | by eexists].
  - right. left. eexists _, _, _. split_and!; [done | done | done | |].
    + rewrite !in_app_iff. cbn. auto 10.
    + left. split; [|done]. rewrite !in_app_iff. cbn. auto 10.
  - right. left. rewrite lookup_insert_eq in *. simplify_eq. cbn.
    rewrite insert_insert_eq. eexists _, _, _. split_and!; [done | done | done | |].
    + rewrite !in_app_iff. cbn. auto 10.
    + left. split; [|done]. rewrite !in_app_iff. cbn. auto 10.
  - right. right. rewrite lookup_insert_eq in *. simplify_eq. cbn in *.
    rewrite !delete_insert_eq. eexists _, _. split_and!; done.
Qed.

(** X1: a call on [path] leaves every file alone but those at [path],
    [path.gz~] and [path.gz], whatever its result. *)
Theorem IfSmallerBuffer_frame gz path m out fs q :
  q <> path -> q <> path +:+ ".gz~" -> q <> path +:+ ".gz" ->
  files (fst (fst (IfSmallerBuffer gz path m out fs))) !! q = files fs !! q.
Proof.
  intros H1 H2 H3.
  destruct (IfSmallerBuffer gz path m out fs) as [[fs' out'] [c e]] eqn:H.
  apply IfSmallerBuffer_outcome in H as (_ & ops & _ & H). cbn [fst].
  destruct H as [(-> & _)|(s & Hs & [(-> & _)|[(d & p & mt & -> & _)|(p & mt & -> & _)]])].
  - done.
  - by rewrite lookup_insert_ne.
  - by rewrite !lookup_insert_ne.
  - by rewrite lookup_insert_ne, lookup_delete_ne, lookup_insert_ne.
Qed.

Lemma IfSmallerBuffer_frame_witness :
  files (fst (fst (IfSmallerBuffer toy_gzip "/r/a" 7 [] sample_disk))) !! "/r/d/e"
  = files sample_disk !! "/r/d/e".
Proof. apply IfSmallerBuffer_frame; discriminate. Defined.


(** X3: a call that does not report a change leaves the file at [path.gz] as
    it was: an artifact appears or is replaced only by the final rename. *)
Theorem IfSmallerBuffer_artifact_only_on_success gz path m out fs :
  fst (snd (IfSmallerBuffer gz path m out fs)) = false ->
  files (fst (fst (IfSmallerBuffer gz path m out fs))) !! (path +:+ ".gz")
  = files fs !! (path +:+ ".gz").
Proof.
  destruct (IfSmallerBuffer gz path m out fs) as [[fs' out'] [c e]] eqn:H.
  apply IfSmallerBuffer_outcome in H as (_ & ops & _ & H). cbn [fst snd].
  intros ->.
  assert (path +:+ ".gz~" <> path +:+ ".gz") as Hne by apply tmp_ne_gz.
  pose proof (gz_ne_path path) as Hne'.
  destruct H as [(-> & _)|(s & Hs & [(-> & _)|[(d & p & mt & -> & _)|(p & mt & _ & ? & _)]])];
    [done | | | done].
  - by rewrite lookup_insert_ne.
  - by rewrite !lookup_insert_ne.
Qed.

Lemma IfSmallerBuffer_artifact_only_on_success_witness :
  files (fst (fst (IfSmallerBuffer toy_gzip "/r/a" 7 [] sample_fs_rename_fails))) !! ("/r/a" +:+ ".gz")
  = files sample_fs_rename_fails !! ("/r/a" +:+ ".gz").
Proof. apply IfSmallerBuffer_artifact_only_on_success. vm_compute. reflexivity. Defined.

(** X4: the temporary file is not cleaned up.  A call that does not produce
    the artifact and has called [os.Chtimes] on [path.gz~] has failed and
    leaves that file behind with the compressed bytes; one that has not
    called it leaves the file at [path.gz~] as it was, or, when it has
    failed in [os.WriteFile], with some first bytes of the compressed
    bytes; and one that has not called [os.WriteFile] leaves it as it
    was. *)
Theorem IfSmallerBuffer_leftover gz path m out fs fs' out' err ops :
  IfSmallerBuffer gz path m out fs = (fs', out', (false, err)) ->
  oplog fs' = (oplog fs ++ ops)%list ->
  (In (OpChtimes (path +:+ ".gz~") m) ops ->
   err <> None
   /\ exists g, files fs' !! (path +:+ ".gz~") = Some g /\ Data g = out')
  /\ (~ In (OpChtimes (path +:+ ".gz~") m) ops ->
      files fs' !! (path +:+ ".gz~") = files fs !! (path +:+ ".gz~")
      \/ (err <> None
          /\ exists s g k,
               files fs !! path = Some s
               /\ In (OpWriteFile (path +:+ ".gz~") out' (Perm s)) ops
               /\ files fs' !! (path +:+ ".gz~") = Some g /\ Data g = take k out'))
  /\ ((forall data perm, ~ In (OpWriteFile (path +:+ ".gz~") data perm) ops) ->
      files fs' !! (path +:+ ".gz~") = files fs !! (path +:+ ".gz~")).
Proof.
  intros H Hops.
  apply IfSmallerBuffer_outcome in H as (_ & ops' & Hops' & H).
  rewrite Hops in Hops'. apply app_inv_head in Hops' as <-.
  pose proof (tmp_ne_path path) as Hne.
  destruct H as [(-> & _ & _ & _ & Hno)
                |(s & Hs & [(-> & _ & Hno)
                           |[(d & p & mt & -> & _ & He & Hw & Hd)|(p & mt & _ & ? & _)]])];
    [| | |done].
  - split_and!; [done | by left | done].
  - split_and!; [done | intros _; left | intros _]; by rewrite lookup_insert_ne.
  - split_and!.
    + intros Hin. split; [done|]. rewrite lookup_insert_eq. eexists. split; [done|].
      by destruct Hd as [[_ ->]|[? _]].
    + intros Hno. right. split; [done|].
      destruct Hd as [[? _]|[_ [k ->]]]; [done|].
      exists s, {| Data := take k out'; ModTime := mt; Perm := p |}, k.
      split_and!; [done | done | apply lookup_insert_eq | done].
    + intros Hno. by apply Hno in Hw.
Qed.

Lemma IfSmallerBuffer_leftover_witness :
  (Some (PathError "rename" "/r/a.gz~") <> None
   /\ exists g,
        files (fst (fst (IfSmallerBuffer toy_gzip "/r/a" 7 [] sample_fs_rename_fails)))
          !! ("/r/a" +:+ ".gz~") = Some g
        /\ Data g = [x1f; x8b; x61; x00])
  /\ (files (fst (fst (IfSmallerBuffer toy_gzip "/r/a" 7 [] sample_fs_disk_full)))
        !! ("/r/a" +:+ ".gz~")
      = files sample_fs_disk_full !! ("/r/a" +:+ ".gz~")
      \/ (Some (PathError "write" "/r/a.gz~") <> None
          /\ exists s g k,
               files sample_fs_disk_full !! "/r/a" = Some s
               /\ In (OpWriteFile ("/r/a" +:+ ".gz~") [x1f; x8b; x61; x00] (Perm s))
                     [OpStat "/r/a"; OpChtimes "/r/a" 7; OpOpen "/r/a"; OpRead "/r/a";
                      OpWriteFile "/r/a.gz~" [x1f; x8b; x61; x00] 420]
               /\ files (fst (fst (IfSmallerBuffer toy_gzip "/r/a" 7 [] sample_fs_disk_full)))
                    !! ("/r/a" +:+ ".gz~") = Some g
               /\ Data g = take k [x1f; x8b; x61; x00])).
Proof.
  split.
  - refine (proj1 (IfSmallerBuffer_leftover toy_gzip "/r/a" 7 [] sample_fs_rename_fails
              (fst (fst (IfSmallerBuffer toy_gzip "/r/a" 7 [] sample_fs_rename_fails)))
              [x1f; x8b; x61; x00] (Some (PathError "rename" "/r/a.gz~"))
              [OpStat "/r/a"; OpChtimes "/r/a" 7; OpOpen "/r/a"; OpRead "/r/a";
               OpWriteFile "/r/a.gz~" [x1f; x8b; x61; x00] 420; OpChtimes "/r/a.gz~" 7;
               OpRename "/r/a.gz~" "/r/a.gz"] _ _) _).
    + vm_compute. reflexivity.
    + vm_compute. reflexivity.
    + cbn. auto 10.
  - refine (proj1 (proj2 (IfSmallerBuffer_leftover toy_gzip "/r/a" 7 [] sample_fs_disk_full
              (fst (fst (IfSmallerBuffer toy_gzip "/r/a" 7 [] sample_fs_disk_full)))
              [x1f; x8b; x61; x00] (Some (PathError "write" "/r/a.gz~"))
              [OpStat "/r/a"; OpChtimes "/r/a" 7; OpOpen "/r/a"; OpRead "/r/a";
               OpWriteFile "/r/a.gz~" [x1f; x8b; x61; x00] 420] _ _)) _).
    + vm_compute. reflexivity.
    + vm_compute. reflexivity.
    + cbn. intros H.
      repeat match goal with H : _ \/ _ |- _ => destruct H end; try discriminate; done.
Defined.

Lemma IfSmallerBuffer_resets_buffer_aux gz path m fs out1 out2 :
  fst (fst (IfSmallerBuffer gz path m out1 fs)) = fst (fst (IfSmallerBuffer gz path m out2 fs))
  /\ snd (IfSmallerBuffer gz path m out1 fs) = snd (IfSmallerBuffer gz path m out2 fs).
Proof.
  unfold IfSmallerBuffer. cbv zeta.
  repeat match goal with
  | |- context [match ?x with _ => _ end] => destruct x eqn:?
  end; done.
Qed.

(** X5: the content of the buffer passed in plays no part: the files, the log
    and the result are those of a call with any other buffer, and so those
    of [IfSmaller]. *)
Theorem IfSmallerBuffer_resets_buffer gz path m fs out1 out2 :
  fst (fst (IfSmallerBuffer gz path m out1 fs)) = fst (fst (IfSmallerBuffer gz path m out2 fs))
  /\ snd (IfSmallerBuffer gz path m out1 fs) = snd (IfSmallerBuffer gz path m out2 fs)
  /\ IfSmaller gz path m fs
     = (fst (fst (IfSmallerBuffer gz path m out1 fs)), snd (IfSmallerBuffer gz path m out1 fs)).
Proof.
  split_and!; [apply IfSmallerBuffer_resets_buffer_aux ..|].
  unfold IfSmaller.
  destruct (IfSmallerBuffer_resets_buffer_aux gz path m fs [] out1) as [E1 E2].
  destruct (IfSmallerBuffer gz path m [] fs) as [[a b] c].
  cbn in *. by rewrite E1, E2.
Qed.

(** X6: a file without bytes is never compressed. *)
Theorem IfSmallerBuffer_empty_file gz path m out fs s :
  files fs !! path = Some s -> Data s = [] ->
  fst (snd (IfSmallerBuffer gz path m out fs)) = false
  /\ files (fst (fst (IfSmallerBuffer gz path m out fs))) !! (path +:+ ".gz")
     = files fs !! (path +:+ ".gz").
Proof.
  intros Hs Hd.
  assert (fst (snd (IfSmallerBuffer gz path m out fs)) = false) as Hc.
  { destruct (IfSmallerBuffer gz path m out fs) as [[fs' out'] [c e]] eqn:H. cbn.
    destruct c; [|done]. exfalso.
    unfold IfSmallerBuffer in H. cbv zeta in H. repeat split_scrutinee H. simplify_eq.
    match goal with H : os_Stat _ _ = _ |- _ => apply os_Stat_ok in H as [-> Hs'] end.
    match goal with H : (if _ then _ else _) = _ |- _ =>
      apply mtime_step_ok in H as (Hp & _ & _); [|done] end.
    match goal with H : os_Open _ _ = _ |- _ => apply os_Open_ok in H as [-> Ho] end.
    match goal with H : io_CopyBuffer _ _ _ _ _ = _ |- _ => apply io_CopyBuffer_ok in H as -> end.
    cbn in *. simplify_eq. cbn in *.
    match goal with H : (_ >=? _) = false |- _ =>
      rewrite Z.geb_leb in H; apply Z.leb_gt in H end.
    rewrite Hd in *. cbn in *. lia. }
  split; [done|].
  destruct (IfSmallerBuffer gz path m out fs) as [[fs' out'] [c e]] eqn:H.
  cbn in Hc. subst c.
  apply IfSmallerBuffer_outcome in H as (_ & ops & _ & H). cbn [fst snd].
  assert (path +:+ ".gz~" <> path +:+ ".gz") as Hne by apply tmp_ne_gz.
  pose proof (gz_ne_path path) as Hne'.
  destruct H as [(-> & _)|(s' & Hs' & [(-> & _)|[(d & p & mt & -> & _)|(p & mt & _ & ? & _)]])];
    [done | | | done].
  - by rewrite lookup_insert_ne.
  - by rewrite !lookup_insert_ne.
Qed.

Lemma IfSmallerBuffer_empty_file_witness :
  fst (snd (IfSmallerBuffer toy_gzip "/r/e" 7 [] (sample_fs [("/r/e", sample_file [])]))) = false
  /\ files (fst (fst (IfSmallerBuffer toy_gzip "/r/e" 7 [] (sample_fs [("/r/e", sample_file [])]))))
       !! ("/r/e" +:+ ".gz")
     = files (sample_fs [("/r/e", sample_file [])]) !! ("/r/e" +:+ ".gz").
Proof.
  apply (IfSmallerBuffer_empty_file _ _ _ _ _ (sample_file [])); vm_compute; reflexivity.
Defined.

(** ** A second call *)

Lemma os_Stat_iff path fs fs' s :
  os_Stat path fs = (fs', inl s)
  <-> faulty fs (OpStat path) = false /\ files fs !! path = Some s
      /\ fs' = record_op (OpStat path) fs.
Proof.
  unfold os_Stat. cbn. destruct (faulty fs (OpStat path)), (files fs !! path);
    (split; [intros ?; by simplify_eq | intros (? & ? & ?); by simplify_eq]).
Qed.

Lemma os_Open_iff path fs fs' s :
  os_Open path fs = (fs', inl s)
  <-> faulty fs (OpOpen path) = false /\ files fs !! path = Some s
      /\ fs' = record_op (OpOpen path) fs.
Proof.
  unfold os_Open. cbn. destruct (faulty fs (OpOpen path)), (files fs !! path);
    (split; [intros ?; by simplify_eq | intros (? & ? & ?); by simplify_eq]).
Qed.

Lemma os_Chtimes_iff path m fs fs' :
  os_Chtimes path m fs = (fs', None)
  <-> faulty fs (OpChtimes path m) = false
      /\ exists f, files fs !! path = Some f
           /\ fs' = set_files (<[path := touched m f]> (files fs))
                              (record_op (OpChtimes path m) fs).
Proof.
  unfold os_Chtimes, touched. cbn. destruct (faulty fs (OpChtimes path m)), (files fs !! path);
    (split; [intros ?; simplify_eq; eauto | intros (? & ? & ? & ?); by simplify_eq]).
Qed.

Lemma os_WriteFile_iff name data perm fs fs' :
  os_WriteFile name data perm fs = (fs', None)
  <-> faulty fs (OpWriteFile name data perm) = false
      /\ fail_write fs name = None
      /\ fs' = set_files (<[name := {| Data := data; ModTime := current_time fs;
                                       Perm := match files fs !! name with
                                               | Some f => Perm f
                                               | None => Z.ldiff perm (umask fs)
                                               end |}]> (files fs))
                         (record_op (OpWriteFile name data perm) fs).
Proof.
  unfold os_WriteFile. cbn.
  destruct (faulty fs (OpWriteFile name data perm)), (fail_write fs name);
    (split; [intros ?; by simplify_eq | intros (? & ? & ?); by simplify_eq]).
Qed.

Lemma os_Rename_iff oldpath newpath fs fs' :
  os_Rename oldpath newpath fs = (fs', None)
  <-> faulty fs (OpRename oldpath newpath) = false
      /\ exists f, files fs !! oldpath = Some f
           /\ fs' = set_files (<[newpath := f]> (delete oldpath (files fs)))
                              (record_op (OpRename oldpath newpath) fs).
Proof.
  unfold os_Rename. cbn.
  destruct (faulty fs (OpRename oldpath newpath)), (files fs !! oldpath);
    (split; [intros ?; simplify_eq; eauto | intros (? & ? & ? & ?); by simplify_eq]).
Qed.

Lemma os_Stat_run path fs s :
  faulty fs (OpStat path) = false -> files fs !! path = Some s ->
  os_Stat path fs = (record_op (OpStat path) fs, inl s).
Proof. intros. by apply os_Stat_iff. Qed.

Lemma os_Open_run path fs s :
  faulty fs (OpOpen path) = false -> files fs !! path = Some s ->
  os_Open path fs = (record_op (OpOpen path) fs, inl s).
Proof. intros. by apply os_Open_iff. Qed.

Lemma os_Chtimes_run path m fs f :
  faulty fs (OpChtimes path m) = false -> files fs !! path = Some f ->
  os_Chtimes path m fs
  = (set_files (<[path := touched m f]> (files fs)) (record_op (OpChtimes path m) fs), None).
Proof. intros. apply os_Chtimes_iff. eauto. Qed.

Lemma os_WriteFile_run name data perm fs :
  faulty fs (OpWriteFile name data perm) = false ->
  fail_write fs name = None ->
  os_WriteFile name data perm fs
  = (set_files (<[name := {| Data := data; ModTime := current_time fs;
                             Perm := match files fs !! name with
                                     | Some f => Perm f
                                     | None => Z.ldiff perm (umask fs)
                                     end |}]> (files fs))
               (record_op (OpWriteFile name data perm) fs), None).
Proof. intros. by apply os_WriteFile_iff. Qed.

Lemma os_Rename_run oldpath newpath fs f :
  faulty fs (OpRename oldpath newpath) = false -> files fs !! oldpath = Some f ->
  os_Rename oldpath newpath fs
  = (set_files (<[newpath := f]> (delete oldpath (files fs)))
               (record_op (OpRename oldpath newpath) fs), None).
Proof. intros. apply os_Rename_iff. eauto. Qed.

(** What the copy writes and returns depends on the file system only
    through the failure it injects into the read. *)
Lemma io_CopyBuffer_same gz z path f fs1 fs2 :
  fail_read fs1 path = fail_read fs2 path ->
  io_CopyBuffer gz z path f fs2
  = (record_op (OpRead path) fs2,
     snd (fst (io_CopyBuffer gz z path f fs1)), snd (io_CopyBuffer gz z path f fs1)).
Proof.
  intros H. unfold io_CopyBuffer, read_all. cbn. rewrite H.
  destruct (fail_read fs2 path); cbn;
    repeat match goal with
    | |- context [match ?x with _ => _ end] => destruct x eqn:?
    end; simplify_eq; done.
Qed.

(** X7: a second call right after one that produced the artifact produces it
    again, with the same bytes, provided that no file was at [path.gz~]
    before the first call.  When [m] is not the zero time, the second call
    leaves every file as the first call left it; when it is, the artifact
    gets a new modification time, that of the second write (the third last
    operation), and nothing else changes. *)
Theorem IfSmallerBuffer_twice gz path m out fs fs1 out1 :
  IfSmallerBuffer gz path m out fs = (fs1, out1, (true, None)) ->
  files fs !! (path +:+ ".gz~") = None ->
  exists fs2 g,
    IfSmallerBuffer gz path m out1 fs1 = (fs2, out1, (true, None))
    /\ files fs1 !! (path +:+ ".gz") = Some g
    /\ files fs2
       = <[path +:+ ".gz" :=
             {| Data := Data g;
                ModTime := if time_IsZero m then clock fs2 (length (oplog fs2) - 3)
                           else ModTime g;
                Perm := Perm g |}]> (files fs1)
    /\ (time_IsZero m = false -> files fs2 = files fs1).
Proof.
  intros H Htmp. unfold IfSmallerBuffer in H. cbv zeta in H.
  destruct (os_Stat path fs) as [fsa [s|?]] eqn:Hstat; [|done].
  apply os_Stat_iff in Hstat as (Fstat & Hs & ->).
  destruct (if ModTime s =? m then _ else _) as [fsb [?|]] eqn:Hm; [done|].
  assert (same_env fs fsb
          /\ files fsb = <[path := touched m s]> (files fs)
          /\ ((ModTime s =? m) = false -> faulty fs (OpChtimes path m) = false))
    as ((Hfb & Hrb & Hwb & Hub & Hcb) & Hfilesb & Fm).
  { unfold same_env. destruct (Z.eqb_spec (ModTime s) m) as [Heq|Hne].
    - simplify_eq. cbn. split_and!; try done.
      rewrite touched_id by done. by rewrite insert_id.
    - apply os_Chtimes_iff in Hm as (Fm & f & Hf & ->). cbn in Hf. simplify_eq. cbn.
      by split_and!. }
  clear Hm.
  destruct (os_Open path fsb) as [fsc [f|?]] eqn:Hopen; [|done].
  apply os_Open_iff in Hopen as (Fopen & Hf & ->).
  rewrite Hfilesb, lookup_insert_eq in Hf. simplify_eq.
  destruct (io_CopyBuffer _ _ _ _ _) as [[fsd z] [n [?|]]] eqn:Hcopy;
    [by destruct (errors_Is _ _)|].
  pose proof (io_CopyBuffer_log _ _ _ _ _ _ _ _ Hcopy) as ->.
  destruct (gzipWriter.Close gz z) as [z' [?|]] eqn:Hclose;
    [by destruct (errors_Is _ _)|].
  destruct (_ >=? _) eqn:Hlen; [done|].
  destruct (os_WriteFile _ _ _ _) as [fse [?|]] eqn:Hwrite; [done|].
  apply os_WriteFile_iff in Hwrite as (Fwrite & Wwrite & ->).
  destruct (os_Chtimes _ _ _) as [fsf [?|]] eqn:Hch; [done|].
  apply os_Chtimes_iff in Hch as (Fch & g & Hg & ->).
  destruct (os_Rename _ _ _) as [fsg [?|]] eqn:Hren; [done|].
  apply os_Rename_iff in Hren as (Fren & g' & Hg' & ->).
  simplify_eq. cbn in *.
  rewrite lookup_insert_eq in Hg. simplify_eq. cbn in *.
  rewrite lookup_insert_eq in Hg'. simplify_eq.
  rewrite Hfb, Hwb, Hub in *.
  rewrite Hfilesb in *.
  rewrite lookup_insert_ne in * by apply not_eq_sym, tmp_ne_path.
  rewrite Htmp in *. rewrite !delete_insert_eq.
  set (base := <[path := touched m s]> (files fs)).
  set (out1 := limitedWriter.buf (gzipWriter.w z')) in *.
  assert (delete (path +:+ ".gz~") base = base) as Hdel.
  { apply delete_id. unfold base. by rewrite lookup_insert_ne by apply not_eq_sym, tmp_ne_path. }
  rewrite Hdel.
  match goal with |- context [<[path +:+ ".gz" := ?G0]> base] => set (G := G0) end.
  match goal with |- context [IfSmallerBuffer gz path m out1 ?F] => set (fs1 := F) end.
  (* the second call *)
  assert (forall q, q <> path +:+ ".gz" -> (<[path +:+ ".gz" := G]> base) !! q = base !! q) as Hq.
  { intros q Hq. by rewrite lookup_insert_ne. }
  assert (base !! path = Some (touched m s)) as Hbase by apply lookup_insert_eq.
  assert (base !! (path +:+ ".gz~") = None) as Hbt.
  { unfold base. by rewrite lookup_insert_ne by apply not_eq_sym, tmp_ne_path. }
  assert (exists fsb',
            (if ModTime (touched m s) =? m then (record_op (OpStat path) fs1, None)
             else os_Chtimes path m (record_op (OpStat path) fs1)) = (fsb', None)
            /\ same_env fs fsb' /\ files fsb' = <[path +:+ ".gz" := G]> base)
    as (fsb' & Hm' & (Hfb' & Hrb' & Hwb' & Hub' & Hcb') & Hfilesb').
  { destruct (ModTime (touched m s) =? m) eqn:E.
    - eexists. split; [done|]. unfold same_env. cbn. by rewrite Hfb, Hrb, Hwb, Hub, Hcb.
    - assert (time_IsZero m = true /\ (ModTime s =? m) = false) as [Hz E'].
      { unfold touched in E. cbn in E. destruct (time_IsZero m); [done|].
        by rewrite Z.eqb_refl in E. }
      erewrite os_Chtimes_run;
        [|cbn; rewrite Hfb; by apply Fm
         |cbn; rewrite Hq by apply not_eq_sym, gz_ne_path; exact Hbase].
      eexists. split; [done|]. unfold same_env. cbn. rewrite Hfb, Hrb, Hwb, Hub, Hcb.
      split_and!; try done.
      apply insert_id. rewrite Hq by apply not_eq_sym, gz_ne_path. rewrite Hbase.
      f_equal. unfold touched. cbn. by rewrite Hz. }
  eexists _, G. unfold IfSmallerBuffer. cbv zeta.
  erewrite os_Stat_run;
    [|by cbn; rewrite ?Hfb | by cbn; rewrite Hq by apply not_eq_sym, gz_ne_path].
  rewrite Hm'.
  erewrite os_Open_run;
    [|by rewrite Hfb' | rewrite Hfilesb', Hq by apply not_eq_sym, gz_ne_path; exact Hbase].
  match goal with |- context [io_CopyBuffer gz ?z0 path ?f0 ?fs0] =>
    rewrite (io_CopyBuffer_same gz z0 path f0 (record_op (OpOpen path) fsb) fs0)
      by (cbn; by rewrite ?Hrb, ?Hrb')
  end.
  change (Size (touched m s)) with (Size s).
  rewrite Hcopy. cbn [fst snd]. rewrite Hclose.
  fold out1. rewrite Hlen.
  change (Perm (touched m s)) with (Perm s).
  erewrite os_WriteFile_run; [|by cbn; rewrite ?Hfb' | by cbn; rewrite ?Hwb'].
  erewrite os_Chtimes_run; [|by cbn; rewrite ?Hfb' | cbn; apply lookup_insert_eq].
  erewrite os_Rename_run; [|by cbn; rewrite ?Hfb' | cbn; apply lookup_insert_eq].
  split; [reflexivity|]. split; [apply lookup_insert_eq|]. cbn.
  rewrite !delete_insert_eq.
  rewrite Hfilesb', Hq by apply tmp_ne_gz. rewrite Hbt.
  rewrite delete_id by (by rewrite Hq by apply tmp_ne_gz).
  rewrite Hub', Hcb'. split.
  - f_equal. unfold touched. cbn. destruct (time_IsZero m); [|done].
    do 2 f_equal. rewrite !length_app. cbn. lia.
  - intros Hz. rewrite insert_insert_eq. f_equal. unfold G, touched. cbn. by rewrite Hz.
Qed.

Lemma IfSmallerBuffer_twice_witness :
  exists fs2 g,
    IfSmallerBuffer toy_gzip "/r/a" 7 [x1f; x8b; x61; x00]
      (fst (fst (IfSmallerBuffer toy_gzip "/r/a" 7 [] sample_disk)))
    = (fs2, [x1f; x8b; x61; x00], (true, None))
    /\ files (fst (fst (IfSmallerBuffer toy_gzip "/r/a" 7 [] sample_disk))) !! ("/r/a" +:+ ".gz")
       = Some g
    /\ files fs2
       = <["/r/a" +:+ ".gz" :=
             {| Data := Data g;
                ModTime := if time_IsZero 7 then clock fs2 (length (oplog fs2) - 3)
                           else ModTime g;
                Perm := Perm g |}]>
           (files (fst (fst (IfSmallerBuffer toy_gzip "/r/a" 7 [] sample_disk))))
    /\ (time_IsZero 7 = false ->
        files fs2 = files (fst (fst (IfSmallerBuffer toy_gzip "/r/a" 7 [] sample_disk)))).
Proof.
  apply (IfSmallerBuffer_twice toy_gzip "/r/a" 7 [] sample_disk); vm_compute; reflexivity.
Defined.

(** ** The artifact *)

(** X19: the permissions of the artifact are those of the source file without
    the bits that the file mode creation mask clears, unless a file was at
    [path.gz~] before the call: [os.WriteFile] then truncates that file
    and keeps its permissions, which the artifact inherits. *)
Theorem IfSmallerBuffer_artifact_permissions gz path m out fs fs1 out1 s :
  IfSmallerBuffer gz path m out fs = (fs1, out1, (true, None)) ->
  files fs !! path = Some s ->
  exists g,
    files fs1 !! (path +:+ ".gz") = Some g
    /\ Perm g = match files fs !! (path +:+ ".gz~") with
                | Some t => Perm t
                | None => Z.ldiff (Perm s) (umask fs)
                end.
Proof.
  intros H Hs0. unfold IfSmallerBuffer in H. cbv zeta in H.
  destruct (os_Stat path fs) as [fsa [s'|?]] eqn:Hstat; [|done].
  apply os_Stat_iff in Hstat as (Fstat & Hs & ->). rewrite Hs0 in Hs. injection Hs as <-.
  destruct (if ModTime s =? m then _ else _) as [fsb [?|]] eqn:Hm; [done|].
  assert (files fsb !! (path +:+ ".gz~") = files fs !! (path +:+ ".gz~")
          /\ umask fsb = umask fs) as [Hb Hu].
  { destruct (Z.eqb_spec (ModTime s) m) as [Heq|Hne].
    - by simplify_eq.
    - apply os_Chtimes_ok in Hm as (f & Hf & ->). cbn.
      by rewrite lookup_insert_ne by apply not_eq_sym, tmp_ne_path. }
  clear Hm.
  destruct (os_Open path fsb) as [fsc [f|?]] eqn:Hopen; [|done].
  apply os_Open_iff in Hopen as (Fopen & Hf & ->).
  destruct (io_CopyBuffer _ _ _ _ _) as [[fsd z] [n [?|]]] eqn:Hcopy;
    [by destruct (errors_Is _ _)|].
  pose proof (io_CopyBuffer_log _ _ _ _ _ _ _ _ Hcopy) as ->.
  destruct (gzipWriter.Close gz z) as [z' [?|]] eqn:Hclose;
    [by destruct (errors_Is _ _)|].
  destruct (_ >=? _) eqn:Hlen; [done|].
  destruct (os_WriteFile _ _ _ _) as [fse [?|]] eqn:Hwrite; [done|].
  apply os_WriteFile_iff in Hwrite as (Fwrite & Wwrite & ->).
  destruct (os_Chtimes _ _ _) as [fsf [?|]] eqn:Hch; [done|].
  apply os_Chtimes_iff in Hch as (Fch & g & Hg & ->).
  destruct (os_Rename _ _ _) as [fsg [?|]] eqn:Hren; [done|].
  apply os_Rename_iff in Hren as (Fren & g' & Hg' & ->).
  simplify_eq. cbn in Hg, Hg' |- *.
  rewrite lookup_insert_eq in Hg. simplify_eq. cbn in Hg'.
  rewrite lookup_insert_eq in Hg'. simplify_eq.
  eexists. split; [apply lookup_insert_eq|]. cbn. by rewrite Hb, Hu.
Qed.

Lemma IfSmallerBuffer_artifact_permissions_witness :
  (exists g,
     files (fst (fst (IfSmallerBuffer toy_gzip "/r/a" 7 [] sample_disk_open))) !! ("/r/a" +:+ ".gz")
     = Some g
     /\ Perm g = match files sample_disk_open !! ("/r/a" +:+ ".gz~") with
                 | Some t => Perm t
                 | None => Z.ldiff 438 (umask sample_disk_open)
                 end)
  /\ Z.ldiff 438 (umask sample_disk_open) = 420
  /\ exists g,
       files (fst (fst (IfSmallerBuffer toy_gzip "/r/a" 7 [] sample_disk_tmp))) !! ("/r/a" +:+ ".gz")
       = Some g
       /\ Perm g = match files sample_disk_tmp !! ("/r/a" +:+ ".gz~") with
                   | Some t => Perm t
                   | None => Z.ldiff 420 (umask sample_disk_tmp)
                   end.
Proof.
  split_and!.
  - apply (IfSmallerBuffer_artifact_permissions toy_gzip "/r/a" 7 [] sample_disk_open
             (fst (fst (IfSmallerBuffer toy_gzip "/r/a" 7 [] sample_disk_open)))
             [x1f; x8b; x61; x00]
             {| Data := [x61; x61; x61; x61; x61; x61; x61; x61]; ModTime := 5; Perm := 438 |});
      vm_compute; reflexivity.
  - reflexivity.
  - apply (IfSmallerBuffer_artifact_permissions toy_gzip "/r/a" 7 [] sample_disk_tmp
             (fst (fst (IfSmallerBuffer toy_gzip "/r/a" 7 [] sample_disk_tmp)))
             [x1f; x8b; x61; x00] (sample_file [x61; x61; x61; x61; x61; x61; x61; x61]));
      vm_compute; reflexivity.
Defined.

(** X20: a file that is where the temporary file goes is lost: after a call on
    [path] that produced the artifact no file is at [path.gz~], whatever
    was there before, and a call on [path.gz~] itself then fails on
    [os.Stat] and changes no file. *)
Theorem IfSmallerBuffer_clobbers_temporary_name gz path m out fs fs1 out1 out' :
  IfSmallerBuffer gz path m out fs = (fs1, out1, (true, None)) ->
  files fs1 !! (path +:+ ".gz~") = None
  /\ files (fst (fst (IfSmallerBuffer gz (path +:+ ".gz~") m out' fs1))) = files fs1
  /\ snd (IfSmallerBuffer gz (path +:+ ".gz~") m out' fs1)
     = (false, Some (PathError "stat" (path +:+ ".gz~"))).
Proof.
  intros H.
  assert (files fs1 !! (path +:+ ".gz~") = None) as Hnone.
  { apply IfSmallerBuffer_outcome in H as (_ & ops & _ & H).
    destruct H as [(_ & ? & _)|(s & Hs & [(_ & ? & _)|[(d & p & mt & _ & ? & _)|(p & mt & -> & _)]])];
      try done.
    rewrite lookup_insert_ne by apply not_eq_sym, tmp_ne_gz. apply lookup_delete_eq. }
  split; [done|].
  unfold IfSmallerBuffer, os_Stat. cbn. rewrite Hnone.
  by destruct (faulty fs1 _).
Qed.

Lemma IfSmallerBuffer_clobbers_temporary_name_witness :
  files (fst (fst (IfSmallerBuffer toy_gzip "/r/a" 7 [] sample_disk_tmp))) !! ("/r/a" +:+ ".gz~")
  = None
  /\ files (fst (fst (IfSmallerBuffer toy_gzip ("/r/a" +:+ ".gz~") 7 []
                        (fst (fst (IfSmallerBuffer toy_gzip "/r/a" 7 [] sample_disk_tmp))))))
     = files (fst (fst (IfSmallerBuffer toy_gzip "/r/a" 7 [] sample_disk_tmp)))
  /\ snd (IfSmallerBuffer toy_gzip ("/r/a" +:+ ".gz~") 7 []
            (fst (fst (IfSmallerBuffer toy_gzip "/r/a" 7 [] sample_disk_tmp))))
     = (false, Some (PathError "stat" ("/r/a" +:+ ".gz~"))).
Proof.
  apply (IfSmallerBuffer_clobbers_temporary_name toy_gzip "/r/a" 7 [] sample_disk_tmp
           (fst (fst (IfSmallerBuffer toy_gzip "/r/a" 7 [] sample_disk_tmp)))
           [x1f; x8b; x61; x00] []).
  vm_compute. reflexivity.
Defined.

(** ** The budget of the writer *)

(** X8: a sequence of writes is accepted exactly when its bytes fit the budget;
    then every byte is in the buffer and the budget left is what remains.
    When a write is refused, the budget is negative and the buffer has
    already taken the refused slice: it holds more bytes than the budget
    allowed, all of them a prefix of what was written. *)
Theorem write_all_accepts_iff_within_budget (l : limitedWriter.t) (chunks : list (list byte)) :
  0 <= limitedWriter.n l < 2 ^ 63 ->
  total_len chunks <= 2 ^ 63 ->
  (snd (write_all l chunks) = None <-> total_len chunks <= limitedWriter.n l)
  /\ (snd (write_all l chunks) = None ->
      fst (write_all l chunks)
      = {| limitedWriter.buf := limitedWriter.buf l ++ concat chunks;
           limitedWriter.n := limitedWriter.n l - total_len chunks |})
  /\ (snd (write_all l chunks) <> None ->
      snd (write_all l chunks) = Some errSizeThresholdExceeded
      /\ limitedWriter.n (fst (write_all l chunks)) < 0
      /\ exists k,
           limitedWriter.buf (fst (write_all l chunks))
           = (limitedWriter.buf l ++ take k (concat chunks))%list
           /\ (k <= length (concat chunks))%nat
           /\ limitedWriter.n l < Z.of_nat k).
Proof.
  revert l. induction chunks as [|c chunks IH]; intros l Hn Hlen.
  - cbn. rewrite total_len_nil. split_and!; [split; [lia|done] | | done].
    intros _. destruct l. cbn. by rewrite app_nil_r, Z.sub_0_r.
  - rewrite total_len_cons in *. pose proof (total_len_nonneg chunks) as Hnn.
    cbn [write_all].
    destruct (Z_le_gt_dec (Z.of_nat (length c)) (limitedWriter.n l)) as [Hle|Hgt].
    + rewrite Write_within by lia.
      set (l' := {| limitedWriter.buf := limitedWriter.buf l ++ c;
                    limitedWriter.n := limitedWriter.n l - Z.of_nat (length c) |}).
      destruct (IH l') as (IH1 & IH2 & IH3); [cbn; lia | lia |].
      cbn [limitedWriter.n limitedWriter.buf l'] in *.
      split_and!.
      * rewrite IH1. lia.
      * intros H. rewrite (IH2 H). cbn. f_equal; [by rewrite <- app_assoc | lia].
      * intros H. destruct (IH3 H) as (He & Hneg & k & Hk & Hkl & Hkn).
        split_and!; [done | done |].
        exists (length c + k)%nat. split_and!.
        -- rewrite Hk. cbn [concat]. rewrite <- app_assoc. f_equal.
           by rewrite take_app_add.
        -- cbn [concat]. rewrite length_app. lia.
        -- lia.
    + rewrite Write_beyond by lia. cbn [fst snd limitedWriter.n limitedWriter.buf].
      split_and!.
      * split; [done | lia].
      * done.
      * intros _. split_and!; [done | lia |].
        exists (length c). split_and!.
        -- cbn [concat]. by rewrite take_app_length.
        -- cbn [concat]. rewrite length_app. lia.
        -- lia.
Qed.

Lemma write_all_accepts_iff_within_budget_witness :
  (snd (write_all {| limitedWriter.buf := []; limitedWriter.n := 3 |} [[x61; x62]; [x63; x64]]) = None
   <-> total_len [[x61; x62]; [x63; x64]] <= 3)
  /\ (snd (write_all {| limitedWriter.buf := []; limitedWriter.n := 3 |} [[x61; x62]; [x63; x64]]) = None ->
      fst (write_all {| limitedWriter.buf := []; limitedWriter.n := 3 |} [[x61; x62]; [x63; x64]])
      = {| limitedWriter.buf := [] ++ concat [[x61; x62]; [x63; x64]];
           limitedWriter.n := 3 - total_len [[x61; x62]; [x63; x64]] |})
  /\ (snd (write_all {| limitedWriter.buf := []; limitedWriter.n := 3 |} [[x61; x62]; [x63; x64]]) <> None ->
      snd (write_all {| limitedWriter.buf := []; limitedWriter.n := 3 |} [[x61; x62]; [x63; x64]])
      = Some errSizeThresholdExceeded
      /\ limitedWriter.n (fst (write_all {| limitedWriter.buf := []; limitedWriter.n := 3 |}
                                 [[x61; x62]; [x63; x64]])) < 0
      /\ exists k,
           limitedWriter.buf (fst (write_all {| limitedWriter.buf := []; limitedWriter.n := 3 |}
                                     [[x61; x62]; [x63; x64]]))
           = ([] ++ take k (concat [[x61; x62]; [x63; x64]]))%list
           /\ (k <= length (concat [[x61; x62]; [x63; x64]]))%nat
           /\ 3 < Z.of_nat k).
Proof.
  apply (write_all_accepts_iff_within_budget
           {| limitedWriter.buf := []; limitedWriter.n := 3 |} [[x61; x62]; [x63; x64]]).
  - cbn. lia.
  - vm_compute. discriminate.
Defined.

(** ** The loop of [worker] *)

Section Worker.

Context (gz : Encoder) (re : RegexpEngine).
Context (root : string) (m : Z) (ignore : Regexp re).

(** The buffer the loop starts with plays no part. *)
Lemma worker_body_buffer s n out1 out2 fs :
  fst (fst (worker_body gz re root m ignore s n out1 fs))
  = fst (fst (worker_body gz re root m ignore s n out2 fs))
  /\ snd (worker_body gz re root m ignore s n out1 fs)
     = snd (worker_body gz re root m ignore s n out2 fs).
Proof.
  unfold worker_body. destruct (MatchString re ignore s); [done|].
  destruct (IfSmallerBuffer_resets_buffer_aux gz (filepath_Join [root; s]) m fs out1 out2) as [E1 E2].
  destruct (IfSmallerBuffer gz _ m out1 fs) as [[a1 b1] [c1 e1]].
  destruct (IfSmallerBuffer gz _ m out2 fs) as [[a2 b2] [c2 e2]].
  cbn in *. simplify_eq. by destruct e2.
Qed.

Lemma worker_loop_buffer received : forall n out1 out2 fs,
  worker_loop gz re root m ignore received n out1 fs
  = worker_loop gz re root m ignore received n out2 fs.
Proof.
  induction received as [|s rest IH]; intros n out1 out2 fs; [done|].
  cbn [worker_loop].
  destruct (worker_body_buffer s n out1 out2 fs) as [E1 E2].
  destruct (worker_body gz re root m ignore s n out1 fs) as [[a1 b1] f1].
  destruct (worker_body gz re root m ignore s n out2 fs) as [[a2 b2] f2].
  cbn in *. simplify_eq. destruct f2; [apply IH | done].
Qed.

Lemma worker_loop_app r1 : forall r2 n out fs,
  worker_loop gz re root m ignore (r1 ++ r2) n out fs
  = match worker_loop gz re root m ignore r1 n out fs with
    | (fs', (n', None)) => worker_loop gz re root m ignore r2 n' [] fs'
    | r => r
    end.
Proof.
  induction r1 as [|s r1 IH]; intros r2 n out fs.
  - cbn. apply worker_loop_buffer.
  - cbn [app worker_loop].
    destruct (worker_body gz re root m ignore s n out fs) as [[fs' out'] [n'|n' e]]; [|done].
    apply IH.
Qed.

End Worker.

(** X9: the paths a worker receives after a call has failed play no part in
    what it returns and leave the file system alone; up to then the loop
    composes: the paths that follow an error-free run are processed from the
    count and the file system that run ended with. *)
Theorem worker_stops_at_first_error gz re root m (ignore : Regexp re) r1 r2 fs :
  match worker gz re root r1 m ignore fs with
  | (fs', (n, Some e)) =>
      worker gz re root (r1 ++ r2) m ignore fs = (fs', (n, Some e))
  | (fs', (n, None)) =>
      worker gz re root (r1 ++ r2) m ignore fs
      = worker_loop gz re root m ignore r2 n [] fs'
  end.
Proof.
  unfold worker. rewrite worker_loop_app.
  by destruct (worker_loop gz re root m ignore r1 0 [] fs) as [fs' [n [e|]]].
Qed.

(** ** What the walk sends *)

Lemma walk_entries_descends re rec prefix ignore before name d later :
  IsDir d = true ->
  MatchString re ignore (filepath_Join [prefix; name]) = false ->
  snd (walk_entries re rec prefix ignore (before ++ (name, d) :: later)) = None ->
  snd (rec d (filepath_Join [prefix; name])) = None
  /\ forall s, In s (fst (rec d (filepath_Join [prefix; name]))) ->
       In s (fst (walk_entries re rec prefix ignore (before ++ (name, d) :: later))).
Proof.
  intros Hd Hm. induction before as [|[name' d'] before IH].
  - cbn [app walk_entries]. destruct d as [dirs|e| |]; try done.
    all: rewrite Hm; destruct (rec _ (filepath_Join [prefix; name])) as [sent [e'|]]; [done|].
    all: destruct (walk_entries re rec prefix ignore later) as [more err]; simpl.
    all: intros _; split; [done|]; intros s Hs; apply in_or_app; by left.
  - change (((name', d') :: before) ++ (name, d) :: later)%list
      with ((name', d') :: (before ++ (name, d) :: later))%list.
    cbn [walk_entries].
    match goal with |- context [let '(s, e) := ?v in _] => destruct v as [sent [e|]] end;
      [done|].
    destruct (walk_entries re rec prefix ignore (before ++ (name, d) :: later))
      as [more err].
    simpl in *. intros H. destruct (IH H) as [H1 H2]. split; [done|].
    intros s Hs. apply in_or_app. right. by apply H2.
Qed.

Lemma walk_entries_error re rec prefix ignore entries e :
  snd (walk_entries re rec prefix ignore entries) = Some e ->
  exists before name d later,
    entries = (before ++ (name, d) :: later)%list
    /\ IsDir d = true
    /\ MatchString re ignore (filepath_Join [prefix; name]) = false
    /\ snd (rec d (filepath_Join [prefix; name])) = Some e.
Proof.
  induction entries as [|[name d] later IH]; [done|].
  cbn [walk_entries].
  assert (snd (walk_entries re rec prefix ignore later) = Some e ->
          exists before name0 d0 later0,
            ((name, d) :: later = before ++ (name0, d0) :: later0)%list
            /\ IsDir d0 = true
            /\ MatchString re ignore (filepath_Join [prefix; name0]) = false
            /\ snd (rec d0 (filepath_Join [prefix; name0])) = Some e) as Hlater.
  { intros (before & n0 & d0 & l0 & -> & H)%IH.
    by exists ((name, d) :: before), n0, d0, l0. }
  destruct (walk_entries re rec prefix ignore later) as [more err'].
  destruct d as [dirs|e0| |].
  - destruct (MatchString re ignore (filepath_Join [prefix; name])) eqn:Hm; [by simpl; auto|].
    destruct (rec (Directory dirs) (filepath_Join [prefix; name])) as [sent [e1|]] eqn:Hrec;
      simpl; [|by auto].
    intros [= ->]. exists [], name, (Directory dirs), later. by rewrite Hrec.
  - destruct (MatchString re ignore (filepath_Join [prefix; name])) eqn:Hm; [by simpl; auto|].
    destruct (rec (Unreadable e0) (filepath_Join [prefix; name])) as [sent [e1|]] eqn:Hrec;
      simpl; [|by auto].
    intros [= ->]. exists [], name, (Unreadable e0), later. by rewrite Hrec.
  - destruct (strings_HasSuffix name ".gz"); [by simpl; auto|].
    destruct (find_sibling _ _); simpl; auto.
  - simpl. auto.
Qed.

Lemma no_artifact_beside before name later :
  sorted_names (map fst (before ++ (name, Regular) :: later)) = true ->
  find_sibling (name +:+ ".gz") (map fst later) = false ->
  ~ In (name +:+ ".gz") (map fst (before ++ (name, Regular) :: later)).
Proof.
  intros Hsorted Hsib Hgz.
  rewrite map_app in Hsorted, Hgz. simpl in Hsorted, Hgz.
  apply sorted_names_split in Hsorted as [Hs Hbefore].
  pose proof (string_ltb_append name ".gz" ltac:(done)) as Hlt.
  apply in_app_or in Hgz as [Hgz|[Hgz|Hgz]].
  - apply Hbefore in Hgz.
    pose proof (string_ltb_trans _ _ _ Hlt Hgz) as H.
    by rewrite string_ltb_irrefl in H.
  - symmetry in Hgz. by apply append_ne_self in Hgz.
  - apply find_sibling_sorted in Hgz; [congruence|].
    by apply sorted_names_tail in Hs.
Qed.

Section Candidates.

Context (re : RegexpEngine) (ignore : Regexp re).

Lemma recurse_sound t :
  forall comps s,
    well_formed t = true ->
    Forall (fun c => valid_name c = true) comps ->
    In s (fst (recurse re t (path_of comps) ignore)) ->
    exists cs, s = path_of (comps ++ cs) /\ candidate re ignore t comps cs.
Proof.
  induction t as [dirs IH|e| |] using Tree_ind_nested; intros comps s Hwf Hcomps Hin;
    try done.
  pose proof (well_formed_dir _ Hwf) as (Hvalid & Hsorted & Hwfs).
  cbn [recurse] in Hin.
  apply walk_entries_In in Hin as (before & name & d & later & -> & Hcase).
  apply Forall_app in Hvalid as [_ Hvalid]. apply Forall_cons in Hvalid as [Hname _].
  apply Forall_app in Hwfs as [_ Hwfs]. apply Forall_cons in Hwfs as [Hwfd _].
  apply Forall_app in IH as [_ IH]. apply Forall_cons in IH as [IHd _].
  cbn [fst snd] in *.
  rewrite filepath_Join_path_of in Hcase by done.
  destruct Hcase as [(-> & -> & Hsuf & Hsib)|(Hdir & Hm & Hin)].
  - exists [name]. split; [done|]. cbn.
    eexists _, Regular. split_and!; [done | | done | done |].
    + apply in_or_app. right. by left.
    + by apply no_artifact_beside.
  - apply IHd in Hin as (cs & -> & Hcand);
      [|done | apply Forall_app; split; [done | by constructor]].
    exists (name :: cs). split; [by rewrite <- app_assoc|].
    destruct cs as [|c cs]; [done|]. cbn [candidate].
    eexists _, d. split_and!; [done | | done | done | done].
    apply in_or_app. right. by left.
Qed.

Lemma recurse_complete cs :
  forall t comps,
    well_formed t = true ->
    Forall (fun c => valid_name c = true) comps ->
    snd (recurse re t (path_of comps) ignore) = None ->
    candidate re ignore t comps cs ->
    In (path_of (comps ++ cs)) (fst (recurse re t (path_of comps) ignore)).
Proof.
  induction cs as [|name rest IH]; intros t comps Hwf Hcomps Hok Hcand; [done|].
  cbn [candidate] in Hcand. destruct Hcand as (dirs & d & -> & Hin & Hcand).
  pose proof (well_formed_dir _ Hwf) as (Hvalid & Hsorted & Hwfs).
  apply in_split in Hin as (before & later & ->).
  apply Forall_app in Hvalid as [_ Hvalid]. apply Forall_cons in Hvalid as [Hname _].
  apply Forall_app in Hwfs as [_ Hwfs]. apply Forall_cons in Hwfs as [Hwfd _].
  cbn [fst snd] in *. cbn [recurse] in Hok |- *.
  destruct rest as [|r rest].
  - destruct Hcand as (-> & Hsuf & Hno).
    rewrite <- filepath_Join_path_of by done.
    apply walk_entries_sends; [done | | done].
    destruct (find_sibling _ _) eqn:Hsib; [|done].
    exfalso. apply Hno. apply find_sibling_In in Hsib.
    rewrite map_app. apply in_or_app. right. by right.
  - destruct Hcand as (Hdir & Hm & Hcand).
    rewrite <- filepath_Join_path_of in Hm by done.
    destruct (walk_entries_descends re (fun d path => recurse re d path ignore)
                (path_of comps) ignore before name d later Hdir Hm Hok) as [Hok' Hsub].
    apply Hsub. rewrite filepath_Join_path_of in * by done.
    replace (comps ++ name :: r :: rest)%list with ((comps ++ [name]) ++ r :: rest)%list
      by by rewrite <- app_assoc.
    apply IH; [done | apply Forall_app; split; [done | by constructor] | done | done].
Qed.

Lemma recurse_NoDup t :
  forall comps,
    well_formed t = true ->
    Forall (fun c => valid_name c = true) comps ->
    NoDup (fst (recurse re t (path_of comps) ignore)).
Proof.
  induction t as [dirs IH|e| |] using Tree_ind_nested; intros comps Hwf Hcomps;
    try (cbn; constructor).
  pose proof (well_formed_dir _ Hwf) as (Hvalid & Hsorted & Hwfs).
  cbn [recurse]. clear Hwf.
  induction dirs as [|[name d] later IHl]; [cbn; constructor|].
  apply Forall_cons in Hvalid as [Hname Hvalid].
  apply Forall_cons in Hwfs as [Hwfd Hwfs].
  apply Forall_cons in IH as [IHd IH].
  cbn [fst snd] in Hname, Hwfd, IHd.
  change (sorted_names (name :: map fst later) = true) in Hsorted.
  specialize (IHl IH Hvalid (sorted_names_tail _ _ Hsorted) Hwfs).
  assert (Forall (fun c => valid_name c = true) (comps ++ [name])) as Hsnoc.
  { apply Forall_app. split; [done | by constructor]. }
  cbn [walk_entries].
  set (path := filepath_Join [path_of comps; name]).
  set (item := match d with
               | Directory _ | Unreadable _ =>
                   if MatchString re ignore path then ([], None)
                   else recurse re d path ignore
               | Regular =>
                   if strings_HasSuffix name ".gz" then ([], None)
                   else if find_sibling (name +:+ ".gz") (map fst later) then ([], None)
                   else ([path], None)
               | Irregular => ([], None)
               end).
  assert (path = path_of (comps ++ [name])) as Hpath.
  { unfold path. by rewrite filepath_Join_path_of. }
  assert (NoDup (fst item)
          /\ forall s, In s (fst item) ->
               exists cs, Forall (fun c => valid_name c = true) cs
                          /\ s = path_of (comps ++ name :: cs)) as [Hnd Hform].
  { unfold item. destruct d as [dirs|e| |].
    - destruct (MatchString re ignore path); [split; [constructor | done]|].
      rewrite Hpath. split; [by apply IHd|].
      intros s (cs & _ & Hcs & -> & _)%recurse_items; [|done ..].
      exists cs. split; [done|]. by rewrite <- app_assoc.
    - destruct (MatchString re ignore path); split; first [constructor | done].
    - destruct (strings_HasSuffix name ".gz"); [split; [constructor | done]|].
      destruct (find_sibling _ _); [split; [constructor | done]|].
      split; [apply NoDup_singleton|].
      intros s [<-|[]]. exists []. by split.
    - split; [constructor | done]. }
  fold item. destruct item as [sent [e|]]; [done|]. cbn [fst] in Hnd, Hform.
  destruct (walk_entries re _ (path_of comps) ignore later) as [more err'] eqn:Hwalk.
  cbn [fst] in IHl |- *. apply NoDup_app. split_and!; [done | | done].
  intros s Hs%list_elem_of_In Hs'%list_elem_of_In.
  apply Hform in Hs as (cs & Hcs & ->).
  assert (In (path_of (comps ++ name :: cs))
            (fst (walk_entries re (fun d path => recurse re d path ignore)
                    (path_of comps) ignore later))) as Hin by by rewrite Hwalk.
  apply walk_entries_In in Hin as (before & name' & d' & later' & -> & Hcase).
  assert (String.ltb name name' = true) as Hlt.
  { apply (sorted_names_head _ _ _ Hsorted). rewrite map_app. apply in_or_app. right. by left. }
  apply Forall_app in Hvalid as [_ Hvalid]. apply Forall_cons in Hvalid as [Hname' _].
  apply Forall_app in Hwfs as [_ Hwfs]. apply Forall_cons in Hwfs as [Hwfd' _].
  cbn [fst snd] in Hname', Hwfd', Hcase.
  rewrite filepath_Join_path_of in Hcase by done.
  assert (forall cs', Forall (fun c => valid_name c = true) cs' ->
            path_of (comps ++ name :: cs) = path_of (comps ++ name' :: cs') -> False) as Hno.
  { intros cs' Hcs' Heq. apply path_of_inj in Heq.
    - apply app_inv_head in Heq. simplify_eq. by rewrite string_ltb_irrefl in Hlt.
    - by destruct comps.
    - by destruct comps.
    - apply Forall_app. split; [done | by constructor].
    - apply Forall_app. split; [done | by constructor]. }
  destruct Hcase as [(_ & Heq & _)|(_ & _ & Hin)].
  - by apply (Hno []).
  - apply recurse_items in Hin as (cs' & _ & Hcs' & Heq & _);
      [|done | apply Forall_app; split; [done | by constructor]].
    rewrite <- app_assoc in Heq. by apply (Hno cs').
Qed.

Lemma recurse_error_sound t :
  forall comps e,
    well_formed t = true ->
    Forall (fun c => valid_name c = true) comps ->
    IsDir t = true ->
    snd (recurse re t (path_of comps) ignore) = Some e ->
    exists cs, blocked re ignore t comps cs e.
Proof.
  induction t as [dirs IH|e0| |] using Tree_ind_nested; intros comps e Hwf Hcomps Hdir Herr;
    try done.
  - pose proof (well_formed_dir _ Hwf) as (Hvalid & Hsorted & Hwfs).
    cbn [recurse] in Herr.
    apply walk_entries_error in Herr as (before & name & d & later & -> & Hd & Hm & Herr).
    apply Forall_app in Hvalid as [_ Hvalid]. apply Forall_cons in Hvalid as [Hname _].
    apply Forall_app in Hwfs as [_ Hwfs]. apply Forall_cons in Hwfs as [Hwfd _].
    apply Forall_app in IH as [_ IH]. apply Forall_cons in IH as [IHd _].
    cbn [fst snd] in *.
    rewrite filepath_Join_path_of in * by done.
    apply IHd in Herr as [cs Hcs];
      [|done | apply Forall_app; split; [done | by constructor] | done].
    exists (name :: cs). cbn. eexists _, d. split_and!; try done.
    apply in_or_app. right. by left.
  - cbn in Herr. simplify_eq. by exists [].
Qed.

Lemma recurse_error_complete cs :
  forall t comps e,
    well_formed t = true ->
    Forall (fun c => valid_name c = true) comps ->
    blocked re ignore t comps cs e ->
    snd (recurse re t (path_of comps) ignore) <> None.
Proof.
  induction cs as [|name rest IH]; intros t comps e Hwf Hcomps Hb.
  - cbn in Hb. by subst t.
  - cbn [blocked] in Hb. destruct Hb as (dirs & d & -> & Hin & Hdir & Hm & Hb).
    pose proof (well_formed_dir _ Hwf) as (Hvalid & Hsorted & Hwfs).
    apply in_split in Hin as (before & later & ->).
    apply Forall_app in Hvalid as [_ Hvalid]. apply Forall_cons in Hvalid as [Hname _].
    apply Forall_app in Hwfs as [_ Hwfs]. apply Forall_cons in Hwfs as [Hwfd _].
    cbn [fst snd] in *. cbn [recurse]. intros Hok.
    rewrite <- filepath_Join_path_of in Hm by done.
    destruct (walk_entries_descends re (fun d path => recurse re d path ignore)
                (path_of comps) ignore before name d later Hdir Hm Hok) as [Hok' _].
    rewrite filepath_Join_path_of in Hok' by done.
    revert Hok'. eapply IH; [done | apply Forall_app; split; [done | by constructor] | done].
Qed.

End Candidates.

(** X10: on a tree as the file system presents it, the paths that [recurse]
    sends are paths of regular files that are no artifacts, have no artifact
    beside them and lie below no directory that the pattern matches; and a
    walk that returns no error sends every such path. *)
Theorem recurse_sends_the_candidates (re : RegexpEngine) (ignore : Regexp re) (t : Tree) :
  well_formed t = true ->
  (forall s,
     In s (fst (recurse re t "" ignore)) ->
     exists cs, s = path_of cs /\ candidate re ignore t [] cs)
  /\ (snd (recurse re t "" ignore) = None ->
      forall cs,
        candidate re ignore t [] cs -> In (path_of cs) (fst (recurse re t "" ignore))).
Proof.
  intros Hwf. split.
  - intros s Hs. by apply (recurse_sound re ignore t []) in Hs.
  - intros Hok cs Hcs. by apply (recurse_complete re ignore cs t []).
Qed.

Lemma recurse_sends_the_candidates_witness :
  (forall s,
     In s (fst (recurse syntax.engine sample_tree "" ignore_d)) ->
     exists cs, s = path_of cs /\ candidate syntax.engine ignore_d sample_tree [] cs)
  /\ (snd (recurse syntax.engine sample_tree "" ignore_d) = None ->
      forall cs,
        candidate syntax.engine ignore_d sample_tree [] cs ->
        In (path_of cs) (fst (recurse syntax.engine sample_tree "" ignore_d))).
Proof. apply recurse_sends_the_candidates. reflexivity. Defined.

(** X11: no path is sent twice. *)
Theorem recurse_sends_no_path_twice (re : RegexpEngine) (ignore : Regexp re) (t : Tree) :
  well_formed t = true -> NoDup (fst (recurse re t "" ignore)).
Proof. intros Hwf. by apply (recurse_NoDup re ignore t []). Qed.

Lemma recurse_sends_no_path_twice_witness :
  NoDup (fst (recurse syntax.engine sample_tree "" ignore_nothing)).
Proof. apply recurse_sends_no_path_twice. reflexivity. Defined.

(** X12: the walk of a directory fails exactly when it reaches, through
    directories that the pattern does not match, a directory that cannot
    be listed, and the error is that of such a directory; a directory that
    the pattern matches is not listed and cannot make the walk fail. *)
Theorem recurse_fails_iff_blocked (re : RegexpEngine) (ignore : Regexp re) (t : Tree) :
  well_formed t = true -> IsDir t = true ->
  (forall e, snd (recurse re t "" ignore) = Some e -> exists cs, blocked re ignore t [] cs e)
  /\ (snd (recurse re t "" ignore) <> None <-> exists cs e, blocked re ignore t [] cs e).
Proof.
  intros Hwf Hdir.
  assert (forall e, snd (recurse re t "" ignore) = Some e ->
                    exists cs, blocked re ignore t [] cs e) as H.
  { intros e He. by apply (recurse_error_sound re ignore t []) in He. }
  split; [done|]. split.
  - destruct (snd (recurse re t "" ignore)) as [e|] eqn:He; [|done].
    intros _. destruct (H e eq_refl) as [cs Hcs]. eauto.
  - intros (cs & e & Hb). by apply (recurse_error_complete re ignore cs t [] e).
Qed.

Lemma recurse_fails_iff_blocked_witness :
  (forall e,
     snd (recurse syntax.engine sample_tree_locked "" ignore_nothing) = Some e ->
     exists cs, blocked syntax.engine ignore_nothing sample_tree_locked [] cs e)
  /\ (snd (recurse syntax.engine sample_tree_locked "" ignore_nothing) <> None
      <-> exists cs e, blocked syntax.engine ignore_nothing sample_tree_locked [] cs e).
Proof. apply recurse_fails_iff_blocked; reflexivity. Defined.

(** ** Every path is served *)

Lemma invoked_paths_app h1 h2 :
  invoked_paths (h1 ++ h2) = (invoked_paths h1 ++ invoked_paths h2)%list.
Proof.
  induction h1 as [|[i s c e|i e] h1 IH]; simpl; [done | by rewrite IH | done].
Qed.

Lemma any_failed_app h1 h2 : any_failed (h1 ++ h2) = any_failed h1 || any_failed h2.
Proof. unfold any_failed. by rewrite existsb_app. Qed.

Lemma unignored_app re ignore a b :
  unignored re ignore (a ++ b) = (unignored re ignore a ++ unignored re ignore b)%list.
Proof. unfold unignored. by rewrite List.filter_app. Qed.

Ltac lookup_insert H :=
  apply list_lookup_insert_Some in H as [(? & ? & ?)|(? & H)]; simplify_eq.

Section Served.

Context (gz : Encoder) (re : RegexpEngine).
Context (root : string) (m : Z) (ignore : Regexp re).
Context (items0 : list string).

Lemma turn_served i n out s fs g ev fs' h :
  turn gz re root m ignore i n out s fs g ev fs' ->
  (unignored re ignore [s] = invoked_paths ev)
  /\ first_published (h ++ ev) = first_published h
  /\ ((any_failed ev = false /\ exists n' out', g = Working n' out')
      \/ (any_failed ev = true /\ exists e, g = Returned n (Some e))).
Proof.
  intros [Hm|fs1 out1 Hm Hcall|fs1 out1 Hm Hcall|fs1 out1 err Hm Hcall];
    unfold unignored; cbn; rewrite Hm; cbn; rewrite ?app_nil_r, ?first_published_app; cbn.
  all: split_and!; [done | by destruct (first_published h) | eauto 6].
Qed.

Lemma transition_served p p' :
  served_ok re ignore items0 p -> transition gz re root m ignore p p' ->
  served_ok re ignore items0 p'.
Proof.
  intros [Hcl Hcalm Hfail Hpurge Hserved Htold] Htr.
  assert (forall i g g',
            routines p !! i = Some g ->
            (forall n e, g <> Returned n (Some e)) -> (forall n e, g <> Publishing n e) ->
            any_failed (history p) = true ->
            first_published (history p) <> None
            \/ exists j n e,
                 <[i := g']> (routines p) !! j = Some (Returned n (Some e))
                 \/ <[i := g']> (routines p) !! j = Some (Publishing n e)) as Hkeep.
  { intros i g g' Hg H1 H2 Hf. destruct (Htold Hf) as [?|(j & k & e & Hj)]; [by left|].
    assert (i <> j) as Hne.
    { intros ->. destruct Hj as [Hj|Hj]; rewrite Hg in Hj; simplify_eq;
        first [exact (H1 _ _ eq_refl) | exact (H2 _ _ eq_refl)]. }
    right. exists j, k, e. by rewrite !list_lookup_insert_ne. }
  destruct Htr as [s rest Hu Hc Hcap|Hu Hc|i n out s rest g ev fs' Hr Hwk Hturn
                  |i n out Hr Hwk Hc|i n err Hr|i n err Hr|i n s rest Hr Hwk|i n Hr Hwk Hc];
    constructor; cbn [unsent walk_err closed work cap routines total firstErr disk history].
  - (* send *) done.
  - intros j k Hj. apply Hcalm in Hj as [? _]. congruence.
  - done.
  - intros j k Hj. apply Hpurge in Hj as [?|[? _]]; [by left | congruence].
  - intros Hf. rewrite (Hserved Hf), Hu. by rewrite <- app_assoc.
  - done.
  - (* close *) done.
  - intros j k Hj. by apply Hcalm in Hj as [_ ?].
  - done.
  - intros j k Hj. apply Hpurge in Hj as [?|[_ ?]]; [by left | by right].
  - intros Hf. by rewrite (Hserved Hf), Hu.
  - done.
  - (* receive *) done.
  - intros j k Hj. lookup_insert Hj.
    + destruct (turn_served _ _ _ _ _ _ _ _ (history p) Hturn)
        as (_ & _ & [(_ & n' & out' & ?)|(_ & e & ?)]); done.
    + apply Hcalm in Hj as [_ ?]. congruence.
  - intros j k e Hj. rewrite any_failed_app.
    destruct (turn_served _ _ _ _ _ _ _ _ (history p) Hturn)
      as (_ & _ & [(_ & n' & out' & ->)|(-> & _)]); [|by rewrite orb_true_r].
    destruct Hj as [Hj|Hj]; lookup_insert Hj; rewrite (Hfail j k e); auto.
  - intros j k Hj. rewrite any_failed_app.
    destruct (turn_served _ _ _ _ _ _ _ _ (history p) Hturn)
      as (_ & _ & [(_ & n' & out' & ->)|(_ & e & ->)]);
      (destruct Hj as [Hj|Hj]; lookup_insert Hj;
       (destruct (Hpurge j k) as [->|[_ ?]]; [auto | by left | congruence])).
  - rewrite any_failed_app. intros [Hf Hev]%orb_false_elim.
    destruct (turn_served _ _ _ _ _ _ _ _ (history p) Hturn) as (Hs & _ & _).
    rewrite (Hserved Hf), Hwk, invoked_paths_app, <- Hs, <- app_assoc.
    f_equal. change ((s :: rest) ++ unsent p)%list with ([s] ++ (rest ++ unsent p))%list.
    by rewrite unignored_app.
  - rewrite any_failed_app.
    destruct (turn_served _ _ _ _ _ _ _ _ (history p) Hturn)
      as (_ & Hfp & [(Hev & n' & out' & ->)|(Hev & e & ->)]); rewrite Hfp, Hev.
    + rewrite orb_false_r. by eapply Hkeep.
    + intros _. right. exists i, n, e. left. apply list_lookup_insert_eq.
      by eapply lookup_lt_Some.
  - (* return *) intros _. by apply Hcl.
  - intros j k Hj. done.
  - intros j k e Hj. destruct Hj as [Hj|Hj]; lookup_insert Hj; rewrite (Hfail j k e); auto.
  - intros j k Hj. by right.
  - intros Hf. by rewrite (Hserved Hf), Hwk.
  - by eapply Hkeep.
  - (* add *) done.
  - intros j k Hj. lookup_insert Hj; [by destruct err|]. by apply Hcalm in Hj.
  - intros j k e Hj. destruct Hj as [Hj|Hj]; lookup_insert Hj.
    + by destruct err.
    + apply (Hfail j k e). auto.
    + destruct err; simplify_eq. apply (Hfail j k e). auto.
    + apply (Hfail j k e). auto.
  - intros j k Hj. destruct Hj as [Hj|Hj]; lookup_insert Hj.
    + destruct err; simplify_eq. right. by eapply Hcalm.
    + apply (Hpurge j k). auto.
    + by destruct err.
    + apply (Hpurge j k). auto.
  - done.
  - intros Hf. destruct (Htold Hf) as [?|(j & k & e & Hj)]; [by left|].
    right. destruct (decide (j = i)) as [->|Hne].
    + exists i, k, e. right. destruct Hj as [Hj|Hj]; [|congruence].
      rewrite Hr in Hj. simplify_eq. apply list_lookup_insert_eq. by eapply lookup_lt_Some.
    + exists j, k, e. by rewrite !list_lookup_insert_ne.
  - (* publish *) done.
  - intros j k Hj. lookup_insert Hj. by apply Hcalm in Hj.
  - intros j k e Hj. rewrite any_failed_app. cbn. rewrite orb_false_r.
    destruct Hj as [Hj|Hj]; lookup_insert Hj; apply (Hfail j k e); auto.
  - intros j k Hj. rewrite any_failed_app. cbn. rewrite orb_false_r.
    destruct Hj as [Hj|Hj]; lookup_insert Hj.
    + left. apply (Hfail j k err). auto.
    + apply (Hpurge j k). auto.
    + apply (Hpurge j k). auto.
  - rewrite any_failed_app, invoked_paths_app. cbn. rewrite orb_false_r, app_nil_r. done.
  - intros _. left. rewrite first_published_app. by destruct (first_published (history p)).
  - (* purge *) done.
  - intros j k Hj. apply Hcalm in Hj as [_ ?]. congruence.
  - done.
  - intros j k Hj. apply Hpurge in Hj as [?|[_ ?]]; [by left | congruence].
  - intros Hf. destruct (Hpurge i n) as [?|[_ ?]]; [auto | congruence | congruence].
  - done.
  - (* finish *) intros _. by apply Hcl.
  - intros j k Hj. lookup_insert Hj. by apply Hcalm in Hj.
  - intros j k e Hj. destruct Hj as [Hj|Hj]; lookup_insert Hj; apply (Hfail j k e); auto.
  - intros j k Hj. by right.
  - intros Hf. by rewrite (Hserved Hf), Hwk.
  - by eapply Hkeep.
Qed.

Lemma run_served schedule p :
  served_ok re ignore items0 p ->
  served_ok re ignore items0 (run gz re root m ignore schedule p).
Proof.
  revert p. induction schedule as [|a schedule IH]; intros p Hok; [done|].
  simpl. destruct (step gz re root m ignore a p) as [p'|] eqn:Hstep; [|by apply IH].
  apply IH. eapply transition_served; [done|]. by eapply step_transition.
Qed.

End Served.

Lemma start_served re concurrency (ignore : Regexp re) t fs :
  served_ok re ignore (fst (recurse re t "" ignore)) (start re concurrency ignore t fs).
Proof.
  unfold start. constructor; cbn; try done.
  - intros i n [? _]%lookup_replicate. done.
  - intros i n e [[? _]%lookup_replicate|[? _]%lookup_replicate]; done.
  - intros i n [[? _]%lookup_replicate|[? _]%lookup_replicate]; done.
Qed.

(** X13: when [Recursive], started with at least one goroutine, returns without
    an error, the walk has completed, no call has failed, and the calls
    made are exactly those for the paths sent that the pattern does not
    match, one call each, in the order sent. *)
Theorem Recursive_success_serves_every_path
    (gz : Encoder) (re : RegexpEngine) (schedule : list actor) (root : string) (m : Z)
    (concurrency : Z) (ignorePattern : list string) (t : Tree) (fs : FS)
    (ignore : Regexp re) (fs' : FS) (tot : Z) :
  1 <= concurrency ->
  Compile re ("^" +:+ strings_Join ignorePattern "|" +:+ "$") = inl ignore ->
  Recursive gz re schedule root m concurrency ignorePattern t fs = Some (fs', (tot, None)) ->
  let p := run gz re root m ignore schedule (start re concurrency ignore t fs) in
  snd (recurse re t "" ignore) = None
  /\ any_failed (history p) = false
  /\ invoked_paths (history p) = unignored re ignore (fst (recurse re t "" ignore)).
Proof.
  intros Hconc Hcompile Hrec p. unfold Recursive in Hrec. rewrite Hcompile in Hrec.
  destruct (wrap64 (concurrency * 10) <? 0); [done|].
  fold p in Hrec. destruct (outcome p) as [[tot' err']|] eqn:Hout; [|done].
  simplify_eq. unfold outcome in Hout.
  destruct (closed p) eqn:Hclosed; [|done].
  destruct (forallb is_finished (routines p)) eqn:Hfin; [|done].
  cbn in Hout. simplify_eq.
  pose proof (run_ok gz re root m ignore _ fs schedule _
                (start_ok re root concurrency ignore t fs)) as Hok.
  pose proof (run_served gz re root m ignore _ schedule _
                (start_served re concurrency ignore t fs)) as Hsv.
  destruct (run_shape gz re root m ignore schedule (start re concurrency ignore t fs))
    as (Hlen & _ & Hwalk).
  fold p in Hok, Hsv, Hlen, Hwalk. cbn in Hlen, Hwalk. rewrite length_replicate in Hlen.
  destruct (walk_err p) as [e|] eqn:Hw; [done|].
  assert (first_published (history p) = None) as Hfp.
  { by rewrite <- (ok_first _ _ _ _ _ _ Hok). }
  assert (any_failed (history p) = false) as Hnone.
  { destruct (any_failed (history p)) eqn:Hf; [|done].
    destruct (so_told _ _ _ _ Hsv Hf) as [?|(j & k & e & Hj)]; [done|].
    rewrite forallb_forall in Hfin.
    destruct Hj as [Hj|Hj]; apply list_elem_of_lookup_2, list_elem_of_In, Hfin in Hj; done. }
  split_and!; [done | done |].
  rewrite (so_served _ _ _ _ Hsv Hnone).
  rewrite (so_closed _ _ _ _ Hsv Hclosed).
  destruct (routines p) as [|g gs] eqn:Hrs; [simpl in Hlen; lia|].
  cbn in Hfin. apply andb_true_iff in Hfin as [Hg _]. destruct g; try done.
  destruct (ok_finished _ _ _ _ _ _ Hok 0%nat n) as [_ ->]; [by rewrite Hrs|].
  cbn. by rewrite app_nil_r.
Qed.

Lemma Recursive_success_serves_every_path_witness :
  snd (recurse syntax.engine sample_tree_present "" ignore_nothing) = None
  /\ any_failed (history (run toy_gzip syntax.engine "/r" 7 ignore_nothing
                            sample_schedule_present
                            (start syntax.engine 2 ignore_nothing sample_tree_present
                               sample_disk))) = false
  /\ invoked_paths (history (run toy_gzip syntax.engine "/r" 7 ignore_nothing
                               sample_schedule_present
                               (start syntax.engine 2 ignore_nothing sample_tree_present
                                  sample_disk)))
     = unignored syntax.engine ignore_nothing
         (fst (recurse syntax.engine sample_tree_present "" ignore_nothing)).
Proof.
  apply (Recursive_success_serves_every_path toy_gzip syntax.engine sample_schedule_present
           "/r" 7 2 [] sample_tree_present sample_disk ignore_nothing
           (disk (run toy_gzip syntax.engine "/r" 7 ignore_nothing sample_schedule_present
                    (start syntax.engine 2 ignore_nothing sample_tree_present sample_disk)))
           1).
  - lia.
  - vm_compute. reflexivity.
  - vm_compute. reflexivity.
Defined.

(** ** No path is served twice *)

Section AtMostOnce.

Context (gz : Encoder) (re : RegexpEngine).
Context (root : string) (m : Z) (ignore : Regexp re).
Context (items0 : list string).

(** The calls made and the calls still to come, in this order, are part of
    the paths to serve, in their order: a path leaves the queue for a call
    or, in the loop that purges the queue, for nothing. *)
Lemma transition_sublist p p' :
  sublist (invoked_paths (history p) ++ unignored re ignore (work p ++ unsent p))%list
          (unignored re ignore items0) ->
  transition gz re root m ignore p p' ->
  sublist (invoked_paths (history p') ++ unignored re ignore (work p' ++ unsent p'))%list
          (unignored re ignore items0).
Proof.
  intros Hsub Htr.
  destruct Htr as [s rest Hu Hc Hcap|Hu Hc|i n out s rest g ev fs' Hr Hwk Hturn
                  |i n out Hr Hwk Hc|i n err Hr|i n err Hr|i n s rest Hr Hwk|i n Hr Hwk Hc];
    cbn [unsent walk_err closed work cap routines total firstErr disk history].
  - rewrite Hu in Hsub. by rewrite <- app_assoc.
  - by rewrite Hu in Hsub.
  - destruct (turn_served gz re root m ignore _ _ _ _ _ _ _ _ (history p) Hturn) as (Hs & _ & _).
    rewrite Hwk in Hsub.
    change ((s :: rest) ++ unsent p)%list with ([s] ++ (rest ++ unsent p))%list in Hsub.
    by rewrite unignored_app, Hs, app_assoc, <- invoked_paths_app in Hsub.
  - by rewrite Hwk in Hsub.
  - done.
  - rewrite invoked_paths_app. cbn. by rewrite app_nil_r.
  - rewrite Hwk in Hsub.
    change ((s :: rest) ++ unsent p)%list with ([s] ++ (rest ++ unsent p))%list in Hsub.
    rewrite unignored_app in Hsub.
    etrans; [|exact Hsub]. apply sublist_app; [done|]. by apply sublist_inserts_l.
  - by rewrite Hwk in Hsub.
Qed.

Lemma run_sublist schedule p :
  sublist (invoked_paths (history p) ++ unignored re ignore (work p ++ unsent p))%list
          (unignored re ignore items0) ->
  sublist (invoked_paths (history (run gz re root m ignore schedule p)))
          (unignored re ignore items0).
Proof.
  revert p. induction schedule as [|a schedule IH]; intros p Hsub.
  - cbn. etrans; [|exact Hsub]. by apply sublist_inserts_r.
  - simpl. destruct (step gz re root m ignore a p) as [p'|] eqn:Hstep; [|by apply IH].
    apply IH. eapply transition_sublist; [done|]. by eapply step_transition.
Qed.

End AtMostOnce.

Lemma unignored_sublist re (ignore : Regexp re) items :
  sublist (unignored re ignore items) items.
Proof.
  unfold unignored. induction items as [|s items IH]; cbn; [constructor|].
  destruct (negb (MatchString re ignore s)); by constructor.
Qed.

(** X21: at every moment of every run, with any number of goroutines and
    whether or not calls fail, the calls made so far are for paths that the
    walk sends and the pattern does not match, in the order sent and each
    at most once; on a tree as the file system presents it no path is
    compressed twice. *)
Theorem Recursive_serves_no_path_twice
    (gz : Encoder) (re : RegexpEngine) (schedule : list actor) (root : string) (m : Z)
    (concurrency : Z) (ignore : Regexp re) (t : Tree) (fs : FS) :
  sublist (invoked_paths (history (run gz re root m ignore schedule
                                     (start re concurrency ignore t fs))))
          (unignored re ignore (fst (recurse re t "" ignore)))
  /\ (well_formed t = true ->
      NoDup (invoked_paths (history (run gz re root m ignore schedule
                                       (start re concurrency ignore t fs))))).
Proof.
  assert (sublist (invoked_paths (history (run gz re root m ignore schedule
                                             (start re concurrency ignore t fs))))
                  (unignored re ignore (fst (recurse re t "" ignore)))) as Hsub.
  { apply run_sublist. by cbn. }
  split; [done|]. intros Hwf.
  eapply sublist_NoDup; [|exact Hsub].
  eapply sublist_NoDup; [|apply unignored_sublist].
  by apply (recurse_NoDup re ignore t []).
Qed.

(** ** A single goroutine *)

Section SingleWorker.

Context (gz : Encoder) (re : RegexpEngine).
Context (root : string) (m : Z) (ignore : Regexp re).
Context (R : FS * (Z * option error)).

Lemma transition_single p p' :
  single_ok gz re root m ignore R p -> transition gz re root m ignore p p' ->
  single_ok gz re root m ignore R p'.
Proof.
  intros [Hcl Hm] Htr.
  destruct (routines p) as [|g0 [|g1 gs]] eqn:Hrs; [done | | by destruct g0].
  destruct Htr as [s rest Hu Hc Hcap|Hu Hc|i n out s rest g ev fs' Hr Hwk Hturn
                  |i n out Hr Hwk Hc|i n err Hr|i n err Hr|i n s rest Hr Hwk|i n Hr Hwk Hc];
    unfold single_ok;
    cbn [unsent walk_err closed work cap routines total firstErr disk history];
    rewrite ?Hrs;
    try (rewrite Hrs in Hr; destruct i as [|i]; [|done]; cbn in Hr; simplify_eq; cbn [insert list_insert]).
  - split; [done|]. destruct g0; try done. rewrite Hu in Hm. by rewrite <- app_assoc.
  - split; [done|]. destruct g0; try done. by rewrite Hu in Hm.
  - split; [done|]. rewrite Hwk in Hm. cbn [app worker_loop] in Hm.
    destruct Hm as (Hm & Ht & Hf & Hn).
    destruct Hturn as [Hig|fs1 out1 Hig Hcall|fs1 out1 Hig Hcall|fs1 out1 err Hig Hcall];
      unfold worker_body in Hm; rewrite Hig in Hm; rewrite ?Hcall in Hm.
    + done.
    + done.
    + split_and!; try done; apply wrap64_range.
    + done.
  - split; [auto|]. rewrite Hwk, (Hcl Hc) in Hm. cbn in Hm.
    destruct Hm as (<- & Ht & Hf & Hn). split_and!; try done; lia.
  - split; [done|]. destruct Hm as (-> & -> & Hf & Hn).
    rewrite Z.add_0_l, wrap64_small by done. destruct err; by rewrite ?Hf.
  - split; [done|]. destruct Hm as (-> & -> & ->). done.
  - split; [done|]. done.
  - split; [auto|]. done.
Qed.

Lemma run_single schedule p :
  single_ok gz re root m ignore R p ->
  single_ok gz re root m ignore R (run gz re root m ignore schedule p).
Proof.
  revert p. induction schedule as [|a schedule IH]; intros p Hok; [done|].
  simpl. destruct (step gz re root m ignore a p) as [p'|] eqn:Hstep; [|by apply IH].
  apply IH. eapply transition_single; [done|]. by eapply step_transition.
Qed.

End SingleWorker.

(** X14: with a single goroutine, [Recursive] returns what the loop of [worker]
    returns on the paths of the walk, one after the other, whatever the
    schedule: the file system it leaves, its count, and its error unless the
    walk has one. *)
Theorem Recursive_single_worker
    (gz : Encoder) (re : RegexpEngine) (schedule : list actor) (root : string) (m : Z)
    (ignorePattern : list string) (t : Tree) (fs : FS) (ignore : Regexp re)
    (r : FS * (Z * option error)) :
  Compile re ("^" +:+ strings_Join ignorePattern "|" +:+ "$") = inl ignore ->
  Recursive gz re schedule root m 1 ignorePattern t fs = Some r ->
  r = (fst (worker gz re root (fst (recurse re t "" ignore)) m ignore fs),
       (fst (snd (worker gz re root (fst (recurse re t "" ignore)) m ignore fs)),
        match snd (recurse re t "" ignore) with
        | Some e => Some e
        | None => snd (snd (worker gz re root (fst (recurse re t "" ignore)) m ignore fs))
        end)).
Proof.
  intros Hcompile Hrec. unfold Recursive in Hrec. rewrite Hcompile in Hrec.
  change (wrap64 (1 * 10) <? 0) with false in Hrec. cbv iota in Hrec.
  set (p := run gz re root m ignore schedule (start re 1 ignore t fs)) in *.
  destruct (outcome p) as [[tot err]|] eqn:Hout; [|done].
  simplify_eq. unfold outcome in Hout.
  destruct (closed p) eqn:Hclosed; [|done].
  destruct (forallb is_finished (routines p)) eqn:Hfin; [|done].
  cbn in Hout. simplify_eq.
  destruct (run_shape gz re root m ignore schedule (start re 1 ignore t fs))
    as (_ & _ & Hwalk).
  fold p in Hwalk. cbn in Hwalk. rewrite Hwalk.
  assert (single_ok gz re root m ignore
            (worker gz re root (fst (recurse re t "" ignore)) m ignore fs) p) as [_ Hs].
  { apply run_single. split; [done|]. cbn. by split_and!. }
  destruct (routines p) as [|g [|g1 gs]]; [done | | by destruct g].
  destruct g; try done. destruct Hs as [-> ->]. cbn.
  by destruct (snd (recurse re t "" ignore)).
Qed.

Lemma Recursive_single_worker_witness :
  (disk (run toy_gzip syntax.engine "/r" 7 ignore_nothing sample_schedule_single
           (start syntax.engine 1 ignore_nothing sample_tree sample_disk)),
   (1, Some (PathError "stat" "/r/c")))
  = (fst (worker toy_gzip syntax.engine "/r"
            (fst (recurse syntax.engine sample_tree "" ignore_nothing)) 7 ignore_nothing
            sample_disk),
     (fst (snd (worker toy_gzip syntax.engine "/r"
                  (fst (recurse syntax.engine sample_tree "" ignore_nothing)) 7 ignore_nothing
                  sample_disk)),
      match snd (recurse syntax.engine sample_tree "" ignore_nothing) with
      | Some e => Some e
      | None => snd (snd (worker toy_gzip syntax.engine "/r"
                            (fst (recurse syntax.engine sample_tree "" ignore_nothing)) 7
                            ignore_nothing sample_disk))
      end)).
Proof.
  apply (Recursive_single_worker toy_gzip syntax.engine sample_schedule_single "/r" 7 []
           sample_tree sample_disk ignore_nothing); vm_compute; reflexivity.
Defined.

(** ** No goroutine *)

Section NoWorker.

Context (gz : Encoder) (re : RegexpEngine).
Context (root : string) (m : Z) (ignore : Regexp re).

Lemma run_blocked schedule p :
  routines p = [] -> cap p <= 0 -> unsent p <> [] -> closed p = false ->
  run gz re root m ignore schedule p = p.
Proof.
  intros Hr Hcap Hu Hc. induction schedule as [|a schedule IH]; [done|].
  cbn [run]. destruct a as [|i]; cbn [step].
  - unfold step_main. destruct (unsent p) as [|s rest]; [done|]. rewrite Hc.
    destruct (Z.ltb_spec (Z.of_nat (length (work p))) (cap p)); [lia | done].
  - unfold step_go. by rewrite Hr.
Qed.

Lemma run_idle schedule p :
  routines p = [] -> unsent p = [] ->
  routines (run gz re root m ignore schedule p) = []
  /\ total (run gz re root m ignore schedule p) = total p
  /\ firstErr (run gz re root m ignore schedule p) = firstErr p
  /\ walk_err (run gz re root m ignore schedule p) = walk_err p
  /\ disk (run gz re root m ignore schedule p) = disk p
  /\ (closed p = true \/ In Main schedule ->
      closed (run gz re root m ignore schedule p) = true).
Proof.
  revert p. induction schedule as [|a schedule IH]; intros p Hr Hu.
  - cbn. split_and!; try done. by intros [?|[]].
  - cbn [run]. destruct a as [|i]; cbn [step].
    + unfold step_main. rewrite Hu.
      destruct (closed p) eqn:Hc.
      * destruct (IH p Hr Hu) as (? & ? & ? & ? & ? & Hcl). split_and!; try done.
        intros _. apply Hcl. by left.
      * match goal with |- context [run _ _ _ _ _ schedule ?q] =>
          destruct (IH q) as (? & ? & ? & ? & ? & Hcl); [done | done|] end.
        split_and!; try done. intros _. apply Hcl. by left.
    + unfold step_go. rewrite Hr. cbn [lookup list_lookup].
      destruct (IH p Hr Hu) as (? & ? & ? & ? & ? & Hcl). split_and!; try done.
      intros [?|[?|?]]; [apply Hcl; by left | done | apply Hcl; by right].
Qed.

End NoWorker.

(** X15: called with a concurrency of zero, [Recursive] starts no goroutine and
    makes a channel without buffer: if the walk has a path to send, the send
    blocks for ever and [Recursive] never returns, under no schedule; if it
    has none, [Recursive] returns the count 0 and the error of the walk, and
    leaves the file system alone. *)
Theorem Recursive_without_goroutines
    (gz : Encoder) (re : RegexpEngine) (root : string) (m : Z)
    (ignorePattern : list string) (t : Tree) (fs : FS) (ignore : Regexp re) :
  Compile re ("^" +:+ strings_Join ignorePattern "|" +:+ "$") = inl ignore ->
  (fst (recurse re t "" ignore) <> [] ->
   forall schedule, Recursive gz re schedule root m 0 ignorePattern t fs = None)
  /\ (fst (recurse re t "" ignore) = [] ->
      forall schedule,
        In Main schedule ->
        Recursive gz re schedule root m 0 ignorePattern t fs
        = Some (fs, (0, snd (recurse re t "" ignore)))).
Proof.
  intros Hcompile. split.
  - intros Hne schedule. unfold Recursive. rewrite Hcompile.
    change (wrap64 (0 * 10) <? 0) with false. cbv iota.
    by rewrite run_blocked.
  - intros Hnil schedule Hmain. unfold Recursive. rewrite Hcompile.
    change (wrap64 (0 * 10) <? 0) with false. cbv iota.
    destruct (run_idle gz re root m ignore schedule (start re 0 ignore t fs))
      as (Hr & Ht & Hf & Hw & Hd & Hc); [done | done|].
    unfold outcome. rewrite Hr, Hc, Ht, Hf, Hw, Hd by by right. cbn.
    by destruct (snd (recurse re t "" ignore)).
Qed.

Lemma Recursive_without_goroutines_witness :
  Recursive toy_gzip syntax.engine sample_schedule "/r" 7 0 [] sample_tree sample_disk = None
  /\ Recursive toy_gzip syntax.engine [Main] "/r" 7 0 [] (Directory []) sample_disk
     = Some (sample_disk, (0, snd (recurse syntax.engine (Directory []) "" ignore_nothing))).
Proof.
  split.
  - apply (proj1 (Recursive_without_goroutines toy_gzip syntax.engine "/r" 7 [] sample_tree
                    sample_disk ignore_nothing eq_refl)).
    discriminate.
  - apply (proj2 (Recursive_without_goroutines toy_gzip syntax.engine "/r" 7 [] (Directory [])
                    sample_disk ignore_nothing eq_refl)).
    + reflexivity.
    + by left.
Defined.

(** ** Fragments that are names *)

Lemma atom_char_inv c :
  atom_char c = true ->
  syntax.unmodelled c = false /\ syntax.is_repeat c = false
  /\ Ascii.eqb c "(" = false /\ Ascii.eqb c ")" = false /\ Ascii.eqb c "|" = false.
Proof.
  unfold atom_char, plain.
  destruct (Ascii.eqb_spec c "^") as [->|_]; [by vm_compute|].
  destruct (Ascii.eqb_spec c "$") as [->|_]; [by vm_compute|].
  intros H. rewrite !orb_false_r in H. apply negb_true_iff in H.
  rewrite !orb_false_iff in H. tauto.
Qed.

Lemma plain_atom c : plain c = true -> atom_char c = true /\ atom_of c = syntax.OpLiteral c.
Proof.
  unfold atom_char, atom_of. intros H. rewrite H. split; [done|].
  unfold plain in H. apply negb_true_iff in H. rewrite !orb_false_iff in H.
  destruct H as ((((((_ & _) & _) & _) & -> ) & ->) & _). done.
Qed.

Lemma parse_alternate_S fuel s :
  syntax.parse_alternate (S fuel) s
  = match syntax.parse_concat fuel s with
    | syntax.Parsed r ("|"%char :: rest) =>
        match syntax.parse_alternate fuel rest with
        | syntax.Parsed r' rest' => syntax.Parsed (syntax.OpAlternate r r') rest'
        | other => other
        end
    | other => other
    end.
Proof. reflexivity. Qed.

Lemma parse_concat_S fuel s :
  syntax.parse_concat (S fuel) s
  = match s with
    | [] => syntax.Parsed syntax.OpEmptyMatch s
    | c :: _ =>
        if (Ascii.eqb c "|" || Ascii.eqb c ")")%bool then syntax.Parsed syntax.OpEmptyMatch s
        else
          match syntax.parse_operand fuel s with
          | syntax.Parsed r rest =>
              match rest with
              | [] => syntax.Parsed r rest
              | c' :: _ =>
                  if (Ascii.eqb c' "|" || Ascii.eqb c' ")")%bool then syntax.Parsed r rest
                  else
                    match syntax.parse_concat fuel rest with
                    | syntax.Parsed r' rest' => syntax.Parsed (syntax.OpConcat r r') rest'
                    | other => other
                    end
              end
          | other => other
          end
    end.
Proof. reflexivity. Qed.

Lemma parse_operand_atom fuel c rest :
  atom_char c = true -> no_repeat_head rest ->
  syntax.parse_operand (S fuel) (c :: rest) = syntax.Parsed (atom_of c) rest.
Proof.
  intros (Hu & Hr & Hp & _ & _)%atom_char_inv Hrest.
  cbn [syntax.parse_operand]. rewrite Hu, Hr, Hp. unfold atom_of.
  assert (syntax.parse_repeat (syntax.OpLiteral c) rest = syntax.Parsed (syntax.OpLiteral c) rest)
    as Hlit.
  { destruct rest as [|c' rest]; [done|]. cbn in *. by rewrite Hrest. }
  destruct (Ascii.eqb c "^"); cbn [orb].
  { destruct rest as [|c' rest]; [done|]. cbn in Hrest. by rewrite Hrest. }
  destruct (Ascii.eqb c "$"); [|done].
  destruct rest as [|c' rest]; [done|]. cbn in Hrest. by rewrite Hrest.
Qed.

Lemma parse_concat_atoms l : forall fuel rest,
  l <> [] -> Forall (fun c => atom_char c = true) l -> terminated rest ->
  (length l < fuel)%nat ->
  syntax.parse_concat fuel (l ++ rest) = syntax.Parsed (seq_re (map atom_of l)) rest.
Proof.
  induction l as [|c l IH]; intros fuel rest Hne Hl Hrest Hfuel; [done|].
  apply Forall_cons in Hl as [Hc Hl].
  destruct fuel as [|[|fuel]]; [simpl in Hfuel; lia | simpl in Hfuel; lia |].
  pose proof (atom_char_inv _ Hc) as (_ & _ & _ & Hcl & Hbar).
  change ((c :: l) ++ rest)%list with (c :: (l ++ rest))%list.
  rewrite parse_concat_S. rewrite Hbar, Hcl. cbn [orb].
  rewrite parse_operand_atom; [|done|].
  2: { destruct l as [|c' l]; cbn.
       - destruct rest as [|x rest]; [done|]. cbn in Hrest. by subst x.
       - apply Forall_cons in Hl as [Hc' _]. by apply atom_char_inv in Hc' as (_ & ? & _). }
  destruct l as [|c' l].
  - cbn [app map seq_re]. destruct rest as [|x rest]; [done|].
    cbn in Hrest. subst x. done.
  - change ((c' :: l) ++ rest)%list with (c' :: (l ++ rest))%list.
    pose proof Hl as Hl'. apply Forall_cons in Hl' as [Hc' _].
    pose proof (atom_char_inv _ Hc') as (_ & _ & _ & Hcl' & Hbar').
    rewrite Hbar', Hcl'. cbn [orb].
    change (c' :: (l ++ rest))%list with ((c' :: l) ++ rest)%list.
    rewrite IH; [done | done | done | done | simpl in *; lia].
Qed.

Lemma parse_alternate_atoms ls : forall fuel,
  ls <> [] ->
  Forall (fun l => l <> [] /\ Forall (fun c => atom_char c = true) l) ls ->
  (length (join_bar ls) + 1 < fuel)%nat ->
  syntax.parse_alternate fuel (join_bar ls)
  = syntax.Parsed (alt_re (map (fun l => seq_re (map atom_of l)) ls)) [].
Proof.
  induction ls as [|l ls IH]; intros fuel Hne Hls Hfuel; [done|].
  apply Forall_cons in Hls as [[Hl1 Hl2] Hls].
  destruct fuel as [|fuel]; [lia|].
  rewrite parse_alternate_S.
  destruct ls as [|l' ls].
  - change (join_bar [l]) with l in *.
    change (alt_re (map (fun l => seq_re (map atom_of l)) [l])) with (seq_re (map atom_of l)).
    rewrite <- (app_nil_r l) at 1.
    rewrite parse_concat_atoms; [done | done | done | done | lia].
  - change (join_bar (l :: l' :: ls)) with (l ++ "|"%char :: join_bar (l' :: ls))%list in *.
    rewrite length_app in Hfuel. change (length (?x :: ?y)) with (S (length y)) in Hfuel.
    rewrite parse_concat_atoms; [|done | done | done | lia].
    rewrite IH; [done | done | done | lia].
Qed.

Lemma bool_decide_cons (x c : ascii) (a b : list ascii) :
  bool_decide (x :: a = c :: b) = Ascii.eqb x c && bool_decide (a = b).
Proof.
  destruct (Ascii.eqb_spec x c) as [->|Hne]; cbn [andb].
  - apply bool_decide_ext. split; [by intros [= ->] | by intros ->].
  - apply bool_decide_eq_false_2. by intros [= ? ?].
Qed.

Lemma matches_lits l : forall tl k b s,
  l <> [] ->
  syntax.matches (seq_re (map syntax.OpLiteral l ++ tl)) k b s
  = bool_decide (take (length l) s = l)
    && syntax.matches (seq_re tl) k false (drop (length l) s).
Proof.
  induction l as [|c l IH]; intros tl k b s Hne; [done|].
  destruct l as [|c' l].
  - change (map syntax.OpLiteral [c] ++ tl)%list with (syntax.OpLiteral c :: tl).
    destruct s as [|x s].
    + destruct tl; cbn; by rewrite bool_decide_eq_false_2.
    + change (take (length [c]) (x :: s)) with (x :: take 0 s).
      change (drop (length [c]) (x :: s)) with s.
      rewrite take_0, bool_decide_cons, bool_decide_eq_true_2, andb_true_r by done.
      by destruct tl.
  - change (map syntax.OpLiteral (c :: c' :: l) ++ tl)%list
      with (syntax.OpLiteral c :: (map syntax.OpLiteral (c' :: l) ++ tl))%list.
    change (seq_re (syntax.OpLiteral c :: (map syntax.OpLiteral (c' :: l) ++ tl)))
      with (syntax.OpConcat (syntax.OpLiteral c) (seq_re (map syntax.OpLiteral (c' :: l) ++ tl))).
    cbn [syntax.matches].
    destruct s as [|x s].
    + by rewrite bool_decide_eq_false_2.
    + rewrite IH by done.
      change (take (length (c :: c' :: l)) (x :: s)) with (x :: take (length (c' :: l)) s).
      change (drop (length (c :: c' :: l)) (x :: s)) with (drop (length (c' :: l)) s).
      by rewrite bool_decide_cons, andb_assoc.
Qed.

Lemma matches_alt rs : forall k b s,
  rs <> [] ->
  syntax.matches (alt_re rs) k b s = existsb (fun r => syntax.matches r k b s) rs.
Proof.
  induction rs as [|r rs IH]; intros k b s Hne; [done|].
  destruct rs as [|r' rs].
  - cbn. by rewrite orb_false_r.
  - change (alt_re (r :: r' :: rs)) with (syntax.OpAlternate r (alt_re (r' :: rs))).
    cbn [syntax.matches existsb]. by rewrite IH.
Qed.

Lemma search_iff r : forall s b,
  syntax.search r b s = true
  <-> exists i, (i <= length s)%nat
        /\ syntax.matches r (fun _ _ => true) (b && Nat.eqb i 0) (drop i s) = true.
Proof.
  induction s as [|x s IH]; intros b; cbn [syntax.search].
  - rewrite orb_false_r. split.
    + intros H. exists 0%nat. by rewrite andb_true_r.
    + intros (i & Hi & H). cbn in Hi. assert (i = 0%nat) as -> by lia.
      by rewrite andb_true_r in H.
  - rewrite orb_true_iff, IH. split.
    + intros [H|(i & Hi & H)].
      * exists 0%nat. rewrite andb_true_r. split; [lia | done].
      * exists (S i). cbn. rewrite andb_false_r. split; [lia | done].
    + intros ([|i] & Hi & H).
      * left. by rewrite andb_true_r in H.
      * right. exists i. cbn in *. rewrite andb_false_r in H. split; [lia | done].
Qed.

Lemma take_is_prefix (l s : list ascii) :
  take (length l) s = l <-> exists t, s = (l ++ t)%list.
Proof.
  split.
  - intros H. exists (drop (length l) s). by rewrite <- H at 1; rewrite take_drop.
  - intros [t ->]. by rewrite take_app_length.
Qed.

Lemma map_atom_of_plain l :
  Forall (fun c => plain c = true) l -> map atom_of l = map syntax.OpLiteral l.
Proof.
  induction 1 as [|c l Hc _ IH]; [done|]. cbn. rewrite IH.
  by destruct (plain_atom c Hc) as [_ ->].
Qed.

Lemma Forall_plain_atom l :
  Forall (fun c => plain c = true) l -> Forall (fun c => atom_char c = true) l.
Proof. intros H. eapply Forall_impl; [exact H|]. intros c Hc. by apply plain_atom. Qed.

(** The three shapes an alternative of the compiled expression has. *)
Lemma matches_begin l b s :
  l <> [] ->
  syntax.matches (seq_re (syntax.OpBeginText :: map syntax.OpLiteral l)) (fun _ _ => true) b s
  = b && bool_decide (take (length l) s = l).
Proof.
  intros Hne. destruct l as [|c l]; [done|].
  change (seq_re (syntax.OpBeginText :: map syntax.OpLiteral (c :: l)))
    with (syntax.OpConcat syntax.OpBeginText (seq_re (map syntax.OpLiteral (c :: l)))).
  cbn [syntax.matches].
  rewrite <- (app_nil_r (map syntax.OpLiteral (c :: l))), matches_lits by done.
  cbn. by rewrite andb_true_r.
Qed.

Lemma matches_middle l b s :
  l <> [] ->
  syntax.matches (seq_re (map syntax.OpLiteral l)) (fun _ _ => true) b s
  = bool_decide (take (length l) s = l).
Proof.
  intros Hne.
  rewrite <- (app_nil_r (map syntax.OpLiteral l)), matches_lits by done.
  cbn. by rewrite andb_true_r.
Qed.

Lemma matches_end l b s :
  l <> [] ->
  syntax.matches (seq_re (map syntax.OpLiteral l ++ [syntax.OpEndText])) (fun _ _ => true) b s
  = bool_decide (s = l).
Proof.
  intros Hne. rewrite matches_lits by done. cbn [seq_re syntax.matches].
  destruct (drop (length l) s) as [|y rest] eqn:Hd.
  - rewrite andb_true_r. apply bool_decide_ext. split.
    + intros H. rewrite <- (take_drop (length l) s), Hd, app_nil_r. done.
    + intros ->. by rewrite take_ge.
  - rewrite andb_false_r. symmetry. apply bool_decide_eq_false_2. intros ->.
    by rewrite drop_all in Hd.
Qed.

Lemma matches_whole l b s :
  l <> [] ->
  syntax.matches (seq_re (syntax.OpBeginText :: map syntax.OpLiteral l ++ [syntax.OpEndText]))
    (fun _ _ => true) b s
  = b && bool_decide (s = l).
Proof.
  intros Hne. destruct l as [|c l]; [done|].
  change (seq_re (syntax.OpBeginText :: map syntax.OpLiteral (c :: l) ++ [syntax.OpEndText]))
    with (syntax.OpConcat syntax.OpBeginText
            (seq_re (map syntax.OpLiteral (c :: l) ++ [syntax.OpEndText]))).
  cbn [syntax.matches]. by rewrite matches_end.
Qed.

Lemma list_ascii_of_string_app a b :
  list_ascii_of_string (a +:+ b) = (list_ascii_of_string a ++ list_ascii_of_string b)%list.
Proof. induction a as [|c a IH]; simpl; [done | by f_equal]. Qed.

Lemma list_ascii_of_string_inj a b :
  list_ascii_of_string a = list_ascii_of_string b -> a = b.
Proof.
  intros H. apply (f_equal string_of_list_ascii) in H.
  by rewrite !string_of_list_ascii_of_string in H.
Qed.

Lemma literal_inv f :
  literal f = true ->
  list_ascii_of_string f <> [] /\ Forall (fun c => plain c = true) (list_ascii_of_string f).
Proof.
  unfold literal. intros [Hne Hp]%andb_true_iff. split.
  - destruct f; [done|]. done.
  - apply List.Forall_forall. by apply forallb_forall.
Qed.

Lemma join_bar_concat frs :
  list_ascii_of_string (strings_Join frs "|") = join_bar (map list_ascii_of_string frs).
Proof.
  unfold strings_Join. induction frs as [|f frs IH]; [done|].
  destruct frs as [|f' frs]; [done|].
  change (String.concat "|" (f :: f' :: frs)) with (f +:+ "|" +:+ String.concat "|" (f' :: frs)).
  rewrite !list_ascii_of_string_app, IH. done.
Qed.

Lemma join_bar_first a l rest : (a :: join_bar (l :: rest))%list = join_bar ((a :: l) :: rest).
Proof. by destruct rest. Qed.

Lemma join_bar_last init l d :
  (join_bar (init ++ [l]) ++ [d])%list = join_bar (init ++ [(l ++ [d])%list])%list.
Proof.
  induction init as [|x init IH]; [done|].
  change ((x :: init) ++ [l])%list with (x :: (init ++ [l]))%list.
  change ((x :: init) ++ [(l ++ [d])%list])%list with (x :: (init ++ [(l ++ [d])%list]))%list.
  destruct init as [|y init].
  - cbn. by rewrite <- app_assoc.
  - change (join_bar (x :: (y :: init) ++ [l])%list)
      with (x ++ "|"%char :: join_bar ((y :: init) ++ [l]))%list.
    change (join_bar (x :: (y :: init) ++ [(l ++ [d])%list])%list)
      with (x ++ "|"%char :: join_bar ((y :: init) ++ [(l ++ [d])%list]))%list.
    by rewrite <- IH, <- app_assoc.
Qed.

(** What [regexp.Compile] makes of the pattern of [Recursive] when the
    atoms of its alternatives are plain characters, [^] and [$]. *)
Lemma Compile_atoms ls expr :
  list_ascii_of_string expr = join_bar ls ->
  ls <> [] ->
  Forall (fun l => l <> [] /\ Forall (fun c => atom_char c = true) l) ls ->
  syntax.Compile expr = inl (alt_re (map (fun l => seq_re (map atom_of l)) ls)).
Proof.
  intros Hexpr Hne Hls. unfold syntax.Compile, syntax.Parse. rewrite Hexpr.
  rewrite parse_alternate_atoms; [done | done | done | lia].
Qed.

Lemma atoms_first l :
  l <> [] -> Forall (fun c => plain c = true) l ->
  ("^"%char :: l) <> [] /\ Forall (fun c => atom_char c = true) ("^"%char :: l).
Proof. intros _ Hl. split; [done|]. constructor; [done | by apply Forall_plain_atom]. Qed.

Lemma atoms_last l :
  l <> [] -> Forall (fun c => plain c = true) l ->
  (l ++ ["$"%char])%list <> [] /\ Forall (fun c => atom_char c = true) (l ++ ["$"%char]).
Proof.
  intros _ Hl. split; [by destruct l|].
  apply Forall_app. split; [by apply Forall_plain_atom | by constructor].
Qed.

(** X17: a single fragment that is a name is matched by that name and by no
    other path: a file or a directory of the same name further down the
    tree is not ignored. *)
Theorem ignored_single_literal (f path : string) :
  literal f = true -> ignored [f] path = true <-> path = f.
Proof.
  intros [Hne Hp]%literal_inv. unfold ignored.
  set (lf := list_ascii_of_string f) in *.
  rewrite (Compile_atoms [("^"%char :: lf ++ ["$"%char])%list]).
  2: { cbn [strings_Join String.concat]. rewrite list_ascii_of_string_app. cbn.
       by rewrite list_ascii_of_string_app. }
  2: done.
  2: { constructor; [|done]. split; [done|]. constructor; [done|]. by apply atoms_last. }
  cbn [map alt_re]. rewrite map_app. cbn [map].
  change (atom_of "^") with syntax.OpBeginText. change (atom_of "$") with syntax.OpEndText.
  rewrite map_atom_of_plain by done.
  unfold syntax.MatchString. rewrite search_iff. split.
  - intros (i & _ & H). rewrite matches_whole in H by done.
    apply andb_true_iff in H as [Hi H]. cbn in Hi. apply Nat.eqb_eq in Hi as ->.
    apply bool_decide_eq_true in H. rewrite drop_0 in H. by apply list_ascii_of_string_inj.
  - intros ->. exists 0%nat. split; [lia|]. rewrite matches_whole by done.
    cbn. by apply bool_decide_eq_true.
Qed.

Lemma ignored_single_literal_witness :
  ignored ["node_modules"] "node_modules" = true <-> "node_modules" = "node_modules".
Proof. apply ignored_single_literal. reflexivity. Defined.

(** X18: with two or more fragments that are names, [^] belongs to the first
    alternative only and [$] to the last: a path is ignored exactly when it
    starts with the first fragment, holds one of the fragments in between
    anywhere, or ends with the last fragment. *)
Theorem ignored_literals (first last : string) (mid : list string) (path : string) :
  literal first = true -> Forall (fun f => literal f = true) mid -> literal last = true ->
  ignored (first :: mid ++ [last]) path = true
  <-> (exists t, path = first +:+ t)
      \/ (exists f a b, In f mid /\ path = a +:+ f +:+ b)
      \/ (exists t, path = t +:+ last).
Proof.
  intros [Hne1 Hp1]%literal_inv Hmid [Hnen Hpn]%literal_inv. unfold ignored.
  set (l1 := list_ascii_of_string first) in *.
  set (ln := list_ascii_of_string last) in *.
  set (lmid := map list_ascii_of_string mid).
  assert (Forall (fun l => l <> [] /\ Forall (fun c => plain c = true) l) lmid) as Hlmid.
  { unfold lmid. apply Forall_map. eapply Forall_impl; [exact Hmid|].
    intros f Hf. by apply literal_inv. }
  rewrite (Compile_atoms (("^"%char :: l1) :: lmid ++ [(ln ++ ["$"%char])%list])%list).
  2: { rewrite !list_ascii_of_string_app, join_bar_concat. cbn [list_ascii_of_string app].
       change (map list_ascii_of_string (first :: mid ++ [last]))
         with (l1 :: map list_ascii_of_string (mid ++ [last])).
       rewrite map_app. cbn [map]. fold lmid ln.
       rewrite <- join_bar_first. f_equal.
       change (l1 :: lmid ++ [ln])%list with ((l1 :: lmid) ++ [ln])%list.
       change (l1 :: lmid ++ [(ln ++ ["$"%char])%list])%list
         with ((l1 :: lmid) ++ [(ln ++ ["$"%char])%list])%list.
       apply join_bar_last. }
  2: done.
  2: { constructor; [by apply atoms_first|]. apply Forall_app. split.
       - eapply Forall_impl; [exact Hlmid|]. intros l [? ?]. split; [done|].
         by apply Forall_plain_atom.
       - constructor; [by apply atoms_last | done]. }
  unfold syntax.MatchString. set (s := list_ascii_of_string path).
  rewrite search_iff.
  assert (forall i,
            syntax.matches
              (alt_re (map (fun l => seq_re (map atom_of l))
                           (("^"%char :: l1) :: lmid ++ [(ln ++ ["$"%char])%list])%list))
              (fun _ _ => true) (true && Nat.eqb i 0) (drop i s) = true
            <-> (i = 0%nat /\ take (length l1) s = l1)
                \/ (exists l, In l lmid /\ take (length l) (drop i s) = l)
                \/ drop i s = ln) as Hat.
  { intros i. rewrite matches_alt by done. cbn [map existsb].
    rewrite map_app, existsb_app. cbn [map existsb].
    change (atom_of "^") with syntax.OpBeginText.
    rewrite map_app. cbn [map]. change (atom_of "$") with syntax.OpEndText.
    rewrite !map_atom_of_plain by done.
    rewrite matches_begin, matches_end by done. cbn [andb].
    rewrite orb_false_r, !orb_true_iff, andb_true_iff, existsb_exists.
    rewrite Nat.eqb_eq, !bool_decide_eq_true.
    split.
    - intros [[-> H]|[(r & Hr & H)|H]]; [left; by rewrite drop_0 in H | | by right; right].
      right. left. apply in_map_iff in Hr as (l & <- & Hl). exists l. split; [done|].
      rewrite List.Forall_forall in Hlmid. destruct (Hlmid l Hl) as [Hnel Hpl].
      rewrite map_atom_of_plain, matches_middle in H by done.
      by apply bool_decide_eq_true in H.
    - intros [[-> H]|[(l & Hl & H)|H]]; [left; by rewrite drop_0 | | by right; right].
      right. left. exists (seq_re (map atom_of l)).
      split; [by apply (in_map (fun l => seq_re (map atom_of l)))|].
      rewrite List.Forall_forall in Hlmid. destruct (Hlmid l Hl) as [Hnel Hpl].
      rewrite map_atom_of_plain, matches_middle by done.
      by apply bool_decide_eq_true. }
  split.
  - intros (i & Hi & H). apply Hat in H as [[-> H]|[(l & Hl & H)|H]].
    + left. apply take_is_prefix in H as [t Ht].
      exists (string_of_list_ascii t). apply list_ascii_of_string_inj.
      by rewrite list_ascii_of_string_app, list_ascii_of_string_of_list_ascii.
    + right. left. apply take_is_prefix in H as [t Ht].
      apply in_map_iff in Hl as (f & <- & Hf).
      exists f, (string_of_list_ascii (take i s)), (string_of_list_ascii t).
      split; [done|]. apply list_ascii_of_string_inj.
      rewrite !list_ascii_of_string_app, !list_ascii_of_string_of_list_ascii.
      fold s. by rewrite <- Ht, take_drop.
    + right. right. exists (string_of_list_ascii (take i s)).
      apply list_ascii_of_string_inj.
      rewrite list_ascii_of_string_app, list_ascii_of_string_of_list_ascii.
      fold s ln. by rewrite <- H, take_drop.
  - intros [[t ->]|[(f & a & b & Hf & ->)|[t ->]]].
    + exists 0%nat. split; [lia|]. apply Hat. left. split; [done|].
      unfold s. rewrite list_ascii_of_string_app. fold l1. by rewrite take_app_length.
    + exists (length (list_ascii_of_string a)).
      split; [unfold s; rewrite list_ascii_of_string_app, length_app; lia|].
      apply Hat. right. left. exists (list_ascii_of_string f).
      split; [by apply in_map|].
      unfold s. rewrite !list_ascii_of_string_app, drop_app_length.
      by rewrite take_app_length.
    + exists (length (list_ascii_of_string t)).
      split; [unfold s; rewrite list_ascii_of_string_app, length_app; lia|].
      apply Hat. right. right.
      unfold s. by rewrite list_ascii_of_string_app, drop_app_length.
Qed.

Lemma ignored_literals_witness :
  ignored ("build" :: ["tmp"] ++ ["cache"]) "src/tmpfiles/x" = true
  <-> (exists t, "src/tmpfiles/x" = "build" +:+ t)
      \/ (exists f a b, In f ["tmp"] /\ "src/tmpfiles/x" = a +:+ f +:+ b)
      \/ (exists t, "src/tmpfiles/x" = t +:+ "cache").
Proof. apply ignored_literals; [reflexivity | repeat constructor | reflexivity]. Defined.
